(** * Burn-severity heat map for Sentinel-2 (sentinel2_burn_severity_heatmap.js)

    A shallow embedding of the evaluation script and the verification of its
    specification.  JavaScript numbers are IEEE 754 binary64 values, so they
    are embedded as Rocq's primitive [float]s: [+], [-], [*], [/],
    [Math.sqrt] and [Math.abs] are the kernel's operations and the
    comparisons are [<?] and [<=?].  Integer-valued numbers that only count
    or index (array indices, the window size, the SCL code) are embedded as
    [Z] and converted where the script divides by them. *)

From Stdlib Require Import String ZArith Lia List Bool Floats.
From Stdlib Require Import Sorting.Sorted Sorting.Permutation.
From Stdlib Require Uint63.
Import ListNotations.

#[local] Set Warnings "-inexact-float".
#[local] Open Scope float_scope.

(** ** JavaScript numbers *)

Module JS.

(** An integer-valued number as a binary64 value (exact below 2^53). *)
Definition of_Z (n : Z) : float :=
  match n with
  | Z0 => 0
  | Zpos _ => of_uint63 (Uint63.of_Z n)
  | Zneg p => - of_uint63 (Uint63.of_Z (Zpos p))
  end.

(** [Math.max(a, b)]: NaN if either is NaN, and +0 is larger than -0. *)
Definition Math_max (a b : float) : float :=
  if is_nan a || is_nan b then nan
  else if a <? b then b
  else if b <? a then a
  else if get_sign a then b else a.

(** [Math.min(a, b)]: NaN if either is NaN, and -0 is smaller than +0. *)
Definition Math_min (a b : float) : float :=
  if is_nan a || is_nan b then nan
  else if a <? b then a
  else if b <? a then b
  else if get_sign a then a else b.

(** [Math.round(x)]: x itself when it is NaN, infinite, a zero or already
    integral; otherwise the integral number closest to x, ties going
    towards +infinity; a result of zero keeps the sign of x.  The
    integer floor(x + 1/2) is computed exactly from mantissa and
    exponent. *)
Definition Math_round (x : float) : float :=
  match Prim2SF x with
  | S754_finite s m e =>
      if (0 <=? e)%Z then x
      else
        let v := if s then Zneg m else Zpos m in
        let n := ((2 * v + 2 ^ (- e)) / 2 ^ (1 - e))%Z in
        if (n =? 0)%Z then (if s then neg_zero else zero) else of_Z n
  | _ => x
  end.

(** [Math.pow(x, 2)].  The standard leaves finite powers to the
    implementation; the engines return the correctly rounded square. *)
Definition Math_pow2 (x : float) : float := x * x.

(** [a.includes(x)] on an array of integer codes. *)
Definition includes (a : list Z) (x : Z) : bool := existsb (Z.eqb x) a.

End JS.

(** ** Configuration constants *)

(** Milliseconds since the epoch; [None] is an invalid date (time value NaN). *)
Definition Time := option Z.

(** [new Date("2025-01-01")] and [new Date("2025-01-13")], midnight UTC. *)
Definition fromDate : Time := Some 1735689600000%Z.
Definition toDate : Time := Some 1736726400000%Z.

Definition excludedClasses : list Z := [0; 1; 3; 6; 7; 8; 9; 10; 11]%Z.

Inductive Label :=
  | Unburnt | LowSeverity | ModerateSeverity | ModerateHighSeverity | HighSeverity.

Record Threshold := { max : float; alpha : float; label : Label }.

Definition thresholds : list Threshold :=
  [ {| max := 0.1;      alpha := 0.0; label := Unburnt |};
    {| max := 0.27;     alpha := 0.3; label := LowSeverity |};
    {| max := 0.44;     alpha := 0.5; label := ModerateSeverity |};
    {| max := 0.66;     alpha := 0.7; label := ModerateHighSeverity |};
    {| max := infinity; alpha := 1.0; label := HighSeverity |} ].

(** ** Index arithmetic *)

Definition calculateNBR (NIR SWIR : float) : float :=
  (NIR - SWIR) / (NIR + SWIR).

Definition calculateRBR (dNBR preFireNBR : float) : float :=
  dNBR / PrimFloat.sqrt (PrimFloat.abs preFireNBR).

(** ** Moving average *)

(** The integers lo, lo+1, ..., hi in order (none when hi < lo). *)
Definition zrange (lo hi : Z) : list Z :=
  map (fun k => (lo + Z.of_nat k)%Z) (seq 0 (Z.to_nat (hi - lo + 1))).

(** [dataset[j]] for an index inside the bounds. *)
Definition item (dataset : list float) (j : Z) : float :=
  nth (Z.to_nat j) dataset nan.

(** One turn of the inner loop: [sum] and [count] after visiting index j. *)
Definition window_step (dataset : list float) (acc : float * Z) (j : Z) : float * Z :=
  let '(sum, count) := acc in
  if ((0 <=? j) && (j <? Z.of_nat (length dataset)))%Z
  then (sum + item dataset j, (count + 1)%Z)
  else (sum, count).

(** The inner loop for output position i.  [windowSize] is an integer and
    the counter j runs over exact integers.  In the source j is a binary64
    number: it holds every integer up to 2^53 in magnitude and [j++] is exact
    there, so the two loops visit the same indices whenever
    |windowSize| < 2^53 (arrays have fewer than 2^32 elements).  For larger
    sizes [j++] can leave j unchanged in the source and its loop not end. *)
Definition window_sum (dataset : list float) (windowSize i : Z) : float * Z :=
  let half := (windowSize / 2)%Z in
  fold_left (window_step dataset) (zrange (i - half) (i + half)) (0, 0%Z).

Definition smoothData (dataset : list float) (windowSize : Z) : list float :=
  map (fun i => let '(sum, count) := window_sum dataset windowSize i in
                sum / JS.of_Z count)
      (zrange 0 (Z.of_nat (length dataset) - 1)).

(** ** Colour and transparency *)

Definition getHeatmapColor (RBR : float) : list float :=
  let red := JS.Math_min 255 (JS.Math_max 0 (JS.Math_round (RBR * 255))) in
  let green := JS.Math_min 255 (JS.Math_max 0 (JS.Math_round ((1 - RBR) * 255))) in
  let blue := 0 in
  [red; green; blue].

Definition adjustTransparency (alpha : float) : float := JS.Math_pow2 alpha.

(** [thresholds.some(...)] with the callback of [evaluatePixel]: the scan
    stops at the first row the callback accepts, and the callback has
    assigned that row's alpha to the captured variable.  The state passed
    along is the value of [alpha]. *)
Fixpoint scan_thresholds (RBR : float) (rows : list Threshold) (alpha0 : float) : float :=
  match rows with
  | [] => alpha0
  | threshold :: rest =>
      if RBR <=? max threshold then alpha threshold
      else scan_thresholds RBR rest alpha0
  end.

(** ** Pixel evaluation *)

(** What [setup] returns: the input bands with their units, the number of
    output bands and the mosaicking mode. *)
Record Setup := {
  input_bands : list string;
  input_units : list string;
  output_bands : nat;
  mosaicking : string
}.

Definition setup : Setup :=
  {| input_bands := ["B08"; "B12"; "SCL"; "dataMask"]%string;
     input_units := ["REFLECTANCE"; "REFLECTANCE"; "DN"; "DN"]%string;
     output_bands := 4;
     mosaicking := "ORBIT"%string |}.

(** A sample: one value for each input band. *)
Record Sample := { B08 : float; B12 : float; SCL : Z; dataMask : Z }.

(** The relativized burn ratio of a pixel, as computed between the mask
    test and the colour mapping. *)
Definition pixelRBR (firstSample lastSample : Sample) : float :=
  let rawNBRPreFire := calculateNBR (B08 firstSample) (B12 firstSample) in
  let rawNBRPostFire := calculateNBR (B08 lastSample) (B12 lastSample) in
  let smoothedPreFire := smoothData [rawNBRPreFire] 3 in
  let smoothedPostFire := smoothData [rawNBRPostFire] 3 in
  let firstNBR := item smoothedPreFire 0 in
  let lastNBR := item smoothedPostFire 0 in
  let dNBR := firstNBR - lastNBR in
  calculateRBR dNBR firstNBR.

Definition evaluatePixel (samples : list Sample) : list float :=
  match samples with
  | [firstSample; lastSample] =>
      let isExcludedPreFire := JS.includes excludedClasses (SCL firstSample) in
      let isExcludedPostFire := JS.includes excludedClasses (SCL lastSample) in
      if isExcludedPreFire || isExcludedPostFire then [0; 0; 0; 0]
      else
        let RBR := pixelRBR firstSample lastSample in
        let rgbColor := getHeatmapColor RBR in
        let alpha := scan_thresholds RBR thresholds 0.0 in
        let alpha := adjustTransparency alpha in
        rgbColor ++ [alpha]
  | _ => [0; 0; 0; 0]
  end.

(** ** Scene selection *)

(** An orbit of the catalogue.  The script reads [dateFrom] and [dateTo];
    [tiles] stands for everything else the platform stores in the object. *)
Record Orbit := { dateFrom : Time; dateTo : Time; tiles : nat }.

(** [a >= b] and [a <= b] on dates: false when either is invalid. *)
Definition date_ge (a b : Time) : bool :=
  match a, b with
  | Some x, Some y => (y <=? x)%Z
  | _, _ => false
  end.

Definition date_le (a b : Time) : bool :=
  match a, b with
  | Some x, Some y => (x <=? y)%Z
  | _, _ => false
  end.

(** [a - b] on dates: the difference in milliseconds, [None] for NaN. *)
Definition date_minus (a b : Time) : option Z :=
  match a, b with
  | Some x, Some y => Some (x - y)%Z
  | _, _ => None
  end.

(** The callback of [filter]. *)
Definition in_period (orbit : Orbit) : bool :=
  date_ge (dateFrom orbit) fromDate && date_le (dateTo orbit) toDate.

(** The callback of [sort]. *)
Definition compareFn (a b : Orbit) : option Z :=
  date_minus (dateFrom a) (dateFrom b).

(** [Array.prototype.sort] is stable; [a] moves behind [b] exactly when the
    callback returns a positive number (NaN counts as zero).  Insertion from
    the right end gives that order. *)
Definition sorts_after (a b : Orbit) : bool :=
  match compareFn a b with
  | Some v => (0 <? v)%Z
  | None => false
  end.

Fixpoint sort_insert (a : Orbit) (sorted : list Orbit) : list Orbit :=
  match sorted with
  | [] => [a]
  | b :: rest => if sorts_after a b then b :: sort_insert a rest else a :: sorted
  end.

Definition array_sort (l : list Orbit) : list Orbit :=
  fold_right sort_insert [] l.

(** The part of the JavaScript heap the function touches: the array
    objects, by address, and the address stored in
    [collections.scenes.orbits]. *)
Definition Ref := nat.

Record Store := { arrays : list (list Orbit); scenes_orbits : Ref }.

Definition deref (st : Store) (r : Ref) : list Orbit := nth r (arrays st) [].

(** The array [collections.scenes.orbits] refers to. *)
Definition orbits (st : Store) : list Orbit := deref st (scenes_orbits st).

(** A new array object; its address is the next free one. *)
Definition alloc (st : Store) (a : list Orbit) : Store * Ref :=
  ({| arrays := arrays st ++ [a]; scenes_orbits := scenes_orbits st |},
   length (arrays st)).

(** Assignment to [collections.scenes.orbits]. *)
Definition set_orbits (st : Store) (r : Ref) : Store :=
  {| arrays := arrays st; scenes_orbits := r |}.

Fixpoint list_update {A} (l : list A) (n : nat) (x : A) : list A :=
  match l, n with
  | [], _ => []
  | _ :: t, O => x :: t
  | h :: t, S k => h :: list_update t k x
  end.

(** Replacing the contents of the array at [r] (an update in place). *)
Definition write (st : Store) (r : Ref) (a : list Orbit) : Store :=
  {| arrays := list_update (arrays st) r a; scenes_orbits := scenes_orbits st |}.

(** What [preProcessScenes] returns: the [collections] object it was given,
    or a new array. *)
Inductive Returned :=
  | RetCollections
  | RetArray (r : Ref).

Definition preProcessScenes (st : Store) : Store * Returned :=
  (* collections.scenes.orbits = collections.scenes.orbits.filter(...) *)
  let '(st, kept) := alloc st (filter in_period (orbits st)) in
  let st := set_orbits st kept in
  (* collections.scenes.orbits.sort(...) *)
  let st := write st (scenes_orbits st) (array_sort (orbits st)) in
  match orbits st with
  | first :: second :: rest =>
      (* length >= 2: [orbits[0], orbits[orbits.length - 1]] *)
      let '(st, selected) := alloc st [first; last (second :: rest) second] in
      (set_orbits st selected, RetCollections)
  | _ =>
      (* return [] *)
      let '(st, empty) := alloc st [] in
      (st, RetArray empty)
  end.

(** * Specification vocabulary *)

(** ** Pixels *)

(** The smoothed index of one sample, as [evaluatePixel] obtains it. *)
Definition smoothedNBR (s : Sample) : float :=
  item (smoothData [calculateNBR (B08 s) (B12 s)] 3) 0.

(** |x - y| < tol, in binary64 arithmetic. *)
Definition within (tol x y : float) : bool := PrimFloat.abs (x - y) <? tol.

(** The two samples of the worked example. *)
Definition preFireExample : Sample :=
  {| B08 := 0.5; B12 := 0.1; SCL := 4; dataMask := 1 |}.
Definition postFireExample : Sample :=
  {| B08 := 0.2; B12 := 0.3; SCL := 4; dataMask := 1 |}.

(** The inputs on which the evaluator gives up: a sample count other than
    two, or two samples one of which carries an excluded SCL code. *)
Definition masked (samples : list Sample) : Prop :=
  length samples <> 2%nat \/
  exists a b, samples = [a; b] /\
    (In (SCL a) [0; 1; 3; 6; 7; 8; 9; 10; 11]%Z \/
     In (SCL b) [0; 1; 3; 6; 7; 8; 9; 10; 11]%Z).

(** Two samples that agree on every band the script reads. *)
Definition same_bands (s t : Sample) : Prop :=
  B08 s = B08 t /\ B12 s = B12 t /\ SCL s = SCL t.

(** An integer between 0 and 255, as a number. *)
Definition channel (c : float) : Prop :=
  exists k : Z, (0 <= k <= 255)%Z /\ c = JS.of_Z k.

Definition unit_interval (a : float) : Prop := (0 <=? a) = true /\ (a <=? 1) = true.

(** A well-formed RGBA pixel. *)
Definition valid_pixel (out : list float) : Prop :=
  exists r g b a, out = [r; g; b; a] /\
                  channel r /\ channel g /\ channel b /\ unit_interval a.

(** The ratio of the pixel is a number whenever the evaluator computes it. *)
Definition ratio_is_number (samples : list Sample) : Prop :=
  forall a b, samples = [a; b] ->
    JS.includes excludedClasses (SCL a) || JS.includes excludedClasses (SCL b) = false ->
    is_nan (pixelRBR a b) = false.

(** ** Severity bands *)

(** The rows of the table, as pairs (max, alpha). *)
Definition table : list (float * float) :=
  map (fun t => (max t, alpha t)) thresholds.

Fixpoint ascending (l : list float) : bool :=
  match l with
  | a :: (b :: _) as rest => (a <? b) && ascending rest
  | _ => true
  end.

(** Row i is the one the linear scan stops at: it accepts RBR and no
    earlier row does. *)
Definition first_match (RBR : float) (rows : list Threshold) (i : nat) : Prop :=
  (exists row, nth_error rows i = Some row /\ (RBR <=? max row) = true) /\
  forall j row, (j < i)%nat -> nth_error rows j = Some row -> (RBR <=? max row) = false.

(** Row i accepts RBR and the row before it, if any, lies below RBR: RBR
    falls in the band that ends at row i. *)
Definition in_band (RBR : float) (rows : list Threshold) (i : nat) : Prop :=
  (exists row, nth_error rows i = Some row /\ (RBR <=? max row) = true) /\
  match i with
  | O => True
  | S j => exists prev, nth_error rows j = Some prev /\ (max prev <? RBR) = true
  end.

(** ** Windows of a sequence *)

(** The elements at positions a, ..., b of a sequence (none when b < a). *)
Definition slice (dataset : list float) (a b : Z) : list float :=
  firstn (Z.to_nat (b - a + 1)) (skipn (Z.to_nat a) dataset).

(** The part of the sequence within [half] positions of i: the window
    truncated at the bounds of the sequence. *)
Definition window (dataset : list float) (half i : Z) : list float :=
  slice dataset (Z.max 0 (i - half)) (Z.min (Z.of_nat (length dataset) - 1) (i + half)).

(** The arithmetic mean, summing from the left. *)
Definition mean (l : list float) : float :=
  fold_left PrimFloat.add l 0 / JS.of_Z (Z.of_nat (length l)).

(** ** Scenes *)

(** Ascending order of [dateFrom], both dates valid. *)
Definition date_order (a b : Orbit) : Prop :=
  date_le (dateFrom a) (dateFrom b) = true.

Definition valid_from (o : Orbit) : Prop := exists t, dateFrom o = Some t.

(** The scenes that start at time t. *)
Definition starts_at (t : Z) (o : Orbit) : bool :=
  match dateFrom o with
  | Some x => (x =? t)%Z
  | None => false
  end.

(** The retained scenes, in catalogue order and in sorted order. *)
Definition retained (st : Store) : list Orbit := filter in_period (orbits st).
Definition retained_sorted (st : Store) : list Orbit := array_sort (retained st).

(** A catalogue held in one array, as the platform passes it. *)
Definition catalogue (l : list Orbit) : Store :=
  {| arrays := [l]; scenes_orbits := 0%nat |}.

(** The orbit of the n-th of January 2025: from midnight to the last
    millisecond of the day. *)
Definition januaryOrbit (n : Z) : Orbit :=
  {| dateFrom := Some (1735689600000 + (n - 1) * 86400000)%Z;
     dateTo := Some (1735689600000 + n * 86400000 - 1)%Z;
     tiles := Z.to_nat n |}.

(** ** Rounding in binary64 *)

(** The binary64 value of a positive integer below 2^53: the mantissa
    shifted to 53 digits. *)
Definition normal_form (s : bool) (p : positive) : spec_float :=
  match (53 - Zpos (digits2_pos p))%Z with
  | Zpos k => S754_finite s (Pos.iter xO p k) (Zneg k)
  | _ => S754_finite s p 0%Z
  end.

(** The record after k right shifts of M: the quotient, the last bit
    shifted out and whether anything below it was lost. *)
Definition shifted (M : Z) (k : nat) : shr_record :=
  match k with
  | O => {| shr_m := M; shr_r := false; shr_s := false |}
  | S j => {| shr_m := (M / 2 ^ Z.of_nat k)%Z;
              shr_r := Z.odd (M / 2 ^ Z.of_nat j)%Z;
              shr_s := negb (M mod 2 ^ Z.of_nat j =? 0)%Z |}
  end.

(** M / 2^n rounded to the nearest integer, ties to the even one. *)
Definition nearest_even (M n : Z) : Z :=
  let q := (M / 2 ^ n)%Z in
  match (2 * (M mod 2 ^ n) ?= 2 ^ n)%Z with
  | Lt => q
  | Eq => if Z.even q then q else (q + 1)%Z
  | Gt => (q + 1)%Z
  end.

(** The exponent a positive number M * 2^E is rounded at. *)
Definition round_exponent (M : positive) (E : Z) : Z :=
  Z.max (Zpos (digits2_pos M) + E - 53) (-1074)%Z.

(** The float with mantissa N at exponent e, renormalized when rounding
    carried into the next binade. *)
Definition encode (N e : Z) : spec_float :=
  match N with
  | Z0 => S754_zero false
  | Zpos p =>
      if (N =? 2 ^ 53)%Z then S754_finite false (Pos.div2 p) (e + 1)%Z
      else S754_finite false p e
  | Zneg _ => S754_nan
  end.

(** ** Classification and painting *)

(** The base alpha the classifier assigns to a ratio. *)
Definition baseAlpha (RBR : float) : float := scan_thresholds RBR thresholds 0.

(** The pixel painted for a ratio: its colour and its alpha. *)
Definition paint (RBR : float) : list float :=
  getHeatmapColor RBR ++ [adjustTransparency (scan_thresholds RBR thresholds 0)].

(** The alpha channel of a pixel. *)
Definition alphaChannel (out : list float) : float := nth 3 out nan.

(** The five opacity levels. *)
Definition alphaLevels : list float := [0; 0.3 * 0.3; 0.25; 0.7 * 0.7; 1].

(** Neither sample of the pair is of an excluded class. *)
Definition unmasked (a b : Sample) : Prop :=
  JS.includes excludedClasses (SCL a) || JS.includes excludedClasses (SCL b) = false.

(** A sample with a NaN reflectance. *)
Definition nan_band (s : Sample) : bool := is_nan (B08 s) || is_nan (B12 s).

(** ** Selected scenes *)

(** The first and the last element of a list of two or more; a shorter
    list as it is. *)
Definition ends {A} (l : list A) : list A :=
  match l with
  | first :: second :: rest => [first; last (second :: rest) second]
  | _ => l
  end.

(** The time a scene starts at (0 for an invalid date). *)
Definition startTime (o : Orbit) : Z :=
  match dateFrom o with
  | Some t => t
  | None => 0%Z
  end.

(** ** Signs and overflow in binary64 *)

(** A float whose exponent passed the largest one overflows to infinity. *)
Definition overflow (f : spec_float) : spec_float :=
  match f with
  | S754_finite s m e => if (e <=? 971)%Z then f else S754_infinity s
  | _ => f
  end.

(** Zero or below: a zero of either sign, a negative number or -infinity. *)
Definition nonpositive (f : spec_float) : bool :=
  match f with
  | S754_zero _ => true
  | S754_infinity s => s
  | S754_finite s _ _ => s
  | S754_nan => false
  end.

(** A zero, a number or an infinity of sign [s]. *)
Definition signed (s : bool) (f : spec_float) : Prop :=
  match f with
  | S754_zero s' | S754_infinity s' | S754_finite s' _ _ => s' = s
  | S754_nan => False
  end.

(** ** Colour channels *)

(** The channel [Math.min(255, Math.max(0, Math.round(p)))] as an integer. *)
Definition roundedChannel (p : spec_float) : Z :=
  match p with
  | S754_finite false m e =>
      if (0 <=? e)%Z then 255%Z
      else Z.min 255 ((2 * Zpos m + 2 ^ (- e)) / 2 ^ (1 - e))
  | S754_infinity false => 255%Z
  | _ => 0%Z
  end.

(** The integers 0, ..., 255. *)
Definition levels : list Z := map Z.of_nat (seq 0 256).

(** The red and the green channel of a colour. *)
Definition redChannel (colour : list float) : float := nth 0 colour nan.
Definition greenChannel (colour : list float) : float := nth 1 colour nan.

(** * Verification *)

(** ** The pixel evaluator on masked input and on the worked example *)

Lemma pixelRBR_unfold (firstSample lastSample : Sample) :
  pixelRBR firstSample lastSample =
  calculateRBR (smoothedNBR firstSample - smoothedNBR lastSample)
               (smoothedNBR firstSample).
Proof. reflexivity. Qed.

Lemma includes_In (a : list Z) (x : Z) : JS.includes a x = true <-> In x a.
Proof.
  unfold JS.includes. rewrite existsb_exists. split.
  - intros [y [Hy Heq]]. apply Z.eqb_eq in Heq. now subst.
  - intros H. exists x. split; [assumption | apply Z.eqb_refl].
Qed.

Lemma evaluatePixel_pair (a b : Sample) :
  evaluatePixel [a; b] =
  if JS.includes excludedClasses (SCL a) || JS.includes excludedClasses (SCL b)
  then [0; 0; 0; 0]
  else getHeatmapColor (pixelRBR a b)
       ++ [adjustTransparency (scan_thresholds (pixelRBR a b) thresholds 0)].
Proof. reflexivity. Qed.

(** Every pixel has as many channels as [setup] declares output bands. *)
Lemma evaluatePixel_length (samples : list Sample) :
  length (evaluatePixel samples) = output_bands setup.
Proof.
  destruct samples as [| a [| b [| c rest]]]; try reflexivity.
  rewrite evaluatePixel_pair.
  destruct (JS.includes excludedClasses (SCL a) || JS.includes excludedClasses (SCL b));
    reflexivity.
Qed.

(** [setup] requests the band that [evaluatePixel] never reads. *)
Lemma setup_requests_dataMask : In "dataMask"%string (input_bands setup).
Proof. cbn. tauto. Qed.

(** C1. On the worked example (pre-fire NIR 0.5, SWIR 0.1; post-fire NIR 0.2,
    SWIR 0.3; neither sample masked) the pre-fire index is 0.667 and the
    post-fire index -0.2 to three decimals, their difference is 0.867, the
    relativized ratio is that difference over the square root of the pre-fire
    index and lies within 0.001 of 1.062, above the 0.66 boundary; the base
    alpha is 1.0, the adjusted alpha 1.0, and the pixel is (255, 0, 0, 1). *)
Theorem evaluatePixel_worked_example (scl1 scl2 mask1 mask2 : Z) :
  JS.includes excludedClasses scl1 = false ->
  JS.includes excludedClasses scl2 = false ->
  let pre := {| B08 := 0.5; B12 := 0.1; SCL := scl1; dataMask := mask1 |} in
  let post := {| B08 := 0.2; B12 := 0.3; SCL := scl2; dataMask := mask2 |} in
  within 0.0005 (smoothedNBR pre) 0.667 = true /\
  within 0.0005 (smoothedNBR post) (-0.2) = true /\
  within 0.0005 (smoothedNBR pre - smoothedNBR post) 0.867 = true /\
  pixelRBR pre post
    = (smoothedNBR pre - smoothedNBR post) / PrimFloat.sqrt (smoothedNBR pre) /\
  within 0.001 (pixelRBR pre post) 1.062 = true /\
  (0.66 <? pixelRBR pre post) = true /\
  getHeatmapColor (pixelRBR pre post) = [255; 0; 0] /\
  scan_thresholds (pixelRBR pre post) thresholds 0 = 1 /\
  adjustTransparency 1 = 1 /\
  evaluatePixel [pre; post] = [255; 0; 0; 1].
Proof.
  intros H1 H2 pre post.
  repeat split; try (vm_compute; reflexivity).
  rewrite evaluatePixel_pair. cbn [SCL pre post].
  rewrite H1, H2. vm_compute. reflexivity.
Qed.

Lemma evaluatePixel_worked_example_witness :
  evaluatePixel
    [ {| B08 := 0.5; B12 := 0.1; SCL := 4; dataMask := 1 |};
      {| B08 := 0.2; B12 := 0.3; SCL := 5; dataMask := 1 |} ] = [255; 0; 0; 1].
Proof.
  apply (evaluatePixel_worked_example 4 5 1 1); reflexivity.
Defined.

(** C2. Whenever the sample count is not two, or either of the two samples
    has its SCL code in {0,1,3,6,7,8,9,10,11}, the pixel is exactly
    (0,0,0,0), whatever the band values are. *)
Theorem evaluatePixel_masked (samples : list Sample) :
  masked samples -> evaluatePixel samples = [0; 0; 0; 0].
Proof.
  intros [Hlen | [a [b [-> Hscl]]]].
  - destruct samples as [| x [| y [| z rest]]]; try reflexivity.
    now elim Hlen.
  - rewrite evaluatePixel_pair.
    replace (JS.includes excludedClasses (SCL a) || JS.includes excludedClasses (SCL b))
      with true; [reflexivity |].
    symmetry. apply orb_true_iff.
    destruct Hscl as [H | H]; [left | right]; apply includes_In; exact H.
Qed.

Lemma evaluatePixel_masked_witness :
  evaluatePixel [] = [0; 0; 0; 0] /\
  evaluatePixel
    [ {| B08 := 0.5; B12 := 0.1; SCL := 4; dataMask := 1 |};
      {| B08 := nan; B12 := infinity; SCL := 9; dataMask := 1 |} ] = [0; 0; 0; 0].
Proof.
  split; apply evaluatePixel_masked.
  - left. discriminate.
  - right. eexists _, _. split; [reflexivity |]. right. cbn. tauto.
Defined.

(** C10. The pixel does not depend on [dataMask]: sample lists of equal
    length that agree on B08, B12 and SCL give the same pixel. *)
Theorem evaluatePixel_ignores_dataMask (l1 l2 : list Sample) :
  Forall2 same_bands l1 l2 -> evaluatePixel l1 = evaluatePixel l2.
Proof.
  intros H.
  assert (Hlen : length l1 = length l2) by (eapply Forall2_length; eassumption).
  destruct H as [| a b l1 l2 Hab H]; [reflexivity |].
  destruct H as [| a' b' l1 l2 Hab' H];
    [reflexivity |].
  destruct H as [| a'' b'' l1 l2 _ _].
  - rewrite !evaluatePixel_pair.
    destruct Hab as (Hn & Hs & Hc), Hab' as (Hn' & Hs' & Hc').
    unfold pixelRBR. now rewrite Hn, Hs, Hc, Hn', Hs', Hc'.
  - reflexivity.
Qed.

Lemma evaluatePixel_ignores_dataMask_witness :
  evaluatePixel
    [ {| B08 := 0.5; B12 := 0.1; SCL := 4; dataMask := 1 |};
      {| B08 := 0.2; B12 := 0.3; SCL := 4; dataMask := 1 |} ] =
  evaluatePixel
    [ {| B08 := 0.5; B12 := 0.1; SCL := 4; dataMask := 0 |};
      {| B08 := 0.2; B12 := 0.3; SCL := 4; dataMask := 7 |} ].
Proof.
  apply evaluatePixel_ignores_dataMask.
  repeat constructor.
Defined.

(** ** The scene selector *)

Lemma in_period_valid (o : Orbit) : in_period o = true -> valid_from o.
Proof.
  unfold in_period, valid_from, date_ge. intros H.
  apply andb_true_iff in H. destruct H as [H _].
  destruct (dateFrom o) as [t |]; [now exists t | discriminate].
Qed.

Lemma retained_valid (st : Store) : Forall valid_from (retained st).
Proof.
  apply Forall_forall. intros o Ho.
  apply filter_In in Ho. apply in_period_valid. tauto.
Qed.

Lemma sorts_after_false (a b : Orbit) :
  valid_from a -> valid_from b -> sorts_after a b = false -> date_order a b.
Proof.
  unfold valid_from, sorts_after, compareFn, date_order, date_minus, date_le.
  intros [x ->] [y ->] H. apply Z.ltb_ge in H. apply Z.leb_le. lia.
Qed.

Lemma sorts_after_true (a b : Orbit) :
  sorts_after a b = true -> date_order b a.
Proof.
  unfold sorts_after, compareFn, date_order, date_minus, date_le.
  destruct (dateFrom a) as [x |], (dateFrom b) as [y |]; try discriminate.
  intros H. apply Z.ltb_lt in H. apply Z.leb_le. lia.
Qed.

Lemma date_order_trans (a b c : Orbit) :
  date_order a b -> date_order b c -> date_order a c.
Proof.
  unfold date_order, date_le.
  destruct (dateFrom a), (dateFrom b), (dateFrom c); try discriminate.
  rewrite !Z.leb_le. lia.
Qed.

Lemma sort_insert_perm (a : Orbit) (l : list Orbit) :
  Permutation (a :: l) (sort_insert a l).
Proof.
  induction l as [| b l IH]; cbn; [reflexivity |].
  destruct (sorts_after a b); [| reflexivity].
  rewrite perm_swap. now apply perm_skip.
Qed.

Lemma array_sort_perm (l : list Orbit) : Permutation l (array_sort l).
Proof.
  induction l as [| a l IH]; cbn; [reflexivity |].
  rewrite <- sort_insert_perm. now apply perm_skip.
Qed.

Lemma sort_insert_sorted (a : Orbit) (l : list Orbit) :
  valid_from a -> Forall valid_from l ->
  StronglySorted date_order l -> StronglySorted date_order (sort_insert a l).
Proof.
  intros Ha Hl Hs. induction Hs as [| b l Hs IH Hb]; cbn.
  - repeat constructor.
  - inversion Hl as [| ? ? Hvb Hvl]; subst.
    destruct (sorts_after a b) eqn:E.
    + constructor; [now apply IH |].
      apply (Permutation_Forall (sort_insert_perm a l)).
      constructor; [now apply sorts_after_true | assumption].
    + assert (Hab : date_order a b) by now apply sorts_after_false.
      constructor; [now constructor |].
      constructor; [assumption |].
      eapply Forall_impl; [| exact Hb].
      intros c Hc. eapply date_order_trans; eassumption.
Qed.

Lemma array_sort_sorted (l : list Orbit) :
  Forall valid_from l -> StronglySorted date_order (array_sort l).
Proof.
  induction l as [| a l IH]; cbn; intros H; [constructor |].
  inversion H; subst.
  apply sort_insert_sorted; auto.
  apply (Permutation_Forall (array_sort_perm l)). assumption.
Qed.

(** The sort is stable: scenes with the same [dateFrom] keep the order
    they had in the catalogue. *)
Lemma sort_insert_stable (t : Z) (a : Orbit) (l : list Orbit) :
  filter (starts_at t) (sort_insert a l) = filter (starts_at t) (a :: l).
Proof.
  induction l as [| b l IH]; [reflexivity |].
  cbn [sort_insert]. destruct (sorts_after a b) eqn:E; [| reflexivity].
  cbn [filter] in *. rewrite IH.
  unfold sorts_after, compareFn, date_minus in E. unfold starts_at.
  destruct (dateFrom a) as [x |], (dateFrom b) as [y |]; try discriminate.
  apply Z.ltb_lt in E.
  destruct (Z.eqb_spec x t), (Z.eqb_spec y t); try reflexivity. lia.
Qed.

Lemma array_sort_stable (t : Z) (l : list Orbit) :
  filter (starts_at t) (array_sort l) = filter (starts_at t) l.
Proof.
  induction l as [| a l IH]; [reflexivity |].
  cbn [array_sort fold_right]. fold (array_sort l).
  rewrite sort_insert_stable. cbn [filter]. now rewrite IH.
Qed.

Lemma last_cons {A} (l : list A) (a b : A) : last (b :: l) a = last l b.
Proof.
  revert a b. induction l as [| c l IH]; intros a b; [reflexivity |].
  change (last (b :: c :: l) a) with (last (c :: l) a).
  now rewrite !IH.
Qed.

Lemma last_In {A} (l : list A) (a : A) : In (last l a) (a :: l).
Proof.
  revert a. induction l as [| b l IH]; intros a; [now left |].
  rewrite last_cons. right. apply IH.
Qed.

Lemma strongly_sorted_last (l : list Orbit) (a o : Orbit) :
  StronglySorted date_order (a :: l) -> In o (a :: l) ->
  o = last l a \/ date_order o (last l a).
Proof.
  revert a o. induction l as [| b l IH]; intros a o Hs Ho.
  - left. destruct Ho as [-> | []]. reflexivity.
  - inversion Hs as [| ? ? Hs' Ha]; subst.
    rewrite last_cons.
    destruct Ho as [<- | Ho].
    + right. rewrite Forall_forall in Ha. apply Ha. apply last_In.
    + apply IH; assumption.
Qed.

Lemma list_update_end {A} (l : list A) (x y : A) :
  list_update (l ++ [x]) (length l) y = l ++ [y].
Proof. induction l as [| a l IH]; cbn; [reflexivity | now rewrite IH]. Qed.

Lemma orbits_fresh (l : list (list Orbit)) (x : list Orbit) :
  orbits {| arrays := l ++ [x]; scenes_orbits := length l |} = x.
Proof. unfold orbits, deref. cbn [arrays scenes_orbits]. apply nth_middle. Qed.

(** The store and the result of [preProcessScenes]: two arrays are
    allocated, the retained scenes (sorted in place) and either the selected
    pair or the empty array that is returned. *)
Lemma preProcessScenes_store (st : Store) :
  preProcessScenes st =
  match retained_sorted st with
  | first :: second :: rest =>
      ({| arrays := arrays st ++ [retained_sorted st; [first; last (second :: rest) second]];
          scenes_orbits := S (length (arrays st)) |}, RetCollections)
  | _ =>
      ({| arrays := arrays st ++ [retained_sorted st; []];
          scenes_orbits := length (arrays st) |}, RetArray (S (length (arrays st))))
  end.
Proof.
  unfold preProcessScenes, retained_sorted, retained, alloc, set_orbits, write.
  cbn [arrays scenes_orbits].
  rewrite orbits_fresh, list_update_end, orbits_fresh.
  destruct (array_sort (filter in_period (orbits st))) as [| first [| second rest]];
    cbn [arrays scenes_orbits length]; rewrite ?length_app, <- ?app_assoc; cbn;
    rewrite ?Nat.add_1_r; reflexivity.
Qed.

Lemma orbits_after (st : Store) :
  orbits (fst (preProcessScenes st)) =
  match retained_sorted st with
  | first :: second :: rest => [first; last (second :: rest) second]
  | _ => retained_sorted st
  end.
Proof.
  rewrite preProcessScenes_store. unfold orbits, deref.
  destruct (retained_sorted st) as [| first [| second rest]]; cbn [fst arrays scenes_orbits].
  - apply nth_middle.
  - apply nth_middle.
  - replace (arrays st ++ [first :: second :: rest; [first; last (second :: rest) second]])
      with ((arrays st ++ [first :: second :: rest]) ++ [[first; last (second :: rest) second]])
      by now rewrite <- app_assoc.
    replace (S (length (arrays st))) with (length (arrays st ++ [first :: second :: rest]))
      by (rewrite length_app; cbn; lia).
    apply nth_middle.
Qed.

Lemma date_order_refl (o : Orbit) : valid_from o -> date_order o o.
Proof.
  intros [t H]. unfold date_order, date_le. rewrite H. apply Z.leb_refl.
Qed.

(** C5. The scene selector retains exactly the scenes with
    dateFrom >= fromDate and dateTo <= toDate, puts them in ascending order
    of dateFrom, returns an empty array when fewer than two remain and
    otherwise leaves exactly the first (earliest) and the last (latest) of
    them in the collection; orbits of 2, 5, 10 and 20 January with the
    window 1 to 13 January retain 2, 5, 10 and select 2 and 10. *)
Theorem preProcessScenes_selects (st : Store) :
  let st' := fst (preProcessScenes st) in
  (forall o, In o (retained st) <->
             In o (orbits st) /\
             date_ge (dateFrom o) fromDate = true /\
             date_le (dateTo o) toDate = true) /\
  Permutation (retained st) (retained_sorted st) /\
  StronglySorted date_order (retained_sorted st) /\
  ((length (retained st) < 2)%nat ->
     exists r, snd (preProcessScenes st) = RetArray r /\ deref st' r = []) /\
  ((2 <= length (retained st))%nat ->
     snd (preProcessScenes st) = RetCollections /\
     exists first rest,
       retained_sorted st = first :: rest /\ rest <> [] /\
       orbits st' = [first; last rest first] /\
       forall o, In o (retained st) ->
                 date_order first o /\ date_order o (last rest first)) /\
  retained (catalogue (map januaryOrbit [2; 5; 10; 20]%Z))
    = map januaryOrbit [2; 5; 10]%Z /\
  preProcessScenes (catalogue (map januaryOrbit [2; 5; 10; 20]%Z))
    = ({| arrays := [ map januaryOrbit [2; 5; 10; 20]%Z;
                      map januaryOrbit [2; 5; 10]%Z;
                      map januaryOrbit [2; 10]%Z ];
          scenes_orbits := 2%nat |}, RetCollections).
Proof.
  intros st'.
  assert (Hperm := array_sort_perm (retained st)).
  assert (Hsort := array_sort_sorted _ (retained_valid st)).
  fold (retained_sorted st) in Hperm, Hsort.
  split; [| split; [exact Hperm | split; [exact Hsort | split; [| split; [| split]]]]].
  - intros o. unfold retained. rewrite filter_In. unfold in_period.
    rewrite andb_true_iff. tauto.
  - intros Hlen. rewrite (Permutation_length Hperm) in Hlen.
    subst st'. rewrite preProcessScenes_store.
    exists (S (length (arrays st))).
    destruct (retained_sorted st) as [| first [| second rest]];
      cbn [length] in Hlen; try lia; cbn [fst snd]; (split; [reflexivity |]);
      unfold deref; cbn [arrays];
      match goal with
      | |- nth _ (?l ++ [?x; ?y]) _ = _ =>
          replace (l ++ [x; y]) with ((l ++ [x]) ++ [y]) by (now rewrite <- app_assoc);
          replace (S (length l)) with (length (l ++ [x])) by (rewrite length_app; cbn; lia)
      end; apply nth_middle.
  - intros Hlen. rewrite (Permutation_length Hperm) in Hlen.
    subst st'. rewrite orbits_after, preProcessScenes_store.
    destruct (retained_sorted st) as [| first [| second rest]] eqn:E;
      cbn [length] in Hlen; try lia.
    split; [reflexivity |].
    exists first, (second :: rest).
    split; [reflexivity | split; [discriminate | split; [now rewrite !last_cons |]]].
    intros o Hin. split.
    + inversion Hsort as [| ? ? _ Hall]; subst.
      assert (Ho : In o (first :: second :: rest))
        by (eapply Permutation_in; eassumption).
      destruct Ho as [<- | Ho].
      * apply date_order_refl.
        pose proof (retained_valid st) as Hv. rewrite Forall_forall in Hv.
        apply Hv. eapply Permutation_in; [symmetry; exact Hperm | now left].
      * rewrite Forall_forall in Hall. now apply Hall.
    + assert (Ho : In o (first :: second :: rest))
        by (eapply Permutation_in; eassumption).
      destruct (strongly_sorted_last _ _ _ Hsort Ho) as [-> | Hlt]; [| exact Hlt].
      apply date_order_refl.
      pose proof (retained_valid st) as Hv. rewrite Forall_forall in Hv.
      apply Hv. eapply Permutation_in; [symmetry; exact Hperm |].
      apply last_In.
  - vm_compute. reflexivity.
  - vm_compute. reflexivity.
Qed.

Lemma preProcessScenes_selects_witness :
  snd (preProcessScenes (catalogue (map januaryOrbit [2; 5; 10; 20]%Z))) = RetCollections /\
  exists first rest,
    retained_sorted (catalogue (map januaryOrbit [2; 5; 10; 20]%Z)) = first :: rest /\
    rest <> [] /\
    orbits (fst (preProcessScenes (catalogue (map januaryOrbit [2; 5; 10; 20]%Z))))
      = [first; last rest first] /\
    forall o, In o (retained (catalogue (map januaryOrbit [2; 5; 10; 20]%Z))) ->
              date_order first o /\ date_order o (last rest first).
Proof.
  apply (preProcessScenes_selects (catalogue (map januaryOrbit [2; 5; 10; 20]%Z))).
  vm_compute. lia.
Defined.

(** C8, refuted as stated: on a catalogue whose only orbit lies outside the
    period the function returns a new empty array, and the collection it
    was given no longer holds that orbit. *)
Lemma preProcessScenes_rebinds_orbits :
  snd (preProcessScenes (catalogue [januaryOrbit 20])) = RetArray 2%nat /\
  orbits (catalogue [januaryOrbit 20]) = [januaryOrbit 20] /\
  orbits (fst (preProcessScenes (catalogue [januaryOrbit 20]))) = [] /\
  fst (preProcessScenes (catalogue [januaryOrbit 20])) <> catalogue [januaryOrbit 20].
Proof.
  repeat split; try (vm_compute; reflexivity).
  vm_compute. discriminate.
Qed.

(** C8, amended. [preProcessScenes] leaves every array object that existed
    before the call as it was, the one [collections.scenes.orbits] referred
    to included, and assigns to [collections.scenes.orbits]: afterwards it
    refers to a new array, which holds the retained scenes in ascending
    order when fewer than two were retained and the selected pair
    otherwise. *)
Theorem preProcessScenes_effect (st : Store) :
  let st' := fst (preProcessScenes st) in
  firstn (length (arrays st)) (arrays st') = arrays st /\
  (length (arrays st) <= scenes_orbits st')%nat /\
  orbits st' =
    match retained_sorted st with
    | first :: second :: rest => [first; last (second :: rest) second]
    | _ => retained_sorted st
    end.
Proof.
  intros st'. subst st'. split; [| split; [| apply orbits_after]];
    rewrite preProcessScenes_store;
    destruct (retained_sorted st) as [| first [| second rest]]; cbn [fst arrays scenes_orbits];
    try lia; rewrite firstn_app, firstn_all, Nat.sub_diag; cbn; apply app_nil_r.
Qed.

(** ** Facts about binary64 numbers *)

Module Binary64.

#[local] Open Scope Z_scope.

Lemma digits2_pos_bounds (p : positive) :
  2 ^ (Zpos (digits2_pos p) - 1) <= Zpos p < 2 ^ Zpos (digits2_pos p).
Proof.
  induction p as [p IH | p IH |]; cbn [digits2_pos].
  - rewrite Pos2Z.inj_succ.
    replace (Z.succ (Zpos (digits2_pos p)) - 1) with (Z.succ (Zpos (digits2_pos p) - 1)) by lia.
    rewrite !Z.pow_succ_r by lia. lia.
  - rewrite Pos2Z.inj_succ.
    replace (Z.succ (Zpos (digits2_pos p)) - 1) with (Z.succ (Zpos (digits2_pos p) - 1)) by lia.
    rewrite !Z.pow_succ_r by lia. lia.
  - cbn. lia.
Qed.

Lemma digits2_pos_unique (p : positive) (d : Z) :
  2 ^ (d - 1) <= Zpos p < 2 ^ d -> Zpos (digits2_pos p) = d.
Proof.
  intros [Hlo Hhi]. pose proof (digits2_pos_bounds p) as [Blo Bhi].
  assert (0 < d) by (destruct d; cbn in Hhi; lia).
  destruct (Z.lt_trichotomy (Zpos (digits2_pos p)) d) as [Hlt | [Heq | Hgt]];
    [exfalso | exact Heq | exfalso].
  - assert (2 ^ Zpos (digits2_pos p) <= 2 ^ (d - 1)) by (apply Z.pow_le_mono_r; lia). lia.
  - assert (2 ^ d <= 2 ^ (Zpos (digits2_pos p) - 1)) by (apply Z.pow_le_mono_r; lia). lia.
Qed.

Lemma iter_xO_value (p d : positive) : Zpos (Pos.iter xO p d) = Zpos p * 2 ^ Zpos d.
Proof.
  induction d as [| d IH] using Pos.peano_ind.
  - cbn. lia.
  - rewrite Pos.iter_succ, Pos2Z.inj_succ, Z.pow_succ_r by lia.
    rewrite Pos2Z.inj_xO, IH. lia.
Qed.

Lemma iter_xO_digits (p d : positive) :
  digits2_pos (Pos.iter xO p d) = (digits2_pos p + d)%positive.
Proof.
  induction d as [| d IH] using Pos.peano_ind.
  - cbn. lia.
  - rewrite Pos.iter_succ. cbn [digits2_pos]. rewrite IH. lia.
Qed.

Lemma round_aligned (s : bool) (m : positive) (e : Z) :
  Zpos (digits2_pos m) = 53 -> -1074 <= e <= 971 ->
  binary_round_aux prec emax s (Zpos m) e loc_Exact = S754_finite s m e.
Proof.
  intros Hd He.
  unfold binary_round_aux, shr_fexp, Zdigits2, shr_record_of_loc, fexp, SpecFloat.emin.
  rewrite Hd. unfold prec, emax.
  replace (Z.max (53 + e - 53) (3 - 1024 - 53) - e) with 0 by lia.
  cbn [shr loc_of_shr_record shr_m round_nearest_even Zdigits2].
  rewrite Hd.
  replace (Z.max (53 + e - 53) (3 - 1024 - 53) - e) with 0 by lia.
  cbn [shr shr_m].
  replace (e <=? 1024 - 53) with true by (symmetry; apply Z.leb_le; lia).
  reflexivity.
Qed.

Lemma normalize_pos (s : bool) (p : positive) :
  Zpos (digits2_pos p) <= 53 ->
  binary_round prec emax s p 0 = normal_form s p.
Proof.
  intros Hd. unfold binary_round, shl_align, normal_form, fexp, SpecFloat.emin, prec, emax.
  replace (Z.max (Zpos (digits2_pos p) + 0 - 53) (3 - 1024 - 53) - 0)
    with (- (53 - Zpos (digits2_pos p))) by lia.
  destruct (53 - Zpos (digits2_pos p)) as [| k | k] eqn:E; cbn [Z.opp].
  - apply round_aligned; lia.
  - replace (Z.max (Zpos (digits2_pos p) + 0 - 53) (3 - 1024 - 53)) with (Zneg k) by lia.
    apply round_aligned; [| lia].
    rewrite iter_xO_digits. lia.
  - lia.
Qed.

Lemma of_uint63_pos (p : positive) :
  Zpos (digits2_pos p) <= 53 ->
  Prim2SF (of_uint63 (Uint63.of_Z (Zpos p))) = normal_form false p.
Proof.
  intros Hd. rewrite of_uint63_spec, Uint63.of_Z_spec.
  pose proof (digits2_pos_bounds p) as [_ Hhi].
  assert (2 ^ Zpos (digits2_pos p) <= 2 ^ 53) by (apply Z.pow_le_mono_r; lia).
  rewrite Z.mod_small by (change Uint63Axioms.wB with (2 ^ 63); lia).
  cbn [binary_normalize]. now apply normalize_pos.
Qed.

(** *** Order *)

Lemma SFcompare_antisym (x y : spec_float) :
  SFcompare y x = option_map CompOpp (SFcompare x y).
Proof.
  destruct x as [sx | sx | | sx mx ex], y as [sy | sy | | sy my ey];
    try destruct sx; try destruct sy; cbn; try reflexivity;
    rewrite (Z.compare_antisym ey ex); destruct (ey ?= ex); cbn; try reflexivity;
    change (Pos.compare_cont Eq my mx) with (Pos.compare my mx);
    change (Pos.compare_cont Eq mx my) with (Pos.compare mx my);
    rewrite (Pos.compare_antisym my mx); destruct (my ?= mx)%positive; reflexivity.
Qed.

Lemma SFcompare_refl (x : spec_float) :
  x <> S754_nan -> SFcompare x x = Some Eq.
Proof.
  destruct x as [s | s | | s m e]; try destruct s; cbn; try reflexivity;
    try (intros H; now elim H); intros _;
    rewrite Z.compare_refl, Pos.compare_cont_refl; reflexivity.
Qed.

Lemma is_nan_SF (x : float) :
  is_nan x = match Prim2SF x with S754_nan => true | _ => false end.
Proof.
  unfold is_nan. rewrite eqb_spec. unfold SFeqb.
  destruct (Prim2SF x) eqn:E; try reflexivity;
    rewrite SFcompare_refl by discriminate; reflexivity.
Qed.

Lemma ltb_asym (x y : float) : (x <? y)%float = true -> (y <? x)%float = false.
Proof.
  rewrite !ltb_spec. unfold SFltb.
  rewrite (SFcompare_antisym (Prim2SF x) (Prim2SF y)).
  destruct (SFcompare (Prim2SF x) (Prim2SF y)) as [[| |] |]; cbn; congruence.
Qed.

(** Two numbers neither of which is below the other are the same number
    when one of them is finite and not zero. *)
Lemma not_ltb_eq (x y : float) (s : bool) (m : positive) (e : Z) :
  Prim2SF y = S754_finite s m e -> is_nan x = false ->
  (x <? y)%float = false -> (y <? x)%float = false -> x = y.
Proof.
  intros Hy Hx. rewrite is_nan_SF in Hx. rewrite !ltb_spec. unfold SFltb.
  rewrite (SFcompare_antisym (Prim2SF x) (Prim2SF y)), Hy.
  intros H1 H2. apply Prim2SF_inj. rewrite Hy.
  destruct (Prim2SF x) as [sx | sx | | sx mx ex]; try discriminate;
    try (destruct s, sx; discriminate).
  cbn in H1, H2.
  destruct sx, s; try discriminate;
    destruct (Z.compare_spec ex e) as [-> | |]; try discriminate;
    change (Pos.compare_cont Eq mx m) with (Pos.compare mx m) in *;
    destruct (Pos.compare_spec mx m) as [-> | |]; try discriminate; reflexivity.
Qed.

(** *** Rounding never invents a NaN *)

Lemma iter_pos_invariant {A} (f : A -> A) (P : A -> Prop) :
  (forall x, P x -> P (f x)) -> forall n x, P x -> P (iter_pos f n x).
Proof.
  intros Hf. induction n as [n IH | n IH |]; intros x Hx; cbn; auto.
Qed.

Lemma shr_1_nonneg (mrs : shr_record) : 0 <= shr_m mrs -> 0 <= shr_m (shr_1 mrs).
Proof.
  destruct mrs as [m r s]. cbn [shr_m]. intros H.
  destruct m as [| [p | p |] | p]; cbn; lia.
Qed.

Lemma shr_nonneg (mrs : shr_record) (e n : Z) :
  0 <= shr_m mrs -> 0 <= shr_m (fst (shr mrs e n)).
Proof.
  intros H. destruct n; cbn [shr fst]; try assumption.
  apply iter_pos_invariant; [apply shr_1_nonneg | assumption].
Qed.

Lemma shr_fexp_nonneg (m e : Z) (l : location) :
  0 <= m -> 0 <= shr_m (fst (shr_fexp prec emax m e l)).
Proof.
  intros H. unfold shr_fexp. apply shr_nonneg.
  destruct l as [| []]; exact H.
Qed.

Lemma round_nearest_even_nonneg (m : Z) (l : location) :
  0 <= m -> 0 <= round_nearest_even m l.
Proof.
  intros H. destruct l as [| []]; cbn; try lia. destruct (Z.even m); lia.
Qed.

Lemma binary_round_aux_not_nan (s : bool) (m e : Z) (l : location) :
  0 <= m -> binary_round_aux prec emax s m e l <> S754_nan.
Proof.
  intros H. unfold binary_round_aux.
  pose proof (shr_fexp_nonneg m e l H) as H1.
  destruct (shr_fexp prec emax m e l) as [mrs' e'].
  cbn [fst] in H1.
  pose proof (shr_fexp_nonneg _ e' loc_Exact
                (round_nearest_even_nonneg _ (loc_of_shr_record mrs') H1)) as H2.
  destruct (shr_fexp prec emax _ e' loc_Exact) as [mrs'' e''].
  cbn [fst] in H2.
  destruct (shr_m mrs''); [discriminate | | lia].
  destruct (e'' <=? emax - prec); discriminate.
Qed.

Lemma binary_normalize_not_nan (m e : Z) (sz : bool) :
  binary_normalize prec emax m e sz <> S754_nan.
Proof.
  destruct m; cbn [binary_normalize]; [discriminate | |];
    unfold binary_round; destruct (shl_align _ _ _);
    apply binary_round_aux_not_nan; lia.
Qed.

(** Multiplying a number by a finite non-zero constant, or subtracting it
    from a finite constant, gives a number. *)
Lemma mul_finite_not_nan (x c : float) (s : bool) (m : positive) (e : Z) :
  Prim2SF c = S754_finite s m e -> is_nan x = false -> is_nan (x * c)%float = false.
Proof.
  intros Hc. rewrite !is_nan_SF, mul_spec, Hc. unfold SF64mul.
  destruct (Prim2SF x) as [sx | sx | | sx mx ex]; try reflexivity; try discriminate.
  intros _. cbn [SFmul].
  pose proof (binary_round_aux_not_nan (xorb sx s) (Zpos (mx * m)) (ex + e) loc_Exact) as H.
  destruct (binary_round_aux _ _ _ _ _ _); try reflexivity. now elim H.
Qed.

Lemma finite_sub_not_nan (x c : float) (s : bool) (m : positive) (e : Z) :
  Prim2SF c = S754_finite s m e -> is_nan x = false -> is_nan (c - x)%float = false.
Proof.
  intros Hc. rewrite !is_nan_SF, sub_spec, Hc. unfold SF64sub.
  destruct (Prim2SF x) as [sx | sx | | sx mx ex]; try reflexivity; try discriminate.
  intros _. cbn [SFsub].
  match goal with |- context [binary_normalize ?p ?q ?a ?b ?c] =>
    pose proof (binary_normalize_not_nan a b c) as H;
    destruct (binary_normalize p q a b c); try reflexivity; now elim H
  end.
Qed.

(** *** Integers as binary64 numbers *)

Lemma small_digits (p : positive) : Zpos p < 2 ^ 53 -> Zpos (digits2_pos p) <= 53.
Proof.
  intros H. pose proof (digits2_pos_bounds p) as [Hlo _].
  destruct (Z.le_gt_cases (Zpos (digits2_pos p)) 53) as [Hle | Hgt]; [exact Hle |].
  assert (2 ^ 53 <= 2 ^ (Zpos (digits2_pos p) - 1)) by (apply Z.pow_le_mono_r; lia).
  lia.
Qed.

Lemma of_Z_pos (p : positive) :
  Zpos p < 2 ^ 53 -> Prim2SF (JS.of_Z (Zpos p)) = normal_form false p.
Proof. intros H. cbn [JS.of_Z]. apply of_uint63_pos, small_digits, H. Qed.

Lemma of_Z_neg (p : positive) :
  Zpos p < 2 ^ 53 -> Prim2SF (JS.of_Z (Zneg p)) = normal_form true p.
Proof.
  intros H. cbn [JS.of_Z]. rewrite opp_spec, of_uint63_pos by now apply small_digits.
  unfold normal_form. destruct (53 - Zpos (digits2_pos p)); reflexivity.
Qed.

Lemma normal_form_not_nan (s : bool) (p : positive) : normal_form s p <> S754_nan.
Proof. unfold normal_form. destruct (53 - Zpos (digits2_pos p)); discriminate. Qed.

Lemma valid_digits (s : bool) (m : positive) (e : Z) :
  valid_binary (S754_finite s m e) = true -> Zpos m < 2 ^ 53.
Proof.
  cbn. unfold bounded, canonical_mantissa, fexp, SpecFloat.emin, prec, emax.
  intros H. apply andb_true_iff in H. destruct H as [H _]. apply Z.eqb_eq in H.
  pose proof (digits2_pos_bounds m) as [_ Hhi].
  assert (2 ^ Zpos (digits2_pos m) <= 2 ^ 53) by (apply Z.pow_le_mono_r; lia).
  lia.
Qed.

(** The integer [Math.round] computes from a fraction stays below 2^53. *)
Lemma round_integer_bound (v e : Z) :
  - 2 ^ 53 < v < 2 ^ 53 -> e < 0 ->
  - 2 ^ 53 < (2 * v + 2 ^ (- e)) / 2 ^ (1 - e) < 2 ^ 53.
Proof.
  intros Hv He.
  replace (1 - e) with (Z.succ (- e)) by lia.
  rewrite Z.pow_succ_r by lia.
  assert (Ht : 2 ^ 1 <= 2 ^ (- e)) by (apply Z.pow_le_mono_r; lia).
  change (2 ^ 1) with 2 in Ht.
  set (t := 2 ^ (- e)) in *. clearbody t.
  set (B := 2 ^ 53) in *. assert (HB : 2 <= B) by (unfold B; lia). clearbody B.
  split.
  - apply Z.lt_le_trans with (- B + 1); [lia |].
    apply Z.div_le_lower_bound; nia.
  - apply Z.div_lt_upper_bound; nia.
Qed.

(** *** [Math.round], [Math.max], [Math.min] *)

Lemma Math_round_not_nan (x : float) :
  is_nan x = false -> is_nan (JS.Math_round x) = false.
Proof.
  intros Hx. unfold JS.Math_round.
  pose proof (Prim2SF_valid x) as Hv.
  destruct (Prim2SF x) as [s | s | | s m e] eqn:E; try exact Hx.
  destruct (0 <=? e) eqn:He; [exact Hx |]. apply Z.leb_gt in He.
  apply valid_digits in Hv.
  match goal with |- context [(?a / ?b =? 0)] => set (n := a / b) end.
  assert (Hn : - 2 ^ 53 < n < 2 ^ 53)
    by (apply round_integer_bound; [destruct s; lia | exact He]).
  destruct (n =? 0); [destruct s; reflexivity |].
  rewrite is_nan_SF. destruct n as [| p | p]; [reflexivity | |].
  - rewrite of_Z_pos by lia.
    pose proof (normal_form_not_nan false p). destruct (normal_form false p); congruence.
  - rewrite of_Z_neg by lia.
    pose proof (normal_form_not_nan true p). destruct (normal_form true p); congruence.
Qed.

Lemma SF_255 : Prim2SF 255 = S754_finite false 8972014882652160 (-45).
Proof. vm_compute. reflexivity. Qed.

Lemma SF_0 : Prim2SF 0 = S754_zero false.
Proof. vm_compute. reflexivity. Qed.

Lemma is_nan_0 : is_nan 0 = false.
Proof. vm_compute. reflexivity. Qed.

Lemma is_nan_255 : is_nan 255 = false.
Proof. vm_compute. reflexivity. Qed.

Lemma get_sign_0 : get_sign 0 = false.
Proof. vm_compute. reflexivity. Qed.

Lemma get_sign_255 : get_sign 255 = false.
Proof. vm_compute. reflexivity. Qed.

Lemma clamp_cases (r : float) :
  is_nan r = false ->
  JS.Math_min 255 (JS.Math_max 0 r) =
  (if 0 <? r then if r <? 255 then r else 255 else 0)%float.
Proof.
  intros Hr. unfold JS.Math_max.
  rewrite is_nan_0, Hr. cbn [orb].
  destruct (0 <? r)%float eqn:H0.
  - unfold JS.Math_min. rewrite is_nan_255, Hr. cbn [orb].
    destruct (255 <? r)%float eqn:H1.
    + now rewrite (ltb_asym _ _ H1).
    + destruct (r <? 255)%float eqn:H2; [reflexivity |].
      rewrite get_sign_255.
      eapply not_ltb_eq; try eassumption. apply SF_255.
  - rewrite get_sign_0. destruct (r <? 0)%float; vm_compute; reflexivity.
Qed.

Lemma SFltb_finite_pos (m1 m2 : positive) (e1 e2 : Z) :
  SFltb (S754_finite false m1 e1) (S754_finite false m2 e2) =
  match e1 ?= e2 with
  | Lt => true
  | Gt => false
  | Eq => (m1 <? m2)%positive
  end.
Proof.
  unfold SFltb, SFcompare, Pos.ltb, Pos.compare.
  destruct (e1 ?= e2); try reflexivity.
Qed.

Lemma normal_form_ge_255 (p : positive) :
  255 <= Zpos p -> SFltb (normal_form false p) (Prim2SF 255) = false.
Proof.
  intros Hp. rewrite SF_255.
  pose proof (digits2_pos_bounds p) as [Hlo Hhi].
  assert (Hd : 8 <= Zpos (digits2_pos p)).
  { destruct (Z.le_gt_cases 8 (Zpos (digits2_pos p))) as [H | H]; [exact H |].
    assert (2 ^ Zpos (digits2_pos p) <= 2 ^ 7) by (apply Z.pow_le_mono_r; lia). lia. }
  unfold normal_form.
  destruct (53 - Zpos (digits2_pos p)) as [| k | k] eqn:E; rewrite SFltb_finite_pos.
  - reflexivity.
  - destruct (Z.compare_spec (Zneg k) (-45)) as [Heq | Hlt | Hgt];
      [| exfalso; lia | reflexivity].
    apply Pos.ltb_ge.
    assert (k = 45%positive) by lia. subst k.
    pose proof (iter_xO_value p 45) as Hv.
    assert (H45 : 2 ^ Zpos 45 = 35184372088832) by (vm_compute; reflexivity).
    rewrite H45 in Hv. lia.
  - reflexivity.
Qed.

(** A rounded number strictly between 0 and 255 is one of 1, ..., 254. *)
Lemma Math_round_channel (x : float) :
  (0 <? JS.Math_round x)%float = true ->
  (JS.Math_round x <? 255)%float = true ->
  channel (JS.Math_round x).
Proof.
  unfold JS.Math_round.
  pose proof (Prim2SF_valid x) as Hv.
  destruct (Prim2SF x) as [s | s | | s m e] eqn:E.
  - intros H. rewrite ltb_spec, E in H. discriminate.
  - intros H0 H1. rewrite ltb_spec, E in H0, H1. destruct s; discriminate.
  - intros H. rewrite ltb_spec, E in H. discriminate.
  - destruct (0 <=? e) eqn:He.
    + intros H0 H1. rewrite ltb_spec, E in H0, H1. apply Z.leb_le in He.
      destruct s; [discriminate |].
      rewrite SF_255, SFltb_finite_pos in H1.
      destruct (Z.compare_spec e (-45)); try discriminate; lia.
    + apply Z.leb_gt in He. apply valid_digits in Hv.
      match goal with |- context [(?a / ?b =? 0)] => set (n := a / b) end.
      assert (Hn : - 2 ^ 53 < n < 2 ^ 53)
        by (apply round_integer_bound; [destruct s; lia | exact He]).
      destruct (n =? 0) eqn:Hz.
      * intros H. destruct s; vm_compute in H; discriminate.
      * intros H0 H1. rewrite ltb_spec in H0, H1.
        destruct n as [| p | p]; [discriminate | |].
        -- rewrite of_Z_pos in H1 by lia.
           destruct (Z.lt_ge_cases (Zpos p) 255) as [Hlt | Hge].
           ++ exists (Zpos p). split; [lia | reflexivity].
           ++ rewrite normal_form_ge_255 in H1 by lia. discriminate.
        -- rewrite of_Z_neg in H0 by lia.
           rewrite SF_0 in H0.
           unfold normal_form in H0.
           destruct (53 - Zpos (digits2_pos p)); discriminate.
Qed.

Lemma channel_0 : channel 0.
Proof. exists 0. split; [lia | reflexivity]. Qed.

Lemma channel_255 : channel 255.
Proof. exists 255. split; [lia | reflexivity]. Qed.

(** [Math.min(255, Math.max(0, Math.round(x)))] is an integer between 0
    and 255 whenever x is a number. *)
Lemma clamp_round_channel (x : float) :
  is_nan x = false ->
  channel (JS.Math_min 255 (JS.Math_max 0 (JS.Math_round x))).
Proof.
  intros Hx. rewrite clamp_cases by now apply Math_round_not_nan.
  destruct (0 <? JS.Math_round x)%float eqn:H0; [| apply channel_0].
  destruct (JS.Math_round x <? 255)%float eqn:H1; [| apply channel_255].
  now apply Math_round_channel.
Qed.

(** *** Comparison with NaN and with +infinity *)

Lemma is_nan_eq (x : float) : is_nan x = true -> x = nan.
Proof.
  rewrite is_nan_SF. intros H. apply Prim2SF_inj.
  destruct (Prim2SF x); try discriminate. reflexivity.
Qed.

Lemma leb_nan (x y : float) : is_nan x = true -> (x <=? y)%float = false.
Proof.
  intros H. apply is_nan_eq in H. subst x. rewrite leb_spec.
  replace (Prim2SF nan) with S754_nan by (vm_compute; reflexivity).
  reflexivity.
Qed.

Lemma leb_infinity (x : float) : is_nan x = false -> (x <=? infinity)%float = true.
Proof.
  rewrite is_nan_SF, leb_spec.
  replace (Prim2SF infinity) with (S754_infinity false) by (vm_compute; reflexivity).
  destruct (Prim2SF x) as [s | s | | s m e]; try destruct s; try reflexivity; discriminate.
Qed.

Lemma leb_not_nan (x y : float) : (x <=? y)%float = true -> is_nan x = false.
Proof.
  intros H. destruct (is_nan x) eqn:E; [| reflexivity].
  rewrite (leb_nan _ y E) in H. discriminate.
Qed.

(** *** Division by one and addition to zero *)

Lemma SF_1 : Prim2SF 1 = S754_finite false 4503599627370496 (-52).
Proof. vm_compute. reflexivity. Qed.

Lemma valid_cases (s : bool) (m : positive) (e : Z) :
  valid_binary (S754_finite s m e) = true ->
  e <= 971 /\
  ((Zpos (digits2_pos m) = 53 /\ -1074 <= e) \/
   (Zpos (digits2_pos m) < 53 /\ e = -1074)).
Proof.
  cbn. unfold bounded, canonical_mantissa, fexp, SpecFloat.emin, prec, emax.
  intros H. apply andb_true_iff in H. destruct H as [H1 H2].
  apply Z.eqb_eq in H1. apply Z.leb_le in H2. lia.
Qed.

(** An aligned mantissa passes through rounding unchanged. *)
Lemma round_canonical (s : bool) (m : positive) (e : Z) :
  valid_binary (S754_finite s m e) = true ->
  binary_round_aux prec emax s (Zpos m) e loc_Exact = S754_finite s m e.
Proof.
  intros Hv. apply valid_cases in Hv. destruct Hv as [He Hd].
  unfold binary_round_aux, shr_fexp, Zdigits2, shr_record_of_loc, fexp, SpecFloat.emin.
  unfold prec, emax.
  replace (Z.max (Zpos (digits2_pos m) + e - 53) (3 - 1024 - 53) - e) with 0 by lia.
  cbn [shr loc_of_shr_record shr_m round_nearest_even Zdigits2].
  replace (Z.max (Zpos (digits2_pos m) + e - 53) (3 - 1024 - 53) - e) with 0 by lia.
  cbn [shr shr_m].
  replace (e <=? 1024 - 53) with true by (symmetry; apply Z.leb_le; lia).
  reflexivity.
Qed.

Lemma div_core_one (m : positive) (e : Z) :
  valid_binary (S754_finite false m e) = true ->
  SFdiv_core_binary prec emax (Zpos m) e 4503599627370496 (-52) =
  if e =? -1074 then (Zpos m, e, loc_Exact) else (Zpos m~0, e - 1, loc_Exact).
Proof.
  intros Hv. apply valid_cases in Hv. destruct Hv as [He Hd].
  unfold SFdiv_core_binary.
  assert (HM : Zdigits2 4503599627370496 = 53) by (vm_compute; reflexivity).
  rewrite HM. cbn [Zdigits2]. unfold fexp, SpecFloat.emin, prec, emax.
  assert (H52 : 4503599627370496 = 2 ^ 52) by (vm_compute; reflexivity).
  destruct (Z.eqb_spec e (-1074)) as [-> | Hne].
  - replace (Z.min (Z.max (Zpos (digits2_pos m) + -1074 - (53 + -52) - 53) (3 - 1024 - 53))
               (-1074 - -52)) with (-1074) by lia.
    replace (-1074 - -52 - -1074) with 52 by lia.
    rewrite Z.shiftl_mul_pow2 by lia.
    rewrite <- H52.
    pose proof (Z_div_mod (Zpos m * 4503599627370496) 4503599627370496 eq_refl) as Hdm.
    destruct (Z.div_eucl (Zpos m * 4503599627370496) 4503599627370496) as [q r].
    assert (q = Zpos m /\ r = 0) as [-> ->] by lia.
    reflexivity.
  - assert (Hd53 : Zpos (digits2_pos m) = 53) by lia.
    rewrite Hd53.
    replace (Z.min (Z.max (53 + e - (53 + -52) - 53) (3 - 1024 - 53)) (e - -52))
      with (e - 1) by lia.
    replace (e - -52 - (e - 1)) with 53 by lia.
    rewrite Z.shiftl_mul_pow2 by lia.
    assert (H53 : 2 ^ 53 = 2 * 4503599627370496) by (vm_compute; reflexivity).
    rewrite H53.
    pose proof (Z_div_mod (Zpos m * (2 * 4503599627370496)) 4503599627370496 eq_refl) as Hdm.
    destruct (Z.div_eucl (Zpos m * (2 * 4503599627370496)) 4503599627370496) as [q r].
    assert (q = Zpos m~0 /\ r = 0) as [-> ->] by lia.
    reflexivity.
Qed.

Lemma round_doubled (s : bool) (m : positive) (e : Z) :
  Zpos (digits2_pos m) = 53 -> -1074 < e <= 971 ->
  binary_round_aux prec emax s (Zpos m~0) (e - 1) loc_Exact = S754_finite s m e.
Proof.
  intros Hd He.
  unfold binary_round_aux, shr_fexp, Zdigits2, shr_record_of_loc, fexp, SpecFloat.emin.
  unfold prec, emax. cbn [digits2_pos]. rewrite Pos2Z.inj_succ, Hd.
  replace (Z.max (Z.succ 53 + (e - 1) - 53) (3 - 1024 - 53) - (e - 1)) with 1 by lia.
  cbn [shr iter_pos shr_1 orb loc_of_shr_record shr_m round_nearest_even Zdigits2].
  rewrite Hd.
  replace (Z.max (53 + (e - 1 + 1) - 53) (3 - 1024 - 53) - (e - 1 + 1)) with 0 by lia.
  cbn [shr shr_m].
  replace (e - 1 + 1 <=? 1024 - 53) with true by (symmetry; apply Z.leb_le; lia).
  f_equal. lia.
Qed.

Lemma SFdiv_one (x : spec_float) :
  valid_binary x = true ->
  SF64div x (S754_finite false 4503599627370496 (-52)) = x.
Proof.
  destruct x as [s | s | | s m e]; intros Hv;
    [destruct s; reflexivity | destruct s; reflexivity | reflexivity |].
  unfold SF64div, SFdiv.
  rewrite div_core_one by exact Hv.
  pose proof (valid_cases _ _ _ Hv) as [He Hd].
  rewrite xorb_false_r.
  destruct (Z.eqb_spec e (-1074)) as [-> | Hne].
  - now apply round_canonical.
  - apply round_doubled; lia.
Qed.

Lemma div_one (x : float) : (x / 1)%float = x.
Proof.
  apply Prim2SF_inj. rewrite div_spec, SF_1. apply SFdiv_one, Prim2SF_valid.
Qed.

(** Adding a number to +0 returns it, except that -0 becomes +0. *)
Lemma zero_add (x : float) :
  (0 + x)%float = x \/ (x = neg_zero /\ (0 + x)%float = zero).
Proof.
  destruct (Prim2SF x) as [s | s | | s m e] eqn:E.
  - destruct s.
    + right. assert (x = neg_zero) by (apply Prim2SF_inj; rewrite E; reflexivity).
      subst x. split; reflexivity.
    + left. assert (x = zero) by (apply Prim2SF_inj; rewrite E; reflexivity).
      subst x. reflexivity.
  - left. apply Prim2SF_inj. rewrite add_spec, SF_0, E. reflexivity.
  - left. apply Prim2SF_inj. rewrite add_spec, SF_0, E. reflexivity.
  - left. apply Prim2SF_inj. rewrite add_spec, SF_0, E. reflexivity.
Qed.

Lemma zero_neq_neg_zero : zero <> neg_zero.
Proof.
  intros H. apply (f_equal (fun x => (1 / x <? 0)%float)) in H. vm_compute in H. discriminate.
Qed.

(** *** Shifting a mantissa right *)

Lemma iter_pos_nat {A} (f : A -> A) (p : positive) (x : A) :
  iter_pos f p x = Nat.iter (Pos.to_nat p) f x.
Proof.
  revert x. induction p as [p IH | p IH |]; intros x; cbn [iter_pos].
  - rewrite !IH, Pos2Nat.inj_xI, <- Nat.iter_add, Nat.iter_succ_r.
    f_equal. lia.
  - rewrite !IH, Pos2Nat.inj_xO, <- Nat.iter_add.
    f_equal. lia.
  - reflexivity.
Qed.

Lemma shr_1_spec (m : Z) (r s : bool) :
  0 <= m ->
  shr_1 {| shr_m := m; shr_r := r; shr_s := s |} =
  {| shr_m := m / 2; shr_r := Z.odd m; shr_s := r || s |}.
Proof.
  intros H. destruct m as [| [p | p |] | p]; try reflexivity; try lia.
  - cbn [shr_1]. f_equal. rewrite Pos2Z.inj_xI.
    apply Z.div_unique with (r := 1); lia.
  - cbn [shr_1]. f_equal. rewrite Pos2Z.inj_xO.
    apply Z.div_unique with (r := 0); lia.
Qed.

Lemma shifted_succ (M : Z) (k : nat) :
  0 <= M -> shr_1 (shifted M k) = shifted M (S k).
Proof.
  intros HM. destruct k as [| j].
  - unfold shifted. rewrite shr_1_spec by exact HM.
    cbn [Z.of_nat orb]. rewrite Z.pow_0_r, Z.div_1_r, Z.mod_1_r. reflexivity.
  - unfold shifted. rewrite shr_1_spec by (apply Z.div_pos; lia).
    assert (Hp : 0 < 2 ^ Z.of_nat j) by (apply Z.pow_pos_nonneg; lia).
    replace (Z.of_nat (S (S j))) with (Z.of_nat (S j) + 1) by lia.
    rewrite Z.pow_add_r, Z.pow_1_r by lia.
    rewrite Z.div_div by lia. f_equal.
    replace (Z.of_nat (S j)) with (Z.of_nat j + 1) by lia.
    rewrite Z.pow_add_r, Z.pow_1_r by lia.
    set (t := 2 ^ Z.of_nat j) in *.
    pose proof (Z.div_mod M t ltac:(lia)) as E1.
    pose proof (Z.mod_pos_bound M t Hp) as B1.
    pose proof (Z.div_mod (M / t) 2 ltac:(lia)) as E2.
    pose proof (Z.mod_pos_bound (M / t) 2 ltac:(lia)) as B2.
    assert (Hmod : M mod (t * 2) = t * ((M / t) mod 2) + M mod t).
    { symmetry. apply Z.mod_unique with (q := M / t / 2); nia. }
    rewrite Hmod, Zodd_mod.
    destruct (Z.eqb_spec ((M / t) mod 2) 1) as [H1 | H1];
      destruct (Z.eqb_spec (M mod t) 0) as [H0 | H0]; cbn [negb orb];
      destruct (Z.eqb_spec (t * ((M / t) mod 2) + M mod t) 0) as [H2 | H2];
      cbn [negb]; try reflexivity; exfalso; nia.
Qed.

Lemma shr_iter (M : Z) (k : nat) :
  0 <= M -> Nat.iter k shr_1 (shifted M 0) = shifted M k.
Proof.
  intros HM. induction k as [| k IH]; [reflexivity |].
  rewrite Nat.iter_succ, IH. now apply shifted_succ.
Qed.

(** *** Rounding to nearest, ties to even *)

Lemma round_shifted (M : Z) (j : nat) :
  0 <= M ->
  round_nearest_even (shr_m (shifted M (S j))) (loc_of_shr_record (shifted M (S j)))
  = nearest_even M (Z.of_nat (S j)).
Proof.
  intros HM. unfold shifted, nearest_even. cbn [shr_m loc_of_shr_record].
  assert (Hp : 0 < 2 ^ Z.of_nat j) by (apply Z.pow_pos_nonneg; lia).
  replace (Z.of_nat (S j)) with (Z.of_nat j + 1) by lia.
  rewrite Z.pow_add_r, Z.pow_1_r by lia.
  set (t := 2 ^ Z.of_nat j) in *.
  pose proof (Z.div_mod M t ltac:(lia)) as E1.
  pose proof (Z.mod_pos_bound M t Hp) as B1.
  pose proof (Z.div_mod (M / t) 2 ltac:(lia)) as E2.
  pose proof (Z.mod_pos_bound (M / t) 2 ltac:(lia)) as B2.
  assert (Hmod : M mod (t * 2) = t * ((M / t) mod 2) + M mod t).
  { symmetry. apply Z.mod_unique with (q := M / t / 2); nia. }
  rewrite Hmod, Zodd_mod.
  destruct (Z.eqb_spec ((M / t) mod 2) 1) as [H1 | H1];
    destruct (Z.eqb_spec (M mod t) 0) as [H0 | H0]; cbn [negb round_nearest_even];
    match goal with |- context [?a ?= ?b] => destruct (Z.compare_spec a b) end;
    try reflexivity; exfalso; nia.
Qed.

Lemma nearest_even_spec (M n : Z) :
  0 <= M -> 1 <= n ->
  let N := nearest_even M n in
  0 <= N /\
  (2 * N - 1) * 2 ^ (n - 1) <= M <= (2 * N + 1) * 2 ^ (n - 1) /\
  (M = (2 * N - 1) * 2 ^ (n - 1) -> Z.even N = true) /\
  (M = (2 * N + 1) * 2 ^ (n - 1) -> Z.even N = true).
Proof.
  intros HM Hn N. subst N. unfold nearest_even.
  assert (H2n : 2 ^ n = 2 ^ (n - 1) * 2).
  { replace n with ((n - 1) + 1) at 1 by lia. now rewrite Z.pow_add_r, Z.pow_1_r by lia. }
  rewrite !H2n.
  assert (Hp : 0 < 2 ^ (n - 1)) by (apply Z.pow_pos_nonneg; lia).
  set (h := 2 ^ (n - 1)) in *. clear H2n.
  pose proof (Z.div_mod M (h * 2) ltac:(lia)) as E1.
  pose proof (Z.mod_pos_bound M (h * 2) ltac:(lia)) as B1.
  assert (Hq : 0 <= M / (h * 2)) by (apply Z.div_pos; lia).
  set (q := M / (h * 2)) in *. set (r := M mod (h * 2)) in *.
  clearbody q r h.
  destruct (Z.compare_spec (2 * r) (h * 2)) as [Hc | Hc | Hc].
  - destruct (Z.even q) eqn:Ev.
    + split; [nia | split; [split; nia | split; intros Ht; [exfalso; nia | exact Ev]]].
    + split; [nia | split; [split; nia | split; intros Ht; [| exfalso; nia]]].
      rewrite Z.even_add, Ev. reflexivity.
  - split; [nia | split; [split; nia | split; intros Ht; exfalso; nia]].
  - split; [nia | split; [split; nia | split; intros Ht; exfalso; nia]].
Qed.

Lemma shr_noop (mrs : shr_record) (e n : Z) : n <= 0 -> shr mrs e n = (mrs, e).
Proof. intros H. destruct n; try reflexivity. lia. Qed.

Lemma shr_pos (M e n : Z) :
  0 <= M -> 0 < n ->
  shr {| shr_m := M; shr_r := false; shr_s := false |} e n
  = (shifted M (Z.to_nat n), e + n).
Proof.
  intros HM Hn. destruct n as [| p | p]; try lia.
  cbn [shr]. rewrite iter_pos_nat. f_equal.
  exact (shr_iter M (Pos.to_nat p) HM).
Qed.

Lemma round_aux_spec (M : positive) (E : Z) :
  let e' := Z.max (Zpos (digits2_pos M) + E - 53) (-1074) in
  E < e' -> e' < 971 ->
  binary_round_aux prec emax false (Zpos M) E loc_Exact
  = encode (nearest_even (Zpos M) (e' - E)) e'.
Proof.
  intros e' Hn He.
  unfold binary_round_aux, shr_fexp.
  cbn [Zdigits2 shr_record_of_loc]. unfold fexp, SpecFloat.emin, prec, emax.
  replace (3 - 1024 - 53) with (-1074) by reflexivity.
  fold e'.
  rewrite shr_pos by lia.
  destruct (Z.to_nat (e' - E)) as [| j] eqn:Ej; [lia |].
  rewrite round_shifted by lia.
  replace (Z.of_nat (S j)) with (e' - E) by lia.
  replace (E + (e' - E)) with e' by lia.
  pose proof (nearest_even_spec (Zpos M) (e' - E) ltac:(lia) ltac:(lia)) as (HN0 & HNb & _).
  pose proof (digits2_pos_bounds M) as [_ HMhi].
  set (N := nearest_even (Zpos M) (e' - E)) in *.
  assert (HN : N <= 2 ^ 53).
  { assert (Hpow : 2 ^ Zpos (digits2_pos M) <= 2 ^ (e' - E - 1) * 2 ^ 54).
    { rewrite <- Z.pow_add_r by lia. apply Z.pow_le_mono_r; lia. }
    assert (Hp : 0 < 2 ^ (e' - E - 1)) by (apply Z.pow_pos_nonneg; lia).
    assert (H54 : 2 ^ 54 = 2 * 2 ^ 53) by reflexivity.
    nia. }
  clearbody N.
  destruct N as [| p | p]; [| | lia].
  - rewrite shr_noop by (cbn [Zdigits2]; lia). reflexivity.
  - cbn [Zdigits2]. unfold encode.
    pose proof (digits2_pos_bounds p) as [Hplo Hphi].
    destruct (Z.eqb_spec (Zpos p) (2 ^ 53)) as [H53 | H53].
    + assert (Hd : Zpos (digits2_pos p) = 54).
      { apply digits2_pos_unique. rewrite H53. split; [reflexivity | reflexivity]. }
      rewrite Hd. replace (Z.max (54 + e' - 53) (-1074) - e') with 1 by lia.
      destruct p as [p' | p' |].
      * exfalso. rewrite Pos2Z.inj_xI in H53.
        assert (H : 2 ^ 53 = 2 * 2 ^ 52) by reflexivity. lia.
      * cbn [shr iter_pos shr_1 shr_m orb Pos.div2].
        replace (e' + 1 <=? 1024 - 53) with true by (symmetry; apply Z.leb_le; lia).
        reflexivity.
      * exfalso. assert (1 < 2 ^ 53) by reflexivity. lia.
    + assert (Hd : Zpos (digits2_pos p) <= 53) by (apply small_digits; lia).
      rewrite shr_noop by lia. cbn [shr_m].
      replace (e' <=? 1024 - 53) with true by (symmetry; apply Z.leb_le; lia).
      reflexivity.
Qed.

(** *** Rounding is monotone *)

Lemma SFleb_finite_pos (m1 m2 : positive) (e1 e2 : Z) :
  SFleb (S754_finite false m1 e1) (S754_finite false m2 e2) =
  match e1 ?= e2 with
  | Lt => true
  | Gt => false
  | Eq => (m1 <=? m2)%positive
  end.
Proof.
  unfold SFleb, SFcompare, Pos.leb, Pos.compare.
  destruct (e1 ?= e2); reflexivity.
Qed.

Lemma nearest_even_bound (M : positive) (n : Z) :
  1 <= n -> Zpos (digits2_pos M) - 53 <= n ->
  0 <= nearest_even (Zpos M) n <= 2 ^ 53.
Proof.
  intros Hn Hd.
  pose proof (nearest_even_spec (Zpos M) n ltac:(lia) Hn) as (HN0 & HNb & _).
  pose proof (digits2_pos_bounds M) as [_ HMhi].
  split; [exact HN0 |].
  assert (Hpow : 2 ^ Zpos (digits2_pos M) <= 2 ^ (n - 1) * 2 ^ 54).
  { rewrite <- Z.pow_add_r by lia. apply Z.pow_le_mono_r; lia. }
  assert (Hp : 0 < 2 ^ (n - 1)) by (apply Z.pow_pos_nonneg; lia).
  assert (H54 : 2 ^ 54 = 2 * 2 ^ 53) by reflexivity.
  set (B := 2 ^ 53) in *. clearbody B.
  set (N := nearest_even (Zpos M) n) in *. clearbody N. nia.
Qed.

Lemma div2_of_2p53 (p : positive) : Zpos p = 2 ^ 53 -> Zpos (Pos.div2 p) = 2 ^ 52.
Proof.
  assert (H : 2 ^ 53 = 2 * 2 ^ 52) by reflexivity.
  assert (H1 : 1 < 2 ^ 52) by reflexivity.
  destruct p as [p | p |]; cbn [Pos.div2]; lia.
Qed.

(** Encoded mantissas compare like the numbers they stand for. *)
Lemma encode_le_same (N1 N2 e : Z) :
  0 <= N1 <= N2 -> N2 <= 2 ^ 53 -> SFleb (encode N1 e) (encode N2 e) = true.
Proof.
  intros [H0 H12] H2. unfold encode.
  destruct N1 as [| p1 | p1]; [| | lia]; (destruct N2 as [| p2 | p2]; [| | lia]);
    try reflexivity; try lia.
  - destruct (Zpos p2 =? 2 ^ 53); reflexivity.
  - destruct (Z.eqb_spec (Zpos p1) (2 ^ 53)) as [E1 | E1];
      destruct (Z.eqb_spec (Zpos p2) (2 ^ 53)) as [E2 | E2];
      rewrite SFleb_finite_pos.
    + rewrite Z.compare_refl. apply Pos.leb_le.
      assert (p1 = p2) by lia. subst. lia.
    + lia.
    + replace (e ?= e + 1) with Lt by (symmetry; apply Z.compare_lt_iff; lia). reflexivity.
    + rewrite Z.compare_refl. apply Pos.leb_le. lia.
Qed.

Lemma encode_le_next (N1 N2 e1 e2 : Z) :
  0 <= N1 <= 2 ^ 53 -> 2 ^ 52 <= N2 <= 2 ^ 53 -> e1 < e2 ->
  SFleb (encode N1 e1) (encode N2 e2) = true.
Proof.
  intros [H0 H1] [H2 H3] He. unfold encode.
  assert (Hpos : 0 < 2 ^ 52) by reflexivity.
  destruct N1 as [| p1 | p1]; [| | lia]; (destruct N2 as [| p2 | p2]; [lia | | lia]).
  - destruct (Zpos p2 =? 2 ^ 53); reflexivity.
  - destruct (Z.eqb_spec (Zpos p1) (2 ^ 53)) as [E1 | E1];
      destruct (Z.eqb_spec (Zpos p2) (2 ^ 53)) as [E2 | E2];
      rewrite SFleb_finite_pos.
    + replace (e1 + 1 ?= e2 + 1) with Lt by (symmetry; apply Z.compare_lt_iff; lia).
      reflexivity.
    + destruct (Z.compare_spec (e1 + 1) e2) as [Heq | Hlt | Hgt]; [| reflexivity | lia].
      apply Pos.leb_le. apply div2_of_2p53 in E1. lia.
    + replace (e1 ?= e2 + 1) with Lt by (symmetry; apply Z.compare_lt_iff; lia).
      reflexivity.
    + replace (e1 ?= e2) with Lt by (symmetry; apply Z.compare_lt_iff; lia).
      reflexivity.
Qed.

(** Rounding preserves the order of two positive numbers that both lose
    bits: [M1 * 2^E1 <= M2 * 2^E2], compared on the common exponent E0. *)
Lemma round_mono (M1 M2 : positive) (E1 E2 E0 : Z) :
  E0 <= E1 -> E0 <= E2 ->
  Zpos M1 * 2 ^ (E1 - E0) <= Zpos M2 * 2 ^ (E2 - E0) ->
  E1 < round_exponent M1 E1 -> E2 < round_exponent M2 E2 ->
  SFleb (encode (nearest_even (Zpos M1) (round_exponent M1 E1 - E1)) (round_exponent M1 E1))
        (encode (nearest_even (Zpos M2) (round_exponent M2 E2 - E2)) (round_exponent M2 E2))
  = true.
Proof.
  intros H01 H02 Hle Hn1 Hn2.
  pose proof (digits2_pos_bounds M1) as [Hlo1 Hhi1].
  pose proof (digits2_pos_bounds M2) as [Hlo2 Hhi2].
  pose proof (nearest_even_bound M1) as HU1.
  pose proof (nearest_even_bound M2) as HU2.
  set (d1 := Zpos (digits2_pos M1)) in *. set (d2 := Zpos (digits2_pos M2)) in *.
  assert (Hd1 : 1 <= d1) by (unfold d1; lia).
  assert (Hd2 : 1 <= d2) by (unfold d2; lia).
  set (e1 := round_exponent M1 E1) in *. set (e2 := round_exponent M2 E2) in *.
  assert (He1 : e1 = Z.max (d1 + E1 - 53) (-1074)) by reflexivity.
  assert (He2 : e2 = Z.max (d2 + E2 - 53) (-1074)) by reflexivity.
  clearbody e1 e2 d1 d2.
  (* the magnitudes are ordered *)
  assert (Hmag : d1 + E1 <= d2 + E2).
  { assert (H : 2 ^ (d1 - 1 + (E1 - E0)) < 2 ^ (d2 + (E2 - E0))).
    { rewrite !Z.pow_add_r by lia.
      assert (0 < 2 ^ (E1 - E0)) by (apply Z.pow_pos_nonneg; lia).
      assert (0 < 2 ^ (E2 - E0)) by (apply Z.pow_pos_nonneg; lia).
      nia. }
    apply Z.pow_lt_mono_r_iff in H; lia. }
  pose proof (nearest_even_spec (Zpos M1) (e1 - E1) ltac:(lia) ltac:(lia))
    as (HN1 & HB1 & HT1 & _).
  pose proof (nearest_even_spec (Zpos M2) (e2 - E2) ltac:(lia) ltac:(lia))
    as (HN2 & HB2 & _ & HT2).
  specialize (HU1 (e1 - E1) ltac:(lia) ltac:(lia)).
  specialize (HU2 (e2 - E2) ltac:(lia) ltac:(lia)).
  set (N1 := nearest_even (Zpos M1) (e1 - E1)) in *.
  set (N2 := nearest_even (Zpos M2) (e2 - E2)) in *.
  clearbody N1 N2.
  destruct (Z.eq_dec e1 e2) as [Heq | Hne].
  - (* same exponent: the mantissas are ordered *)
    subst e2. rewrite <- Heq in *. apply encode_le_same; [| lia].
    split; [lia |].
    assert (HT : 2 ^ (e1 - E1 - 1) * 2 ^ (E1 - E0) = 2 ^ (e1 - E2 - 1) * 2 ^ (E2 - E0)).
    { rewrite <- !Z.pow_add_r by lia. f_equal. lia. }
    assert (Hp1 : 0 < 2 ^ (e1 - E1 - 1)) by (apply Z.pow_pos_nonneg; lia).
    assert (Hp2 : 0 < 2 ^ (e1 - E2 - 1)) by (apply Z.pow_pos_nonneg; lia).
    assert (Hs1 : 0 < 2 ^ (E1 - E0)) by (apply Z.pow_pos_nonneg; lia).
    assert (Hs2 : 0 < 2 ^ (E2 - E0)) by (apply Z.pow_pos_nonneg; lia).
    set (h1 := 2 ^ (e1 - E1 - 1)) in *. set (h2 := 2 ^ (e1 - E2 - 1)) in *.
    set (s1 := 2 ^ (E1 - E0)) in *. set (s2 := 2 ^ (E2 - E0)) in *.
    clearbody h1 h2 s1 s2.
    destruct (Z.le_gt_cases N1 N2) as [Hok | Hgt]; [exact Hok | exfalso].
    assert (Hchain : (2 * N1 - 1) * (h1 * s1) <= (2 * N2 + 1) * (h1 * s1)).
    { rewrite HT at 2. nia. }
    assert (HN : N1 = N2 + 1) by nia.
    assert (Hm1 : Zpos M1 = (2 * N1 - 1) * h1) by nia.
    assert (Hm2 : Zpos M2 = (2 * N2 + 1) * h2).
    { assert ((2 * N2 + 1) * (h2 * s2) <= Zpos M2 * s2); [| nia].
      rewrite <- HT. nia. }
    specialize (HT1 Hm1). specialize (HT2 Hm2).
    rewrite HN, Z.even_add, HT2 in HT1. discriminate.
  - (* the second number is rounded in a higher binade *)
    apply encode_le_next; try lia.
    split; [| lia].
    assert (Hn : e2 - E2 = d2 - 53) by lia.
    assert (Hp : 0 < 2 ^ (e2 - E2 - 1)) by (apply Z.pow_pos_nonneg; lia).
    assert (Hpow : 2 ^ (d2 - 1) = 2 ^ (e2 - E2 - 1) * 2 ^ 53).
    { rewrite <- Z.pow_add_r by lia. f_equal. lia. }
    assert (H53 : 2 ^ 53 = 2 * 2 ^ 52) by reflexivity.
    set (B := 2 ^ 52) in *. clearbody B.
    set (h := 2 ^ (e2 - E2 - 1)) in *. clearbody h. nia.
Qed.

(** *** Squares of numbers between 0 and 1 *)

(** The square of a positive number not above 1 loses bits to rounding. *)
Lemma square_exponent (s : bool) (m : positive) (e : Z) :
  valid_binary (S754_finite s m e) = true -> e <= -52 ->
  e + e < round_exponent (m * m) (e + e) < 971.
Proof.
  intros Hv He. apply valid_cases in Hv. destruct Hv as [_ Hd].
  pose proof (digits2_pos_bounds m) as [Hlo Hhi].
  pose proof (digits2_pos_bounds (m * m)) as [Hlo2 Hhi2].
  unfold round_exponent. rewrite Pos2Z.inj_mul in *.
  set (d := Zpos (digits2_pos m)) in *. set (d2 := Zpos (digits2_pos (m * m))) in *.
  assert (Hd2 : d2 <= 106).
  { assert (H : 2 ^ (d2 - 1) < 2 ^ 106).
    { assert (2 ^ d <= 2 ^ 53) by (apply Z.pow_le_mono_r; lia).
      assert (H106 : 2 ^ 106 = 2 ^ 53 * 2 ^ 53) by reflexivity.
      set (B := 2 ^ 53) in *. clearbody B d d2. nia. }
    apply Z.pow_lt_mono_r_iff in H; lia. }
  split; [| lia].
  destruct Hd as [[Hd He'] | [Hd He']]; [| lia].
  assert (H : 2 ^ 104 < 2 ^ d2).
  { rewrite Hd in Hlo. change (53 - 1) with 52 in Hlo.
    assert (H104 : 2 ^ 104 = 2 ^ 52 * 2 ^ 52) by reflexivity.
    assert (0 < 2 ^ 52) by reflexivity.
    set (B := 2 ^ 52) in *. clearbody B d d2. nia. }
  apply Z.pow_lt_mono_r_iff in H; unfold d2 in *; lia.
Qed.

Lemma square_round (m : positive) (e : Z) :
  valid_binary (S754_finite false m e) = true -> e <= -52 ->
  SF64mul (S754_finite false m e) (S754_finite false m e)
  = encode (nearest_even (Zpos (m * m)) (round_exponent (m * m) (e + e) - (e + e)))
           (round_exponent (m * m) (e + e)).
Proof.
  intros Hv He. unfold SF64mul, SFmul. cbn [xorb].
  pose proof (square_exponent false m e Hv He) as [H1 H2].
  apply round_aux_spec; assumption.
Qed.

Lemma SFleb_one (m : positive) (e : Z) :
  SFleb (S754_finite false m e) (S754_finite false 4503599627370496 (-52)) = true ->
  e <= -52.
Proof.
  rewrite SFleb_finite_pos. destruct (Z.compare_spec e (-52)); try discriminate; lia.
Qed.

Lemma SFleb_finite_order (m1 m2 : positive) (e1 e2 : Z) :
  valid_binary (S754_finite false m1 e1) = true ->
  valid_binary (S754_finite false m2 e2) = true ->
  SFleb (S754_finite false m1 e1) (S754_finite false m2 e2) = true ->
  e1 <= e2 /\ Zpos m1 <= Zpos m2 * 2 ^ (e2 - e1).
Proof.
  intros Hv1 Hv2. rewrite SFleb_finite_pos.
  apply valid_cases in Hv1, Hv2. destruct Hv1 as [_ Hd1], Hv2 as [_ Hd2].
  pose proof (digits2_pos_bounds m1) as [_ Hhi1].
  pose proof (digits2_pos_bounds m2) as [Hlo2 _].
  destruct (Z.compare_spec e1 e2) as [-> | Hlt | Hgt]; try discriminate.
  - intros H. apply Pos.leb_le in H. rewrite Z.sub_diag, Z.pow_0_r. lia.
  - intros _. split; [lia |].
    assert (Hd : Zpos (digits2_pos m2) = 53) by lia.
    rewrite Hd in Hlo2. change (53 - 1) with 52 in Hlo2.
    assert (H1 : 2 ^ Zpos (digits2_pos m1) <= 2 ^ 53) by (apply Z.pow_le_mono_r; lia).
    assert (H2 : 2 ^ 1 <= 2 ^ (e2 - e1)) by (apply Z.pow_le_mono_r; lia).
    change (2 ^ 1) with 2 in H2.
    assert (H53 : 2 ^ 53 = 2 * 2 ^ 52) by reflexivity.
    assert (0 < 2 ^ 52) by reflexivity.
    set (B := 2 ^ 52) in *. set (K := 2 ^ (e2 - e1)) in *. clearbody B K. nia.
Qed.

(** Squaring is monotone on the positive numbers up to 1. *)
Lemma square_mono_SF (m1 m2 : positive) (e1 e2 : Z) :
  valid_binary (S754_finite false m1 e1) = true ->
  valid_binary (S754_finite false m2 e2) = true ->
  SFleb (S754_finite false m1 e1) (S754_finite false m2 e2) = true ->
  e2 <= -52 ->
  SFleb (SF64mul (S754_finite false m1 e1) (S754_finite false m1 e1))
        (SF64mul (S754_finite false m2 e2) (S754_finite false m2 e2)) = true.
Proof.
  intros Hv1 Hv2 Hle He2.
  destruct (SFleb_finite_order _ _ _ _ Hv1 Hv2 Hle) as [He Hm].
  rewrite !square_round by (assumption || lia).
  pose proof (square_exponent false m1 e1 Hv1 ltac:(lia)) as [Hn1 _].
  pose proof (square_exponent false m2 e2 Hv2 He2) as [Hn2 _].
  apply round_mono with (E0 := e1 + e1); try lia.
  rewrite Z.sub_diag, Z.pow_0_r, Z.mul_1_r, !Pos2Z.inj_mul.
  replace (e2 + e2 - (e1 + e1)) with ((e2 - e1) + (e2 - e1)) by lia.
  rewrite Z.pow_add_r by lia.
  assert (0 < 2 ^ (e2 - e1)) by (apply Z.pow_pos_nonneg; lia).
  set (K := 2 ^ (e2 - e1)) in *. clearbody K. nia.
Qed.

Lemma encode_nonneg (N e : Z) : 0 <= N -> SFleb (S754_zero false) (encode N e) = true.
Proof.
  intros H. unfold encode. destruct N as [| p | p]; [reflexivity | | lia].
  destruct (Zpos p =? 2 ^ 53); reflexivity.
Qed.

Lemma square_nonneg (m : positive) (e : Z) :
  valid_binary (S754_finite false m e) = true -> e <= -52 ->
  SFleb (S754_zero false)
        (SF64mul (S754_finite false m e) (S754_finite false m e)) = true.
Proof.
  intros Hv He. rewrite square_round by assumption.
  pose proof (square_exponent false m e Hv He) as [Hn _].
  apply encode_nonneg.
  apply (nearest_even_spec (Zpos (m * m))); lia.
Qed.

(** Squaring is monotone on the binary64 numbers between 0 and 1. *)
Lemma square_mono (a b : float) :
  (0 <=? a)%float = true -> (a <=? b)%float = true -> (b <=? 1)%float = true ->
  (a * a <=? b * b)%float = true.
Proof.
  rewrite !leb_spec, !mul_spec, SF_0, SF_1.
  pose proof (Prim2SF_valid a) as Hva. pose proof (Prim2SF_valid b) as Hvb.
  destruct (Prim2SF a) as [sa | sa | | sa ma ea], (Prim2SF b) as [sb | sb | | sb mb eb];
    try destruct sa; try destruct sb; try discriminate; try reflexivity;
    intros H0 Hab Hb1.
  - (* a is -0 *)
    apply square_nonneg; [assumption | eapply SFleb_one; eassumption].
  - (* a is +0 *)
    apply square_nonneg; [assumption | eapply SFleb_one; eassumption].
  - apply square_mono_SF; try assumption. eapply SFleb_one; eassumption.
Qed.

(** *** The order is transitive and total on numbers *)

Ltac compare_cases :=
  repeat match goal with
  | H : context [Z.compare ?a ?b] |- _ => destruct (Z.compare_spec a b)
  | |- context [Z.compare ?a ?b] => destruct (Z.compare_spec a b)
  | H : context [Pos.compare_cont Eq ?a ?b] |- _ =>
      change (Pos.compare_cont Eq a b) with (Pos.compare a b) in H;
      destruct (Pos.compare_spec a b)
  | |- context [Pos.compare_cont Eq ?a ?b] =>
      change (Pos.compare_cont Eq a b) with (Pos.compare a b);
      destruct (Pos.compare_spec a b)
  end.

Lemma SFleb_ltb_trans (x y z : spec_float) :
  SFleb x y = true -> SFltb y z = true -> SFltb x z = true.
Proof.
  unfold SFleb, SFltb.
  destruct x as [sx | sx | | sx mx ex], y as [sy | sy | | sy my ey],
           z as [sz | sz | | sz mz ez];
    try destruct sx; try destruct sy; try destruct sz; cbn [SFcompare CompOpp];
    try discriminate; try reflexivity;
    intros H1 H2; compare_cases; cbn in *; try discriminate; try reflexivity; lia.
Qed.

Lemma SFltb_leb (x y : spec_float) : SFltb x y = true -> SFleb x y = true.
Proof. unfold SFltb, SFleb. destruct (SFcompare x y) as [[| |] |]; congruence. Qed.

Lemma ltb_trans (x y z : float) :
  (x <? y)%float = true -> (y <? z)%float = true -> (x <? z)%float = true.
Proof.
  rewrite !ltb_spec. intros H1 H2.
  eapply SFleb_ltb_trans; [apply SFltb_leb |]; eassumption.
Qed.

Lemma ltb_not_leb (x y : float) : (y <? x)%float = true -> (x <=? y)%float = false.
Proof.
  rewrite ltb_spec, leb_spec. unfold SFltb, SFleb.
  rewrite (SFcompare_antisym (Prim2SF y) (Prim2SF x)).
  destruct (SFcompare (Prim2SF y) (Prim2SF x)) as [[| |] |]; cbn; congruence.
Qed.

Lemma not_leb_ltb (x y : float) :
  is_nan x = false -> is_nan y = false -> (x <=? y)%float = false -> (y <? x)%float = true.
Proof.
  rewrite !is_nan_SF, ltb_spec, leb_spec. unfold SFltb, SFleb.
  rewrite (SFcompare_antisym (Prim2SF x) (Prim2SF y)).
  destruct (Prim2SF x) as [sx | sx | | sx mx ex], (Prim2SF y) as [sy | sy | | sy my ey];
    try discriminate; intros _ _;
    match goal with |- context [SFcompare ?a ?b] =>
      destruct (SFcompare a b) as [[| |] |] eqn:E end; cbn; try congruence;
    try destruct sx; try destruct sy; discriminate.
Qed.

End Binary64.

Import Binary64.

(** ** The severity classifier *)

Section Scan.

Variable RBR : float.

Lemma scan_first_match (rows : list Threshold) (alpha0 : float) (i : nat) (row : Threshold) :
  first_match RBR rows i -> nth_error rows i = Some row ->
  scan_thresholds RBR rows alpha0 = alpha row.
Proof.
  revert i. induction rows as [| t rows IH]; intros i [[r [Hr Hle]] Hbefore] Hrow.
  - destruct i; discriminate.
  - destruct i as [| i]; cbn [scan_thresholds].
    + cbn in Hr, Hrow. injection Hr as <-. injection Hrow as <-. now rewrite Hle.
    + rewrite (Hbefore 0%nat t) by (try reflexivity; lia).
      apply (IH i); [| exact Hrow].
      split; [exists r; auto |].
      intros j row' Hj Hrow'. apply (Hbefore (S j)); [lia | exact Hrow'].
Qed.

Lemma scan_no_match (rows : list Threshold) (alpha0 : float) :
  (forall i, ~ first_match RBR rows i) -> scan_thresholds RBR rows alpha0 = alpha0.
Proof.
  induction rows as [| t rows IH]; intros Hno; [reflexivity |].
  cbn [scan_thresholds]. destruct (RBR <=? max t) eqn:E.
  - exfalso. apply (Hno 0%nat). split; [exists t; auto |]. intros j row Hj. lia.
  - apply IH. intros i [[r [Hr Hle]] Hbefore]. apply (Hno (S i)).
    split; [exists r; auto |].
    intros [| j] row Hj Hrow; cbn in Hrow; [now injection Hrow as <- |].
    apply (Hbefore j); [lia | exact Hrow].
Qed.

Lemma first_match_unique (rows : list Threshold) (i j : nat) :
  first_match RBR rows i -> first_match RBR rows j -> i = j.
Proof.
  intros [[ri [Hri Hi]] Hbi] [[rj [Hrj Hj]] Hbj].
  destruct (Nat.lt_trichotomy i j) as [Hlt | [Heq | Hgt]]; [| exact Heq |].
  - rewrite (Hbj i ri Hlt Hri) in Hi. discriminate.
  - rewrite (Hbi j rj Hgt Hrj) in Hj. discriminate.
Qed.

(** A scan over a list with an accepting row stops at some first one. *)
Lemma first_match_exists (rows : list Threshold) :
  (exists row, In row rows /\ (RBR <=? max row) = true) ->
  exists i, first_match RBR rows i.
Proof.
  induction rows as [| t rows IH]; intros [row [Hin Hle]]; [destruct Hin |].
  destruct (RBR <=? max t) eqn:E.
  - exists 0%nat. split; [exists t; auto |]. intros j r Hj. lia.
  - destruct Hin as [-> | Hin]; [congruence |].
    destruct IH as [i [[r [Hr Hler]] Hbefore]]; [exists row; auto |].
    exists (S i). split; [exists r; auto |].
    intros [| j] r' Hj Hr'; cbn in Hr'; [now injection Hr' as <- |].
    apply (Hbefore j); [lia | exact Hr'].
Qed.

End Scan.

Lemma ascending_lt (rows : list Threshold) (j k : nat) (a b : Threshold) :
  ascending (map max rows) = true -> (j < k)%nat ->
  nth_error rows j = Some a -> nth_error rows k = Some b ->
  (max a <? max b) = true.
Proof.
  revert j k a b. induction rows as [| r rows IH]; intros j k a b Hasc Hjk Ha Hb.
  - destruct j; discriminate.
  - assert (Htail : ascending (map max rows) = true).
    { cbn [map ascending] in Hasc. destruct (map max rows) eqn:E; [reflexivity |].
      apply andb_true_iff in Hasc. tauto. }
    destruct j as [| j], k as [| k]; try lia; cbn [nth_error] in Ha, Hb.
    + injection Ha as <-.
      destruct rows as [| r' rows']; [destruct k; discriminate |].
      cbn [map ascending] in Hasc. apply andb_true_iff in Hasc. destruct Hasc as [Hrr' _].
      destruct k as [| k]; cbn [nth_error] in Hb.
      * now injection Hb as <-.
      * eapply ltb_trans; [exact Hrr' |].
        apply (IH 0%nat (S k) r' b Htail); [lia | reflexivity | exact Hb].
    + apply (IH j k); try assumption. lia.
Qed.

(** With ascending boundaries the first accepting row is the row whose
    band contains RBR. *)
Lemma first_match_in_band (RBR : float) (rows : list Threshold) (i : nat) :
  ascending (map max rows) = true ->
  (forall row, In row rows -> is_nan (max row) = false) ->
  first_match RBR rows i <-> in_band RBR rows i.
Proof.
  intros Hasc Hnum. split.
  - intros [[row [Hrow Hle]] Hbefore]. split; [exists row; auto |].
    destruct i as [| j]; [exact I |].
    destruct (nth_error rows j) as [prev |] eqn:Hprev.
    + exists prev. split; [reflexivity |].
      apply not_leb_ltb.
      * eapply leb_not_nan; eassumption.
      * apply Hnum. eapply nth_error_In; eassumption.
      * apply (Hbefore j); [lia | exact Hprev].
    + exfalso. apply nth_error_None in Hprev.
      assert (nth_error rows (S j) <> None) by congruence.
      apply nth_error_Some in H. lia.
  - intros [[row [Hrow Hle]] Hprev]. split; [exists row; auto |].
    intros j r Hj Hr. destruct i as [| i]; [lia |].
    destruct Hprev as [prev [Hp Hlt]].
    apply ltb_not_leb.
    destruct (Nat.eq_dec j i) as [-> | Hne].
    + rewrite Hp in Hr. now injection Hr as <-.
    + eapply ltb_trans; [| exact Hlt].
      apply (ascending_lt rows j i); try assumption. lia.
Qed.

(** C4. The classifier scans the fixed table (0.10, 0.0), (0.27, 0.3),
    (0.44, 0.5), (0.66, 0.7), (+infinity, 1.0), whose boundaries ascend, and
    returns the alpha of the first row whose max is at least RBR; every RBR
    that is a number (in particular every finite one) has exactly one such
    first row, the row whose band (previous max, max] contains it; an RBR no
    row accepts, which is the case of NaN, leaves the default alpha 0.0. *)
Theorem severity_classifier :
  table = [(0.1, 0.0); (0.27, 0.3); (0.44, 0.5); (0.66, 0.7); (infinity, 1.0)] /\
  ascending (map fst table) = true /\
  (forall RBR i row,
      first_match RBR thresholds i -> nth_error thresholds i = Some row ->
      scan_thresholds RBR thresholds 0 = alpha row) /\
  (forall RBR, is_nan RBR = false ->
      exists i, first_match RBR thresholds i /\
                forall j, first_match RBR thresholds j -> j = i) /\
  (forall RBR, is_finite RBR = true -> is_nan RBR = false) /\
  (forall RBR i, first_match RBR thresholds i <-> in_band RBR thresholds i) /\
  (forall RBR, (forall i, ~ first_match RBR thresholds i) ->
      scan_thresholds RBR thresholds 0 = 0) /\
  (forall RBR, is_nan RBR = true ->
      (forall i, ~ first_match RBR thresholds i) /\
      scan_thresholds RBR thresholds 0 = 0).
Proof.
  split; [reflexivity |]. split; [vm_compute; reflexivity |].
  split; [intros RBR i row; apply scan_first_match |].
  split.
  { intros RBR Hnan.
    destruct (first_match_exists RBR thresholds) as [i Hi].
    - exists {| max := infinity; alpha := 1.0; label := HighSeverity |}.
      split; [cbn; tauto | now apply leb_infinity].
    - exists i. split; [exact Hi |]. intros j Hj. eapply first_match_unique; eassumption. }
  split.
  { intros RBR H. unfold is_finite in H. destruct (is_nan RBR); [discriminate | reflexivity]. }
  split.
  { intros RBR i. apply first_match_in_band; [vm_compute; reflexivity |].
    intros row Hin. cbn in Hin.
    destruct Hin as [<- | [<- | [<- | [<- | [<- | []]]]]]; vm_compute; reflexivity. }
  split; [intros RBR; apply scan_no_match |].
  intros RBR Hnan.
  assert (Hno : forall i, ~ first_match RBR thresholds i).
  { intros i [[row [_ Hle]] _]. rewrite leb_nan in Hle by exact Hnan. discriminate. }
  split; [exact Hno | now apply scan_no_match].
Qed.

Lemma severity_classifier_witness :
  exists i, first_match 0.3 thresholds i /\
            forall j, first_match 0.3 thresholds j -> j = i.
Proof.
  apply severity_classifier. reflexivity.
Defined.

(** ** Colour channels and alpha *)

Lemma getHeatmapColor_channels (RBR : float) :
  is_nan RBR = false ->
  exists r g, getHeatmapColor RBR = [r; g; 0] /\ channel r /\ channel g.
Proof.
  intros H. unfold getHeatmapColor. eexists _, _. split; [reflexivity |]. split.
  - apply clamp_round_channel. eapply mul_finite_not_nan; [apply SF_255 | exact H].
  - apply clamp_round_channel. eapply mul_finite_not_nan; [apply SF_255 |].
    eapply finite_sub_not_nan; [apply SF_1 | exact H].
Qed.

Lemma getHeatmapColor_nan (RBR : float) :
  is_nan RBR = true -> getHeatmapColor RBR = [nan; nan; 0].
Proof. intros H. apply is_nan_eq in H. subst RBR. vm_compute. reflexivity. Qed.

(** When the ratio is NaN no row accepts it: the pixel is transparent and
    its red and green channels are NaN. *)
Lemma evaluatePixel_nan (a b : Sample) :
  JS.includes excludedClasses (SCL a) || JS.includes excludedClasses (SCL b) = false ->
  is_nan (pixelRBR a b) = true ->
  evaluatePixel [a; b] = [nan; nan; 0; 0].
Proof.
  intros Hmask Hnan. rewrite evaluatePixel_pair, Hmask.
  rewrite getHeatmapColor_nan by exact Hnan.
  apply is_nan_eq in Hnan. rewrite Hnan. reflexivity.
Qed.

Lemma scan_thresholds_values (RBR : float) :
  In (scan_thresholds RBR thresholds 0) [0; 0.3; 0.5; 0.7; 1].
Proof.
  unfold thresholds. cbn [scan_thresholds max alpha].
  repeat match goal with |- context [if ?c then _ else _] => destruct c end;
    cbn; tauto.
Qed.

Lemma adjusted_alpha_unit (RBR : float) :
  unit_interval (adjustTransparency (scan_thresholds RBR thresholds 0)).
Proof.
  pose proof (scan_thresholds_values RBR) as H. cbn [In] in H.
  destruct H as [<- | [<- | [<- | [<- | [<- | []]]]]]; split; vm_compute; reflexivity.
Qed.

Lemma channel_not_nan (c : float) : channel c -> is_nan c = false.
Proof.
  intros [k [Hk ->]]. rewrite is_nan_SF. destruct k as [| p | p]; [reflexivity | | lia].
  rewrite of_Z_pos by lia.
  pose proof (normal_form_not_nan false p). destruct (normal_form false p); congruence.
Qed.

(** C6, refuted as stated: a pixel whose two samples have NIR equal to SWIR
    has both indices zero, so the ratio is 0/0; red and green come back NaN,
    which is no integer between 0 and 255. *)
Lemma evaluatePixel_nan_channels :
  evaluatePixel
    [ {| B08 := 0.3; B12 := 0.3; SCL := 4; dataMask := 1 |};
      {| B08 := 0.2; B12 := 0.2; SCL := 4; dataMask := 1 |} ] = [nan; nan; 0; 0] /\
  ~ valid_pixel
      (evaluatePixel
         [ {| B08 := 0.3; B12 := 0.3; SCL := 4; dataMask := 1 |};
           {| B08 := 0.2; B12 := 0.2; SCL := 4; dataMask := 1 |} ]).
Proof.
  assert (E : evaluatePixel
    [ {| B08 := 0.3; B12 := 0.3; SCL := 4; dataMask := 1 |};
      {| B08 := 0.2; B12 := 0.2; SCL := 4; dataMask := 1 |} ] = [nan; nan; 0; 0])
    by (vm_compute; reflexivity).
  split; [exact E |]. rewrite E.
  intros (r & g & b & a & Heq & Hr & _).
  injection Heq as <- _ _ _. apply channel_not_nan in Hr. discriminate.
Qed.

(** C6, amended. Every pixel has four channels, blue 0 and alpha between 0
    and 1; whenever the ratio the evaluator computes is a number (and always
    on masked input) red and green are integers between 0 and 255. *)
Theorem evaluatePixel_range (samples : list Sample) :
  (exists r g a, evaluatePixel samples = [r; g; 0; a] /\ unit_interval a) /\
  (ratio_is_number samples -> valid_pixel (evaluatePixel samples)).
Proof.
  assert (Hzero : exists r g a, [0; 0; 0; 0] = [r; g; 0; a] /\ unit_interval a)
    by (exists 0, 0, 0; split; [reflexivity | split; vm_compute; reflexivity]).
  assert (Hzero' : valid_pixel [0; 0; 0; 0]).
  { exists 0, 0, 0, 0. split; [reflexivity |].
    repeat split; try apply channel_0; vm_compute; reflexivity. }
  destruct samples as [| a [| b [| c rest]]]; try (split; [exact Hzero | intros _; exact Hzero']).
  rewrite evaluatePixel_pair.
  destruct (JS.includes excludedClasses (SCL a) || JS.includes excludedClasses (SCL b)) eqn:E;
    [split; [exact Hzero | intros _; exact Hzero'] |].
  split.
  - unfold getHeatmapColor. cbn [app]. eexists _, _, _. split; [reflexivity |].
    apply adjusted_alpha_unit.
  - intros Hnum. specialize (Hnum a b eq_refl E).
    destruct (getHeatmapColor_channels _ Hnum) as (r & g & -> & Hr & Hg).
    exists r, g, 0, (adjustTransparency (scan_thresholds (pixelRBR a b) thresholds 0)).
    split; [reflexivity |].
    repeat split; try assumption; try apply channel_0; apply adjusted_alpha_unit.
Qed.

Lemma evaluatePixel_range_witness :
  valid_pixel
    (evaluatePixel
       [ {| B08 := 0.5; B12 := 0.1; SCL := 4; dataMask := 1 |};
         {| B08 := 0.2; B12 := 0.3; SCL := 4; dataMask := 1 |} ]).
Proof.
  apply evaluatePixel_range.
  intros a b H _. injection H as <- <-. vm_compute. reflexivity.
Defined.

(** ** The relativized ratio *)

Lemma smoothData_single_value (x : float) :
  smoothData [x] 3 = [(0 + x) / 1].
Proof. vm_compute. reflexivity. Qed.

Lemma smoothedNBR_value (s : Sample) :
  smoothedNBR s = 0 + calculateNBR (B08 s) (B12 s).
Proof.
  unfold smoothedNBR. rewrite smoothData_single_value.
  unfold item. cbn [Z.to_nat nth]. apply div_one.
Qed.

(** Replacing -0 by +0 in either index does not change the ratio. *)
Lemma calculateRBR_zero_add (a b : float) :
  calculateRBR ((0 + a) - (0 + b)) (0 + a) = calculateRBR (a - b) a.
Proof.
  assert (Hz : Prim2SF zero = S754_zero false) by (vm_compute; reflexivity).
  assert (Hn : Prim2SF neg_zero = S754_zero true) by (vm_compute; reflexivity).
  destruct (zero_add a) as [Ha | [-> Ha]], (zero_add b) as [Hb | [-> Hb]];
    rewrite ?Ha, ?Hb; try reflexivity.
  - (* b is -0 and a is not *)
    unfold calculateRBR. f_equal.
    apply Prim2SF_inj. rewrite !sub_spec, Hz, Hn.
    apply (f_equal Prim2SF) in Ha. rewrite add_spec, SF_0 in Ha.
    destruct (Prim2SF a) as [s | s | | s m e]; try destruct s; try reflexivity.
    discriminate.
  - (* a is -0 and b is not *)
    unfold calculateRBR. apply Prim2SF_inj.
    rewrite !div_spec, !sub_spec.
    replace (Prim2SF (PrimFloat.sqrt (PrimFloat.abs zero))) with (S754_zero false)
      by (vm_compute; reflexivity).
    replace (Prim2SF (PrimFloat.sqrt (PrimFloat.abs neg_zero))) with (S754_zero false)
      by (vm_compute; reflexivity).
    rewrite Hz, Hn.
    destruct (Prim2SF b) as [s | s | | s m e]; try destruct s; reflexivity.
Qed.

(** C3, refuted as stated: on the worked example the ratio is about 1.06,
    while (post - pre) / sqrt(|pre|) is about -1.06. *)
Lemma pixelRBR_is_not_post_minus_pre :
  pixelRBR preFireExample postFireExample <>
  (calculateNBR (B08 postFireExample) (B12 postFireExample)
   - calculateNBR (B08 preFireExample) (B12 preFireExample))
  / PrimFloat.sqrt (PrimFloat.abs (calculateNBR (B08 preFireExample) (B12 preFireExample))).
Proof.
  intros H.
  apply (f_equal (fun x => x <? 0)) in H. vm_compute in H. discriminate.
Qed.

(** C3, amended. For every pair of samples that reaches the relativization
    step, the delta passed to the Relativizer is the pre-minus-post
    difference of the two indices and the baseline is the pre-event index, so
    the ratio is (preIndex - postIndex) / sqrt(|preIndex|). *)
Theorem pixelRBR_formula (firstSample lastSample : Sample) :
  let preIndex := calculateNBR (B08 firstSample) (B12 firstSample) in
  let postIndex := calculateNBR (B08 lastSample) (B12 lastSample) in
  pixelRBR firstSample lastSample
    = calculateRBR (smoothedNBR firstSample - smoothedNBR lastSample)
                   (smoothedNBR firstSample) /\
  pixelRBR firstSample lastSample
    = (preIndex - postIndex) / PrimFloat.sqrt (PrimFloat.abs preIndex) /\
  (JS.includes excludedClasses (SCL firstSample)
   || JS.includes excludedClasses (SCL lastSample) = false ->
   evaluatePixel [firstSample; lastSample] =
   getHeatmapColor ((preIndex - postIndex) / PrimFloat.sqrt (PrimFloat.abs preIndex))
   ++ [adjustTransparency
         (scan_thresholds ((preIndex - postIndex) / PrimFloat.sqrt (PrimFloat.abs preIndex))
                          thresholds 0)]).
Proof.
  intros preIndex postIndex.
  assert (H : pixelRBR firstSample lastSample
              = (preIndex - postIndex) / PrimFloat.sqrt (PrimFloat.abs preIndex)).
  { rewrite pixelRBR_unfold, !smoothedNBR_value. apply calculateRBR_zero_add. }
  split; [apply pixelRBR_unfold |]. split; [exact H |].
  intros Hmask. rewrite evaluatePixel_pair, Hmask, H. reflexivity.
Qed.

Lemma pixelRBR_formula_witness :
  evaluatePixel [preFireExample; postFireExample] =
  getHeatmapColor
    ((calculateNBR 0.5 0.1 - calculateNBR 0.2 0.3)
     / PrimFloat.sqrt (PrimFloat.abs (calculateNBR 0.5 0.1)))
  ++ [adjustTransparency
        (scan_thresholds
           ((calculateNBR 0.5 0.1 - calculateNBR 0.2 0.3)
            / PrimFloat.sqrt (PrimFloat.abs (calculateNBR 0.5 0.1)))
           thresholds 0)].
Proof.
  apply (pixelRBR_formula preFireExample postFireExample). reflexivity.
Defined.

(** ** The moving average *)

Section Smoothing.

#[local] Open Scope Z_scope.

Lemma zrange_nil (lo hi : Z) : hi < lo -> zrange lo hi = [].
Proof.
  intros H. unfold zrange. replace (Z.to_nat (hi - lo + 1)) with 0%nat by lia. reflexivity.
Qed.

Lemma zrange_cons (lo hi : Z) : lo <= hi -> zrange lo hi = lo :: zrange (lo + 1) hi.
Proof.
  intros H. unfold zrange.
  replace (Z.to_nat (hi - lo + 1)) with (S (Z.to_nat (hi - (lo + 1) + 1))) by lia.
  cbn [seq map]. f_equal; [lia |].
  rewrite <- seq_shift, map_map. apply map_ext. intros k. lia.
Qed.

Lemma length_zrange (lo hi : Z) : length (zrange lo hi) = Z.to_nat (hi - lo + 1).
Proof. unfold zrange. now rewrite length_map, length_seq. Qed.

Lemma nth_zrange (lo hi : Z) (k : nat) (d : Z) :
  (k < Z.to_nat (hi - lo + 1))%nat -> nth k (zrange lo hi) d = lo + Z.of_nat k.
Proof.
  intros H. unfold zrange.
  rewrite nth_indep with (d' := lo + Z.of_nat 0)
    by now rewrite length_map, length_seq.
  pose proof (map_nth (fun k => lo + Z.of_nat k) (seq 0 (Z.to_nat (hi - lo + 1))) 0%nat k) as E.
  cbn beta in E. rewrite E, seq_nth by exact H. reflexivity.
Qed.

Variable dataset : list float.

Lemma slice_nil (a b : Z) : b < a -> slice dataset a b = [].
Proof. intros H. unfold slice. replace (Z.to_nat (b - a + 1)) with 0%nat by lia. reflexivity. Qed.

Lemma slice_beyond (a b : Z) : Z.of_nat (length dataset) <= a -> slice dataset a b = [].
Proof.
  intros H. unfold slice. rewrite skipn_all2 by lia.
  apply firstn_nil.
Qed.

Lemma skipn_item (a : Z) :
  0 <= a < Z.of_nat (length dataset) ->
  skipn (Z.to_nat a) dataset = item dataset a :: skipn (Z.to_nat (a + 1)) dataset.
Proof.
  intros H. unfold item.
  assert (Hn : (Z.to_nat a < length dataset)%nat) by lia.
  replace (Z.to_nat (a + 1)) with (S (Z.to_nat a)) by lia.
  clear H. revert Hn. generalize (Z.to_nat a) as n.
  induction dataset as [| x l IH]; intros n Hn; cbn in Hn; [lia |].
  destruct n as [| n]; [reflexivity |].
  cbn [skipn nth]. apply IH. lia.
Qed.

Lemma slice_cons (a b : Z) :
  0 <= a < Z.of_nat (length dataset) -> a <= b ->
  slice dataset a b = item dataset a :: slice dataset (a + 1) b.
Proof.
  intros Ha Hb. unfold slice. rewrite skipn_item by exact Ha.
  replace (Z.to_nat (b - a + 1)) with (S (Z.to_nat (b - (a + 1) + 1))) by lia.
  reflexivity.
Qed.

(** The inner loop over lo, ..., hi adds up exactly the elements whose
    positions lie inside the sequence, and counts them. *)
Lemma window_loop (n : nat) :
  forall (lo hi : Z) (sum : float) (count : Z),
    Z.to_nat (hi - lo + 1) = n ->
    let inside := slice dataset (Z.max 0 lo) (Z.min (Z.of_nat (length dataset) - 1) hi) in
    fold_left (window_step dataset) (zrange lo hi) (sum, count) =
    (fold_left PrimFloat.add inside sum, count + Z.of_nat (length inside)).
Proof.
  induction n as [| n IH]; intros lo hi sum count Hn; cbv zeta in *.
  - rewrite zrange_nil by lia. rewrite slice_nil by lia. cbn. f_equal. lia.
  - rewrite zrange_cons by lia. cbn [fold_left]. unfold window_step at 2.
    destruct (Z.leb_spec 0 lo) as [H0 | H0]; cbn [andb].
    + destruct (Z.ltb_spec lo (Z.of_nat (length dataset))) as [H1 | H1].
      * rewrite IH by lia.
        replace (Z.max 0 lo) with lo by lia.
        replace (Z.max 0 (lo + 1)) with (lo + 1) by lia.
        rewrite (slice_cons lo) by lia.
        cbn [fold_left length]. f_equal. lia.
      * rewrite IH by lia.
        rewrite !slice_beyond by lia. reflexivity.
    + rewrite IH by lia.
      replace (Z.max 0 (lo + 1)) with (Z.max 0 lo) by lia. reflexivity.
Qed.

Lemma window_sum_mean (windowSize i : Z) :
  (let '(sum, count) := window_sum dataset windowSize i in sum / JS.of_Z count)%float
  = mean (window dataset (windowSize / 2) i).
Proof.
  unfold window_sum. rewrite (window_loop _ _ _ _ _ eq_refl).
  unfold mean, window. reflexivity.
Qed.

Lemma length_smoothData (windowSize : Z) :
  length (smoothData dataset windowSize) = length dataset.
Proof. unfold smoothData. rewrite length_map, length_zrange. lia. Qed.

Lemma item_smoothData (windowSize i : Z) :
  0 <= i < Z.of_nat (length dataset) ->
  item (smoothData dataset windowSize) i = mean (window dataset (windowSize / 2) i).
Proof.
  intros Hi. unfold item, smoothData.
  set (f := fun i => (let '(sum, count) := window_sum dataset windowSize i in
                      sum / JS.of_Z count)%float).
  rewrite nth_indep with (d' := f 0)
    by (rewrite length_map, length_zrange; lia).
  rewrite map_nth, nth_zrange by lia. unfold f.
  replace (0 + Z.of_nat (Z.to_nat i)) with i by lia.
  apply window_sum_mean.
Qed.

End Smoothing.

Lemma smoothData_single (x : float) (windowSize : Z) :
  (0 < windowSize)%Z -> smoothData [x] windowSize = [0 + x].
Proof.
  intros Hw.
  pose proof (length_smoothData [x] windowSize) as Hlen.
  pose proof (item_smoothData [x] windowSize 0) as Hitem.
  destruct (smoothData [x] windowSize) as [| y [| z l]]; try discriminate.
  f_equal. change (item [y] 0) with y in Hitem. rewrite Hitem by (cbn; lia).
  assert (Hh : (0 <= windowSize / 2)%Z) by (apply Z.div_pos; lia).
  unfold window, slice. cbn [length].
  replace (Z.max 0 (0 - windowSize / 2)) with 0%Z by lia.
  replace (Z.min (Z.of_nat 1 - 1) (0 + windowSize / 2)) with 0%Z by lia.
  cbn [Z.to_nat Z.sub Z.add Z.opp Pos.to_nat Pos.iter_op skipn firstn].
  unfold mean. cbn [fold_left length].
  replace (JS.of_Z (Z.of_nat 1)) with 1 by (vm_compute; reflexivity).
  apply div_one.
Qed.

Lemma In_zrange (lo hi j : Z) : In j (zrange lo hi) <-> (lo <= j <= hi)%Z.
Proof.
  unfold zrange. rewrite in_map_iff. split.
  - intros (k & <- & Hk). apply in_seq in Hk. lia.
  - intros H. exists (Z.to_nat (j - lo)). split; [lia |]. apply in_seq. lia.
Qed.

(** For an odd window size below 2^53 and an array of fewer than 2^32
    elements, every value the loop counter takes, the last one that fails
    the test included, is an integer that binary64 holds exactly. *)
Lemma window_counter_exact (dataset : list float) (windowSize i j : Z) :
  (0 < windowSize < 2 ^ 53)%Z -> Z.odd windowSize = true ->
  (Z.of_nat (length dataset) < 2 ^ 32)%Z ->
  (0 <= i < Z.of_nat (length dataset))%Z ->
  In j (zrange (i - windowSize / 2) (i + windowSize / 2 + 1)) ->
  (- 2 ^ 53 < j <= 2 ^ 53)%Z.
Proof.
  intros Hw Hodd Hlen Hi Hj. apply In_zrange in Hj.
  rewrite (Z.div_mod windowSize 2) in Hw by lia.
  rewrite Zmod_odd, Hodd in Hw.
  assert (H53 : (2 ^ 53 = 2 * 2 ^ 52)%Z) by reflexivity.
  assert (H32 : (2 ^ 32 < 2 ^ 52)%Z) by reflexivity.
  set (B := (2 ^ 52)%Z) in *. set (C := (2 ^ 32)%Z) in *.
  set (h := (windowSize / 2)%Z) in *. clearbody B C h. lia.
Qed.

Lemma eqb_zero_add (x : float) : is_nan x = false -> (0 + x =? x) = true.
Proof.
  intros Hx. destruct (zero_add x) as [-> | [-> ->]]; [| reflexivity].
  rewrite eqb_spec. unfold SFeqb. rewrite SFcompare_refl; [reflexivity |].
  rewrite is_nan_SF in Hx. intros E. rewrite E in Hx. discriminate.
Qed.

(** C7, refuted as stated: with the odd window size 3 the single element
    -0 comes back as +0.  The two are equal under [===] but they are not
    the same number: 1 divided by the element is -infinity, 1 divided by
    what comes back is +infinity. *)
Lemma smoothData_single_changed :
  Z.odd 3 = true /\
  smoothData [neg_zero] 3 = [zero] /\ [zero] <> [neg_zero] /\
  1 / neg_zero = neg_infinity /\
  1 / item (smoothData [neg_zero] 3) 0 = infinity.
Proof.
  split; [reflexivity |]. split; [vm_compute; reflexivity |]. split.
  - intros H. apply (f_equal (fun l => nth 0 l 0)) in H. now apply zero_neq_neg_zero.
  - split; vm_compute; reflexivity.
Qed.

(** C7, amended. For every sequence and odd window size w, smoothData
    returns a sequence of equal length whose i-th element is the arithmetic
    mean (summed from the left, starting at 0) of the elements within
    floor(w/2) positions of i that lie inside the sequence;
    smoothData([1,2,3,4,5], 3) = [1.5, 2, 3, 4, 4.5]; and a single-element
    sequence comes back with the same number: unchanged, except that -0
    comes back as +0, and always equal to the element under [===] when the
    element is a number.  A window size is positive; an odd number in
    binary64 is below 2^53 and an array has fewer than 2^32 elements, which
    is where the loop counter of the source is exact. *)
Theorem smoothData_windowed_mean (dataset : list float) (windowSize : Z) :
  Z.odd windowSize = true -> (0 < windowSize < 2 ^ 53)%Z ->
  (Z.of_nat (length dataset) < 2 ^ 32)%Z ->
  length (smoothData dataset windowSize) = length dataset /\
  (forall i, (0 <= i < Z.of_nat (length dataset))%Z ->
             item (smoothData dataset windowSize) i
             = mean (window dataset (windowSize / 2) i)) /\
  smoothData [1; 2; 3; 4; 5] 3 = [1.5; 2; 3; 4; 4.5] /\
  (forall x, smoothData [x] windowSize = [x] \/
             (x = neg_zero /\ smoothData [x] windowSize = [zero])) /\
  (forall x, is_nan x = false ->
             (item (smoothData [x] windowSize) 0 =? x) = true).
Proof.
  intros Hodd Hw Hlen.
  split; [apply length_smoothData |].
  split; [intros i; apply item_smoothData |].
  split; [vm_compute; reflexivity |].
  split; intros x.
  - rewrite smoothData_single by lia.
    destruct (zero_add x) as [-> | [-> ->]]; [left | right]; auto.
  - intros Hx. rewrite smoothData_single by lia.
    unfold item. cbn [Z.to_nat nth]. now apply eqb_zero_add.
Qed.

Lemma smoothData_windowed_mean_witness :
  item (smoothData [1; 2; 3; 4; 5] 3) 4 = mean (window [1; 2; 3; 4; 5] (3 / 2) 4) /\
  (smoothData [7] 5 = [7] \/ (7 = neg_zero /\ smoothData [7] 5 = [zero])).
Proof.
  split.
  - apply (smoothData_windowed_mean [1; 2; 3; 4; 5] 3);
      [reflexivity | split; reflexivity | reflexivity | cbn; lia].
  - apply (smoothData_windowed_mean [7] 5);
      [reflexivity | split; reflexivity | reflexivity].
Defined.

(** ** The alpha adjustment *)

(** C9. The alpha adjustment maps a to its square a * a and is monotonically
    non-decreasing on [0,1]; adjustTransparency(0) = 0,
    adjustTransparency(1) = 1 and adjustTransparency(0.5) = 0.25. *)
Theorem adjustTransparency_square_monotone :
  (forall a, adjustTransparency a = a * a) /\
  (forall a b, (0 <=? a) = true -> (a <=? b) = true -> (b <=? 1) = true ->
               (adjustTransparency a <=? adjustTransparency b) = true) /\
  adjustTransparency 0 = 0 /\
  adjustTransparency 1 = 1 /\
  adjustTransparency 0.5 = 0.25.
Proof.
  split; [reflexivity |]. split; [exact square_mono |].
  repeat split; vm_compute; reflexivity.
Qed.

Lemma adjustTransparency_square_monotone_witness :
  (adjustTransparency 0.3 <=? adjustTransparency 0.7) = true.
Proof.
  apply adjustTransparency_square_monotone; reflexivity.
Defined.

(** * Further properties of the code *)

(** ** More binary64 arithmetic: overflow, signs, bounds kept by rounding *)

Module Bounds.

#[local] Open Scope Z_scope.

Lemma round_aux_overflow_spec (M : positive) (E : Z) :
  E < round_exponent M E ->
  binary_round_aux prec emax false (Zpos M) E loc_Exact
  = overflow (encode (nearest_even (Zpos M) (round_exponent M E - E)) (round_exponent M E)).
Proof.
  unfold round_exponent. set (e' := Z.max (Zpos (digits2_pos M) + E - 53) (-1074)).
  intros Hn.
  unfold binary_round_aux, shr_fexp.
  cbn [Zdigits2 shr_record_of_loc]. unfold fexp, SpecFloat.emin, prec, emax.
  replace (3 - 1024 - 53) with (-1074) by reflexivity.
  fold e'.
  rewrite shr_pos by lia.
  destruct (Z.to_nat (e' - E)) as [| j] eqn:Ej; [lia |].
  rewrite round_shifted by lia.
  replace (Z.of_nat (S j)) with (e' - E) by lia.
  replace (E + (e' - E)) with e' by lia.
  pose proof (nearest_even_bound M (e' - E) ltac:(lia) ltac:(lia)) as [HN0 HN].
  set (N := nearest_even (Zpos M) (e' - E)) in *.
  clearbody N.
  destruct N as [| p | p]; [| | lia].
  - rewrite shr_noop by (cbn [Zdigits2]; lia). reflexivity.
  - cbn [Zdigits2]. unfold encode, overflow.
    pose proof (digits2_pos_bounds p) as [Hplo Hphi].
    change (1024 - 53) with 971.
    destruct (Z.eqb_spec (Zpos p) (2 ^ 53)) as [H53 | H53].
    + assert (Hd : Zpos (digits2_pos p) = 54).
      { apply digits2_pos_unique. rewrite H53. split; [reflexivity | reflexivity]. }
      rewrite Hd. replace (Z.max (54 + e' - 53) (-1074) - e') with 1 by lia.
      destruct p as [p' | p' |].
      * exfalso. rewrite Pos2Z.inj_xI in H53.
        assert (H : 2 ^ 53 = 2 * 2 ^ 52) by reflexivity. lia.
      * cbn [shr iter_pos shr_1 shr_m orb Pos.div2]. reflexivity.
      * exfalso. assert (1 < 2 ^ 53) by reflexivity. lia.
    + assert (Hd : Zpos (digits2_pos p) <= 53) by (apply small_digits; lia).
      rewrite shr_noop by lia. cbn [shr_m]. reflexivity.
Qed.

Lemma SFleb_overflow (m : positive) (e : Z) (f : spec_float) :
  SFleb (S754_finite false m e) f = true ->
  SFleb (S754_finite false m e) (overflow f) = true.
Proof.
  destruct f as [s | s | | s m' e']; cbn [overflow]; try (intros H; exact H).
  destruct (e' <=? 971); [intros H; exact H |].
  destruct s; [discriminate | reflexivity].
Qed.

(** Rounding keeps a number at or above every float it is at or above. *)
Lemma round_aux_ge (mc M : positive) (ec E E0 : Z) :
  valid_binary (S754_finite false mc ec) = true ->
  E0 < ec -> E0 <= E ->
  Zpos mc * 2 ^ (ec - E0) <= Zpos M * 2 ^ (E - E0) ->
  E < round_exponent M E ->
  SFleb (S754_finite false mc ec)
        (binary_round_aux prec emax false (Zpos M) E loc_Exact) = true.
Proof.
  intros Hv H0 H1 Hle Hn.
  rewrite round_aux_overflow_spec by exact Hn. apply SFleb_overflow.
  pose proof (valid_digits _ _ _ Hv) as Hlt.
  apply valid_cases in Hv. destruct Hv as [_ Hd].
  assert (Hr : round_exponent (mc~0) (ec - 1) = ec).
  { unfold round_exponent. cbn [digits2_pos]. rewrite Pos2Z.inj_succ. lia. }
  pose proof (round_mono (mc~0) M (ec - 1) E E0 ltac:(lia) H1) as Hm.
  rewrite Hr in Hm.
  replace (ec - (ec - 1)) with 1 in Hm by lia.
  assert (Hne : nearest_even (Zpos mc~0) 1 = Zpos mc).
  { unfold nearest_even. change (2 ^ 1) with 2.
    replace (Zpos mc~0) with (Zpos mc * 2) by lia.
    rewrite Z.mod_mul, Z.div_mul by lia. reflexivity. }
  rewrite Hne in Hm.
  assert (Henc : encode (Zpos mc) ec = S754_finite false mc ec).
  { unfold encode. destruct (Z.eqb_spec (Zpos mc) (2 ^ 53)); [lia | reflexivity]. }
  rewrite Henc in Hm. apply Hm; [| lia | exact Hn].
  rewrite Pos2Z.inj_xO.
  replace (ec - E0) with (Z.succ (ec - 1 - E0)) in Hle by lia.
  rewrite Z.pow_succ_r in Hle by lia. lia.
Qed.


Lemma round_aux_signed (s : bool) (m e : Z) (l : location) :
  0 <= m -> signed s (binary_round_aux prec emax s m e l).
Proof.
  intros H. unfold binary_round_aux.
  pose proof (shr_fexp_nonneg m e l H) as H1.
  destruct (shr_fexp prec emax m e l) as [mrs' e'].
  cbn [fst] in H1.
  pose proof (shr_fexp_nonneg _ e' loc_Exact
                (round_nearest_even_nonneg _ (loc_of_shr_record mrs') H1)) as H2.
  destruct (shr_fexp prec emax _ e' loc_Exact) as [mrs'' e''].
  cbn [fst] in H2.
  destruct (shr_m mrs''); [reflexivity | | lia].
  destruct (e'' <=? emax - prec); reflexivity.
Qed.

Lemma signed_nonpositive (f : spec_float) : signed true f -> nonpositive f = true.
Proof. destruct f; cbn; try tauto; intros ->; reflexivity. Qed.

Lemma normalize_negative (p : positive) (e : Z) (sz : bool) :
  signed true (binary_normalize prec emax (Zneg p) e sz).
Proof.
  cbn [binary_normalize]. unfold binary_round. destruct (shl_align _ _ _).
  apply round_aux_signed. lia.
Qed.

Lemma nonpositive_not_nan (x : float) : nonpositive (Prim2SF x) = true -> is_nan x = false.
Proof. rewrite is_nan_SF. now destruct (Prim2SF x). Qed.

Lemma SFltb_zero_nonpositive (f : spec_float) :
  nonpositive f = true -> SFltb (S754_zero false) f = false.
Proof. destruct f as [s | s | | s m e]; try destruct s; cbn; congruence. Qed.

Lemma SF_neg_zero : Prim2SF neg_zero = S754_zero true.
Proof. vm_compute. reflexivity. Qed.

(** A number at zero or below is rounded to zero or below. *)
Lemma Math_round_nonpositive (x : float) :
  nonpositive (Prim2SF x) = true -> nonpositive (Prim2SF (JS.Math_round x)) = true.
Proof.
  unfold JS.Math_round.
  pose proof (Prim2SF_valid x) as Hv.
  destruct (Prim2SF x) as [s | s | | s m e] eqn:E; try (rewrite E; tauto).
  cbn [nonpositive]. intros ->.
  destruct (0 <=? e) eqn:He; [now rewrite E |]. apply Z.leb_gt in He.
  apply valid_digits in Hv.
  match goal with |- context [(?a / ?b =? 0)] => set (n := a / b) end.
  assert (Hn : - 2 ^ 53 < n < 2 ^ 53)
    by (apply round_integer_bound; [lia | exact He]).
  assert (Hle : n <= 0).
  { assert (n < 1); [| lia]. apply Z.div_lt_upper_bound.
    - apply Z.pow_pos_nonneg; lia.
    - replace (1 - e) with (Z.succ (- e)) by lia. rewrite Z.pow_succ_r by lia.
      assert (0 < 2 ^ (- e)) by (apply Z.pow_pos_nonneg; lia). lia. }
  destruct (n =? 0); [now rewrite SF_neg_zero |].
  destruct n as [| p | p]; [reflexivity | lia |].
  rewrite of_Z_neg by lia. unfold normal_form.
  destruct (53 - Zpos (digits2_pos p)); reflexivity.
Qed.

(** A floor of zero: a product at zero or below gives channel 0. *)
Lemma clamp_low (y : float) :
  nonpositive (Prim2SF y) = true ->
  JS.Math_min 255 (JS.Math_max 0 (JS.Math_round y)) = 0%float.
Proof.
  intros Hy. rewrite clamp_cases by now apply Math_round_not_nan, nonpositive_not_nan.
  rewrite ltb_spec, SF_0, SFltb_zero_nonpositive; [reflexivity |].
  now apply Math_round_nonpositive.
Qed.

(** A ceiling of 255: a product at 255 or above gives channel 255. *)
Lemma clamp_high (y : float) :
  SFleb (Prim2SF 255) (Prim2SF y) = true ->
  JS.Math_min 255 (JS.Math_max 0 (JS.Math_round y)) = 255%float.
Proof.
  intros Hy.
  assert (Hnan : is_nan y = false).
  { rewrite is_nan_SF. destruct (Prim2SF y); try reflexivity.
    rewrite SF_255 in Hy. discriminate. }
  rewrite clamp_cases by now apply Math_round_not_nan.
  assert (H : SFltb (S754_zero false) (Prim2SF (JS.Math_round y)) = true /\
              SFltb (Prim2SF (JS.Math_round y)) (Prim2SF 255) = false).
  { unfold JS.Math_round.
    pose proof (Prim2SF_valid y) as Hv.
    assert (Hv255 : valid_binary (Prim2SF 255) = true) by apply Prim2SF_valid.
    rewrite SF_255 in Hy, Hv255.
    destruct (Prim2SF y) as [s | s | | s m e] eqn:E; try discriminate.
    - rewrite E. destruct s; [discriminate |]. rewrite SF_255. split; reflexivity.
    - destruct s; [discriminate |].
      destruct (SFleb_finite_order _ _ _ _ Hv255 Hv Hy) as [He Hm].
      assert (Hself : SFltb (S754_zero false) (S754_finite false m e) = true /\
                      SFltb (S754_finite false m e) (Prim2SF 255) = false).
      { split; [reflexivity |]. rewrite SF_255.
        rewrite SFleb_finite_pos in Hy. rewrite SFltb_finite_pos.
        destruct (Z.compare_spec (-45) e) as [<- | Hlt | Hgt]; try discriminate.
        - rewrite Z.compare_refl. apply Pos.leb_le in Hy. apply Pos.ltb_ge. lia.
        - destruct (Z.compare_spec e (-45)); [lia | lia | reflexivity]. }
      destruct (0 <=? e) eqn:He0; [now rewrite E |]. apply Z.leb_gt in He0.
      apply valid_digits in Hv.
      match goal with |- context [(?a / ?b =? 0)] => set (n := a / b) end.
      assert (Hn : - 2 ^ 53 < n < 2 ^ 53)
        by (apply round_integer_bound; [lia | exact He0]).
      assert (Hge : 255 <= n).
      { apply Z.div_le_lower_bound; [apply Z.pow_pos_nonneg; lia |].
        replace (1 - e) with (Z.succ (- e)) by lia. rewrite Z.pow_succ_r by lia.
        assert (H45 : 2 ^ 45 = 2 ^ (- e) * 2 ^ (e - -45)).
        { rewrite <- Z.pow_add_r by lia. f_equal. lia. }
        assert (H255 : 8972014882652160 = 255 * 2 ^ 45) by reflexivity.
        assert (0 < 2 ^ (e - -45)) by (apply Z.pow_pos_nonneg; lia).
        assert (0 < 2 ^ (- e)) by (apply Z.pow_pos_nonneg; lia).
        change (Z.pos 8972014882652160) with 8972014882652160 in Hm.
        rewrite H255, H45 in Hm.
        set (K := 2 ^ (e - -45)) in *. set (T := 2 ^ (- e)) in *.
        clearbody K T. nia. }
      destruct (Z.eqb_spec n 0) as [H0 | H0]; [lia |].
      destruct n as [| p | p]; try lia.
      rewrite of_Z_pos by lia. split; [| now apply normal_form_ge_255].
      unfold normal_form. destruct (53 - Zpos (digits2_pos p)); reflexivity. }
  destruct H as [H0 H1]. rewrite !ltb_spec, SF_0, H0, H1. reflexivity.
Qed.


(** *** Products with 255 *)

Lemma mul_255_nonpositive (x : spec_float) :
  nonpositive x = true -> nonpositive (SF64mul x (Prim2SF 255)) = true.
Proof.
  rewrite SF_255. destruct x as [s | s | | s m e]; cbn [nonpositive]; try discriminate.
  - reflexivity.
  - intros ->. reflexivity.
  - intros ->. unfold SF64mul, SFmul. cbn [xorb].
    apply signed_nonpositive, round_aux_signed. lia.
Qed.

Lemma mul_255_ge (x : spec_float) :
  valid_binary x = true ->
  SFleb (Prim2SF 1) x = true ->
  SFleb (Prim2SF 255) (SF64mul x (Prim2SF 255)) = true.
Proof.
  intros Hv Hx.
  assert (Hv255 : valid_binary (Prim2SF 255) = true) by apply Prim2SF_valid.
  assert (Hv1 : valid_binary (Prim2SF 1) = true) by apply Prim2SF_valid.
  rewrite SF_1 in Hx, Hv1. rewrite SF_255 in *.
  destruct x as [s | s | | s m e]; try discriminate.
  - destruct s; [discriminate | reflexivity].
  - destruct s; [discriminate |].
    destruct (SFleb_finite_order _ _ _ _ Hv1 Hv Hx) as [He Hm].
    unfold SF64mul, SFmul. cbn [xorb].
    set (c := 8972014882652160%positive) in *.
    assert (Hc : 2 ^ 52 <= Zpos c) by (unfold c; vm_compute; discriminate).
    assert (H1 : Z.pos 4503599627370496 = 2 ^ 52) by reflexivity.
    rewrite H1 in Hm. clear H1.
    pose proof (valid_cases _ _ _ Hv) as [_ Hd].
    pose proof (digits2_pos_bounds m) as [Hlo _].
    assert (Hdm : Zpos (digits2_pos m) = 53) by lia.
    rewrite Hdm in Hlo. change (53 - 1) with 52 in Hlo.
    pose proof (digits2_pos_bounds (m * c)) as [_ Hhi].
    rewrite Pos2Z.inj_mul in Hhi.
    assert (Hdig : 105 <= Zpos (digits2_pos (m * c))).
    { assert (H : 2 ^ 104 < 2 ^ Zpos (digits2_pos (m * c))).
      { assert (H104 : 2 ^ 104 = 2 ^ 52 * 2 ^ 52) by reflexivity.
        assert (0 < 2 ^ 52) by reflexivity.
        set (B := 2 ^ 52) in *. clearbody B c. nia. }
      apply Z.pow_lt_mono_r_iff in H; lia. }
    apply round_aux_ge with (E0 := -98).
    + exact Hv255.
    + lia.
    + lia.
    + rewrite Pos2Z.inj_mul.
      replace (e + -45 - -98) with ((e - -52) + 1) by lia.
      replace (-45 - -98) with 53 by lia.
      rewrite Z.pow_add_r by lia. change (2 ^ 1) with 2.
      assert (H53 : 2 ^ 53 = 2 ^ 52 * 2) by reflexivity. rewrite H53.
      assert (0 < 2 ^ 52) by reflexivity.
      assert (0 < 2 ^ (e - -52)) by (apply Z.pow_pos_nonneg; lia).
      set (B := 2 ^ 52) in *. set (K := 2 ^ (e - -52)) in *. clearbody B K c. nia.
    + unfold round_exponent. clearbody c. lia.
Qed.

(** *** Differences *)

Lemma shl_align_value (m : positive) (e ez : Z) :
  ez <= e -> Zpos (fst (shl_align m e ez)) = Zpos m * 2 ^ (e - ez).
Proof.
  intros H. unfold shl_align.
  destruct (ez - e) as [| d | d] eqn:E; try lia.
  - replace (e - ez) with 0 by lia. cbn [fst]. lia.
  - cbn [fst]. rewrite iter_xO_value. f_equal. f_equal. lia.
Qed.

Lemma SFleb_finite_neg (m1 m2 : positive) (e1 e2 : Z) :
  SFleb (S754_finite true m1 e1) (S754_finite true m2 e2)
  = SFleb (S754_finite false m2 e2) (S754_finite false m1 e1).
Proof.
  unfold SFleb, SFcompare. rewrite (Z.compare_antisym e1 e2).
  destruct (e1 ?= e2); cbn [CompOpp]; try reflexivity.
  change (Pos.compare_cont Eq m1 m2) with (m1 ?= m2)%positive.
  change (Pos.compare_cont Eq m2 m1) with (m2 ?= m1)%positive.
  rewrite (Pos.compare_antisym m1 m2). destruct (m1 ?= m2)%positive; reflexivity.
Qed.

(** The difference of two ordered numbers is not positive. *)
Lemma SFsub_le (x y : spec_float) :
  valid_binary x = true -> valid_binary y = true ->
  SFleb x y = true -> SFltb (S754_zero false) (SF64sub x y) = false.
Proof.
  intros Hvx Hvy Hle.
  destruct x as [sx | sx | | sx mx ex], y as [sy | sy | | sy my ey];
    try discriminate;
    try (destruct sx; try destruct sy; try discriminate; reflexivity);
    try (destruct sy; try discriminate; reflexivity).
  unfold SF64sub, SFsub.
  change (IntDef.Z.min ex ey) with (Z.min ex ey).
  rewrite !shl_align_value by lia.
  assert (Hp1 : 0 < 2 ^ (ex - Z.min ex ey)) by (apply Z.pow_pos_nonneg; lia).
  assert (Hp2 : 0 < 2 ^ (ey - Z.min ex ey)) by (apply Z.pow_pos_nonneg; lia).
  match goal with |- context [binary_normalize _ _ ?d _ _] => set (D := d) end.
  assert (HD : D <= 0).
  { unfold D. destruct sx, sy; cbn [cond_Zopp].
    - rewrite SFleb_finite_neg in Hle.
      destruct (SFleb_finite_order _ _ _ _ Hvy Hvx Hle) as [He Hm].
      replace (Z.min ex ey) with ey by lia.
      rewrite Z.sub_diag, Z.pow_0_r. lia.
    - nia.
    - discriminate.
    - destruct (SFleb_finite_order _ _ _ _ Hvx Hvy Hle) as [He Hm].
      replace (Z.min ex ey) with ex by lia.
      rewrite Z.sub_diag, Z.pow_0_r. lia. }
  clearbody D. destruct D as [| p | p]; [reflexivity | lia |].
  pose proof (normalize_negative p (Z.min ex ey) false) as H.
  destruct (binary_normalize _ _ _ _ _) as [s | s | | s m e]; cbn in H; subst;
    try reflexivity; contradiction.
Qed.

Lemma valid_intro (s : bool) (m : positive) (e : Z) :
  Z.max (Zpos (digits2_pos m) + e - 53) (-1074) = e -> e <= 971 ->
  valid_binary (S754_finite s m e) = true.
Proof.
  intros H1 H2. cbn. unfold bounded, canonical_mantissa, fexp, SpecFloat.emin, prec, emax.
  apply andb_true_intro. split; [apply Z.eqb_eq | apply Z.leb_le]; lia.
Qed.

(** Taking a number at zero or below from 1 leaves 1 or more. *)
Lemma one_sub_ge (x : spec_float) :
  nonpositive x = true -> SFleb (Prim2SF 1) (SF64sub (Prim2SF 1) x) = true.
Proof.
  assert (Hv1 : valid_binary (Prim2SF 1) = true) by apply Prim2SF_valid.
  rewrite SF_1 in *.
  destruct x as [s | s | | s m e]; cbn [nonpositive]; try discriminate.
  - intros _. cbn [SF64sub SFsub]. rewrite SFleb_finite_pos, Z.compare_refl.
    apply Pos.leb_refl.
  - intros ->. reflexivity.
  - intros ->. unfold SF64sub, SFsub.
    change (IntDef.Z.min (-52) e) with (Z.min (-52) e).
    rewrite !shl_align_value by lia. cbn [cond_Zopp].
    set (ez := Z.min (-52) e).
    assert (Hez : ez <= -52) by (unfold ez; lia).
    assert (Hee : ez <= e) by (unfold ez; lia).
    assert (H1 : Z.pos 4503599627370496 = 2 ^ 52) by reflexivity.
    rewrite H1. clear H1.
    rewrite <- Z.pow_add_r by lia. replace (52 + (-52 - ez)) with (- ez) by lia.
    assert (Hpe : 0 < 2 ^ (e - ez)) by (apply Z.pow_pos_nonneg; lia).
    assert (Hpz : 0 < 2 ^ (- ez)) by (apply Z.pow_pos_nonneg; lia).
    match goal with |- context [binary_normalize _ _ ?d _ _] => set (D := d) end.
    assert (HD : 2 ^ (- ez) <= D) by (unfold D; lia).
    clearbody D ez. destruct D as [| P | P]; try lia.
    cbn [binary_normalize]. unfold binary_round.
    unfold fexp, SpecFloat.emin, prec, emax.
    replace (3 - 1024 - 53) with (-1074) by reflexivity.
    pose proof (digits2_pos_bounds P) as [Hlo Hhi].
    assert (Hdig : - ez + 1 <= Zpos (digits2_pos P)).
    { assert (H : 2 ^ (- ez) < 2 ^ Zpos (digits2_pos P)) by lia.
      apply Z.pow_lt_mono_r_iff in H; lia. }
    set (r := Z.max (Zpos (digits2_pos P) + ez - 53) (-1074)).
    assert (Hr : ez <= r) by (unfold r; lia).
    assert (Hsh : shl_align P ez r = (P, ez)).
    { unfold shl_align. destruct (r - ez) eqn:E; try reflexivity. lia. }
    rewrite Hsh.
    destruct (Z.eq_dec ez r) as [Heq | Hne].
    + subst r. assert (ez = -52) by lia. subst ez.
      rewrite round_canonical by (apply valid_intro; lia).
      rewrite SFleb_finite_pos, Z.compare_refl.
      apply Pos.leb_le. change (2 ^ (- -52)) with (Z.pos 4503599627370496) in HD. lia.
    + apply round_aux_ge with (E0 := ez - 1).
      * exact Hv1.
      * lia.
      * lia.
      * replace (-52 - (ez - 1)) with (- ez - 51) by lia.
        replace (ez - (ez - 1)) with 1 by lia. change (2 ^ 1) with 2.
        assert (H : Z.pos 4503599627370496 * 2 ^ (- ez - 51) = 2 ^ (- ez) * 2).
        { change (Z.pos 4503599627370496) with (2 ^ 52).
          rewrite <- Z.pow_add_r by lia.
          replace (52 + (- ez - 51)) with (Z.succ (- ez)) by lia.
          rewrite Z.pow_succ_r by lia. lia. }
        rewrite H. lia.
      * unfold round_exponent. subst r. lia.
Qed.

(** *** Order *)

Lemma SFleb_trans (x y z : spec_float) :
  SFleb x y = true -> SFleb y z = true -> SFleb x z = true.
Proof.
  unfold SFleb.
  destruct x as [sx | sx | | sx mx ex], y as [sy | sy | | sy my ey],
           z as [sz | sz | | sz mz ez];
    try destruct sx; try destruct sy; try destruct sz; cbn [SFcompare CompOpp];
    try discriminate; try reflexivity;
    intros H1 H2; compare_cases; cbn in *; try discriminate; try reflexivity; lia.
Qed.

Lemma leb_trans (x y z : float) :
  (x <=? y)%float = true -> (y <=? z)%float = true -> (x <=? z)%float = true.
Proof. rewrite !leb_spec. apply SFleb_trans. Qed.

Lemma leb_not_ltb (x y : float) : (x <=? y)%float = true -> (y <? x)%float = false.
Proof.
  rewrite ltb_spec, leb_spec. unfold SFltb, SFleb.
  rewrite (SFcompare_antisym (Prim2SF x) (Prim2SF y)).
  destruct (SFcompare (Prim2SF x) (Prim2SF y)) as [[| |] |]; cbn; congruence.
Qed.

(** *** Zeros, doubling and cancellation *)

Lemma SF_nan : Prim2SF nan = S754_nan.
Proof. vm_compute. reflexivity. Qed.

Lemma SF_infinity : Prim2SF infinity = S754_infinity false.
Proof. vm_compute. reflexivity. Qed.

Lemma SF_neg_infinity : Prim2SF neg_infinity = S754_infinity true.
Proof. vm_compute. reflexivity. Qed.

(** A number equal to zero is one of the two zeros. *)
Lemma eqb_zero_SF (x : float) :
  (x =? 0)%float = true -> exists s, Prim2SF x = S754_zero s.
Proof.
  rewrite eqb_spec, SF_0. unfold SFeqb.
  destruct (Prim2SF x) as [s | s | | s m e]; try destruct s; try discriminate;
    intros _; eauto.
Qed.

(** A doubled mantissa at the exponent below rounds back, or overflows. *)
Lemma round_doubled_any (s : bool) (m : positive) (e : Z) :
  Zpos (digits2_pos m) = 53 -> -1074 < e ->
  binary_round_aux prec emax s (Zpos m~0) (e - 1) loc_Exact
  = if e <=? 971 then S754_finite s m e else S754_infinity s.
Proof.
  intros Hd He.
  unfold binary_round_aux, shr_fexp, Zdigits2, shr_record_of_loc, fexp, SpecFloat.emin.
  unfold prec, emax. cbn [digits2_pos]. rewrite Pos2Z.inj_succ, Hd.
  replace (Z.max (Z.succ 53 + (e - 1) - 53) (3 - 1024 - 53) - (e - 1)) with 1 by lia.
  cbn [shr iter_pos shr_1 orb loc_of_shr_record shr_m round_nearest_even Zdigits2].
  rewrite Hd.
  replace (Z.max (53 + (e - 1 + 1) - 53) (3 - 1024 - 53) - (e - 1 + 1)) with 0 by lia.
  cbn [shr shr_m].
  replace (e - 1 + 1) with e by lia. reflexivity.
Qed.

(** x + x is a number of the sign of x, and not zero, for finite non-zero x. *)
Lemma SFadd_self (s : bool) (m : positive) (e : Z) :
  valid_binary (S754_finite s m e) = true ->
  exists y, SF64add (S754_finite s m e) (S754_finite s m e) = y /\
            (y = S754_infinity s \/ exists m' e', y = S754_finite s m' e').
Proof.
  intros Hv. pose proof (valid_cases _ _ _ Hv) as [He Hd].
  unfold SF64add, SFadd. rewrite Z.min_id.
  unfold shl_align at 1 2. rewrite Z.sub_diag. cbn [fst].
  replace (cond_Zopp s (Zpos m) + cond_Zopp s (Zpos m))
    with (cond_Zopp s (Zpos m~0)) by (destruct s; cbn [cond_Zopp]; lia).
  assert (Hnorm : binary_normalize prec emax (cond_Zopp s (Zpos m~0)) e false
                  = binary_round prec emax s (m~0) e) by (destruct s; reflexivity).
  rewrite Hnorm. unfold binary_round, shl_align, fexp, SpecFloat.emin, prec, emax.
  cbn [digits2_pos]. rewrite Pos2Z.inj_succ.
  destruct Hd as [[Hd He'] | [Hd He']].
  - rewrite Hd.
    replace (Z.max (Z.succ 53 + e - 53) (3 - 1024 - 53) - e) with 1 by lia.
    pose proof (round_doubled_any s m (e + 1) Hd ltac:(lia)) as Hr.
    replace (e + 1 - 1) with e in Hr by lia.
    eexists. split; [exact Hr |].
    destruct (e + 1 <=? 971); [right; eauto | left; reflexivity].
  - subst e.
    replace (Z.max (Z.succ (Zpos (digits2_pos m)) + -1074 - 53) (3 - 1024 - 53) - -1074)
      with 0 by lia.
    eexists. split.
    + apply round_canonical. cbn. unfold bounded, canonical_mantissa, fexp, SpecFloat.emin.
      unfold prec, emax. cbn [digits2_pos]. rewrite Pos2Z.inj_succ.
      apply andb_true_iff. split; [apply Z.eqb_eq; lia | apply Z.leb_le; lia].
    + right. eauto.
Qed.

Lemma SFsub_self (s : bool) (m : positive) (e : Z) :
  SF64sub (S754_finite s m e) (S754_finite s m e) = S754_zero false.
Proof.
  unfold SF64sub, SFsub. rewrite Z.sub_diag. reflexivity.
Qed.

(** *** Square roots and quotients *)

(** The square root of an absolute value is NaN or carries the sign +. *)
Lemma sqrt_abs_signed (x : spec_float) :
  SF64sqrt (SFabs x) = S754_nan \/ signed false (SF64sqrt (SFabs x)).
Proof.
  destruct x as [s | s | | s m e]; cbn [SFabs SF64sqrt SFsqrt signed]; auto.
  right. unfold SFsqrt_core_binary.
  match goal with |- context [IntDef.Z.sqrtrem ?a] => set (m' := a) end.
  pose proof (Z.sqrtrem_sqrt m') as Hq. pose proof (Z.sqrt_nonneg m') as H0.
  change IntDef.Z.sqrtrem with Z.sqrtrem.
  destruct (Z.sqrtrem m') as [q r]. cbn [fst] in Hq. subst q.
  apply round_aux_signed, H0.
Qed.

Lemma div_core_nonneg (m1 m2 : positive) (e1 e2 : Z) :
  0 <= fst (fst (SFdiv_core_binary prec emax (Zpos m1) e1 (Zpos m2) e2)).
Proof.
  unfold SFdiv_core_binary.
  match goal with |- context [IntDef.Z.div_eucl ?a _] => set (m' := a) end.
  assert (H0 : 0 <= m').
  { unfold m'. match goal with |- context [match ?s with _ => _ end] => destruct s end;
      try lia. change IntDef.Z.shiftl with Z.shiftl. apply Z.shiftl_nonneg. lia. }
  pose proof (Z.div_pos m' (Zpos m2) H0 ltac:(lia)) as Hq.
  unfold Z.div in Hq. change IntDef.Z.div_eucl with Z.div_eucl.
  destruct (Z.div_eucl m' (Zpos m2)) as [q r]. exact Hq.
Qed.

(** A quotient of a number that is not positive by one that is not
    negative (and not -0) is not positive. *)
Lemma SFdiv_not_positive (d n : spec_float) :
  SFltb (S754_zero false) d = false ->
  n = S754_nan \/ signed false n ->
  SFltb (S754_zero false) (SF64div d n) = false.
Proof.
  intros Hd [-> | Hn]; [destruct d; reflexivity |].
  destruct d as [sd | sd | | sd md ed]; try destruct sd; try discriminate;
    destruct n as [sn | sn | | sn mn en]; cbn in Hn; try contradiction; subst;
    try reflexivity.
  unfold SF64div, SFdiv. cbn [xorb].
  pose proof (div_core_nonneg md mn ed en) as H0.
  destruct (SFdiv_core_binary prec emax (Zpos md) ed (Zpos mn) en) as [[mz ez] lz].
  cbn [fst] in H0.
  pose proof (round_aux_signed true mz ez lz H0) as H.
  destruct (binary_round_aux prec emax true mz ez lz); cbn in H; subst;
    try reflexivity; contradiction.
Qed.

End Bounds.

Import Bounds.

(** ** NaN through the arithmetic *)

Lemma sub_nan (x y : float) : is_nan x || is_nan y = true -> is_nan (x - y) = true.
Proof.
  rewrite !is_nan_SF, sub_spec.
  destruct (Prim2SF x) as [sx | sx | | sx mx ex], (Prim2SF y) as [sy | sy | | sy my ey];
    try discriminate; reflexivity.
Qed.

Lemma div_nan_l (a x : float) : is_nan a = true -> is_nan (a / x) = true.
Proof.
  rewrite !is_nan_SF, div_spec.
  destruct (Prim2SF a); try discriminate. reflexivity.
Qed.

Lemma add_nan_r (a x : float) : is_nan x = true -> is_nan (a + x) = true.
Proof.
  rewrite !is_nan_SF, add_spec.
  destruct (Prim2SF x); try discriminate. now destruct (Prim2SF a).
Qed.

Lemma add_nan_l (a x : float) : is_nan a = true -> is_nan (a + x) = true.
Proof.
  rewrite !is_nan_SF, add_spec.
  destruct (Prim2SF a); try discriminate. reflexivity.
Qed.

Lemma calculateNBR_nan (s : Sample) :
  nan_band s = true -> is_nan (calculateNBR (B08 s) (B12 s)) = true.
Proof. intros H. unfold calculateNBR. now apply div_nan_l, sub_nan. Qed.

(** ** The classifier and the painted pixel *)

(** The classifier never lowers the alpha when the ratio grows. *)
Lemma baseAlpha_monotone (r1 r2 : float) :
  (r1 <=? r2) = true -> (baseAlpha r1 <=? baseAlpha r2) = true.
Proof.
  intros H. unfold baseAlpha, thresholds. cbn [scan_thresholds max alpha].
  assert (T : forall c, (r2 <=? c) = true -> (r1 <=? c) = true)
    by (intros c Hc; eapply leb_trans; eassumption).
  assert (Hinf : (r2 <=? infinity) = true)
    by (apply leb_infinity; destruct (is_nan r2) eqn:E; [| reflexivity];
        apply is_nan_eq in E; subst r2; rewrite leb_spec in H;
        destruct (Prim2SF r1); discriminate).
  rewrite Hinf, (T _ Hinf).
  destruct (r2 <=? 0.1) eqn:A2; [rewrite (T _ A2); reflexivity |].
  destruct (r2 <=? 0.27) eqn:B2;
    [rewrite (T _ B2); destruct (r1 <=? 0.1); reflexivity |].
  destruct (r2 <=? 0.44) eqn:C2;
    [rewrite (T _ C2); destruct (r1 <=? 0.1), (r1 <=? 0.27); reflexivity |].
  destruct (r2 <=? 0.66) eqn:D2;
    [rewrite (T _ D2); destruct (r1 <=? 0.1), (r1 <=? 0.27), (r1 <=? 0.44); reflexivity |].
  destruct (r1 <=? 0.1), (r1 <=? 0.27), (r1 <=? 0.44), (r1 <=? 0.66); reflexivity.
Qed.

Lemma baseAlpha_unit (RBR : float) :
  (0 <=? baseAlpha RBR) = true /\ (baseAlpha RBR <=? 1) = true.
Proof.
  pose proof (scan_thresholds_values RBR) as H. unfold baseAlpha. cbn [In] in H.
  destruct H as [<- | [<- | [<- | [<- | [<- | []]]]]]; split; vm_compute; reflexivity.
Qed.

Lemma alphaChannel_pair (a b : Sample) :
  unmasked a b ->
  alphaChannel (evaluatePixel [a; b]) = adjustTransparency (baseAlpha (pixelRBR a b)).
Proof.
  intros H. rewrite evaluatePixel_pair. unfold unmasked in H. rewrite H. reflexivity.
Qed.

Lemma evaluatePixel_paint (a b : Sample) :
  unmasked a b -> evaluatePixel [a; b] = paint (pixelRBR a b).
Proof. intros H. rewrite evaluatePixel_pair. unfold unmasked in H. now rewrite H. Qed.

(** The ratio of a pixel, from the indices of its two samples. *)
Lemma pixelRBR_indices (a b : Sample) :
  pixelRBR a b =
  calculateRBR (calculateNBR (B08 a) (B12 a) - calculateNBR (B08 b) (B12 b))
               (calculateNBR (B08 a) (B12 a)).
Proof.
  rewrite pixelRBR_unfold, !smoothedNBR_value. apply calculateRBR_zero_add.
Qed.

Lemma not_positive_cases (f : spec_float) :
  SFltb (S754_zero false) f = false -> f = S754_nan \/ nonpositive f = true.
Proof.
  destruct f as [s | s | | s m e]; try destruct s; cbn; try discriminate; auto.
Qed.

Lemma nonpositive_leb_0 (x : float) :
  nonpositive (Prim2SF x) = true <-> (x <=? 0) = true.
Proof.
  rewrite leb_spec, SF_0.
  destruct (Prim2SF x) as [s | s | | s m e]; try destruct s; cbn; split; congruence.
Qed.

Lemma getHeatmapColor_high (RBR : float) :
  (1 <=? RBR) = true -> getHeatmapColor RBR = [255; 0; 0].
Proof.
  intros H. rewrite leb_spec in H. unfold getHeatmapColor.
  rewrite (clamp_high (RBR * 255)), (clamp_low ((1 - RBR) * 255)); [reflexivity | |].
  - rewrite mul_spec. apply mul_255_nonpositive. rewrite sub_spec.
    pose proof (SFsub_le _ _ (Prim2SF_valid 1) (Prim2SF_valid RBR) H) as Hs.
    apply not_positive_cases in Hs. destruct Hs as [Hs | Hs]; [| exact Hs].
    exfalso. rewrite SF_1 in *.
    destruct (Prim2SF RBR) as [s | s | | s m e]; try discriminate.
    now apply binary_normalize_not_nan in Hs.
  - rewrite mul_spec. apply mul_255_ge; [apply Prim2SF_valid | exact H].
Qed.

Lemma getHeatmapColor_low (RBR : float) :
  (RBR <=? 0) = true -> getHeatmapColor RBR = [0; 255; 0].
Proof.
  intros H. apply nonpositive_leb_0 in H. unfold getHeatmapColor.
  rewrite (clamp_low (RBR * 255)), (clamp_high ((1 - RBR) * 255)); [reflexivity | |].
  - rewrite mul_spec, sub_spec. apply mul_255_ge; [| now apply one_sub_ge].
    rewrite <- sub_spec. apply Prim2SF_valid.
  - rewrite mul_spec. now apply mul_255_nonpositive.
Qed.

Lemma paint_high (RBR : float) : (1 <=? RBR) = true -> paint RBR = [255; 0; 0; 1].
Proof.
  intros H. unfold paint. rewrite getHeatmapColor_high by exact H.
  assert (F : forall c, (c <? 1) = true -> (RBR <=? c) = false).
  { intros c Hc. destruct (RBR <=? c) eqn:E; [| reflexivity].
    pose proof (leb_trans _ _ _ H E) as H1. apply leb_not_ltb in H1. congruence. }
  unfold thresholds. cbn [scan_thresholds max alpha].
  rewrite !F by reflexivity.
  rewrite leb_infinity; [reflexivity |].
  destruct (is_nan RBR) eqn:N; [| reflexivity].
  apply is_nan_eq in N. subst RBR. vm_compute in H. discriminate.
Qed.

Lemma paint_low (RBR : float) : (RBR <=? 0) = true -> paint RBR = [0; 255; 0; 0].
Proof.
  intros H. unfold paint. rewrite getHeatmapColor_low by exact H.
  unfold thresholds. cbn [scan_thresholds max alpha].
  rewrite (leb_trans _ _ 0.1 H) by reflexivity. reflexivity.
Qed.

Lemma paint_nan : paint nan = [nan; nan; 0; 0].
Proof. vm_compute. reflexivity. Qed.

Lemma paint_infinity : paint infinity = [255; 0; 0; 1].
Proof. vm_compute. reflexivity. Qed.

Lemma paint_neg_infinity : paint neg_infinity = [0; 255; 0; 0].
Proof. vm_compute. reflexivity. Qed.

(** Relativizing against a zero baseline divides by zero: the result is
    +infinity or -infinity with the sign of the delta, and NaN when the
    delta is zero or NaN. *)
Lemma calculateRBR_zero_baseline (d p : float) :
  (p =? 0) = true ->
  calculateRBR d p =
  if 0 <? d then infinity else if d <? 0 then neg_infinity else nan.
Proof.
  intros Hp. destruct (eqb_zero_SF p Hp) as [s Hs].
  assert (Hden : Prim2SF (PrimFloat.sqrt (PrimFloat.abs p)) = S754_zero false)
    by (rewrite sqrt_spec, abs_spec, Hs; reflexivity).
  unfold calculateRBR. rewrite !ltb_spec, SF_0.
  assert (Hq : Prim2SF (d / PrimFloat.sqrt (PrimFloat.abs p))
               = SF64div (Prim2SF d) (S754_zero false))
    by (rewrite div_spec, Hden; reflexivity).
  apply Prim2SF_inj. rewrite Hq.
  destruct (Prim2SF d) as [sd | sd | | sd md ed]; try destruct sd; cbn;
    rewrite ?SF_nan, ?SF_infinity, ?SF_neg_infinity; reflexivity.
Qed.

Lemma zero_sub_sign (z x : float) :
  (z =? 0) = true -> (0 <? z - x) = (x <? 0) /\ (z - x <? 0) = (0 <? x).
Proof.
  intros Hz. destruct (eqb_zero_SF z Hz) as [s Hs].
  rewrite !ltb_spec, sub_spec, SF_0, Hs.
  destruct (Prim2SF x) as [sx | sx | | sx mx ex]; destruct s; try destruct sx;
    split; reflexivity.
Qed.

(** When the delta is not positive, neither is the ratio. *)
Lemma calculateRBR_not_positive (pre post : float) :
  (pre <=? post) = true -> (0 <? calculateRBR (pre - post) pre) = false.
Proof.
  intros H. rewrite leb_spec in H.
  unfold calculateRBR. rewrite ltb_spec, div_spec, sqrt_spec, abs_spec, sub_spec, SF_0.
  apply SFdiv_not_positive; [| apply sqrt_abs_signed].
  apply SFsub_le; try apply Prim2SF_valid. exact H.
Qed.

(** ** Pixels *)

(** X1: of two unmasked pixels, the one with the larger ratio is never
    the more transparent one: the alpha channel is monotone in the ratio. *)
Theorem alpha_monotone (a b c d : Sample) :
  unmasked a b -> unmasked c d ->
  (pixelRBR a b <=? pixelRBR c d) = true ->
  (alphaChannel (evaluatePixel [a; b]) <=? alphaChannel (evaluatePixel [c; d])) = true.
Proof.
  intros Hab Hcd Hle. rewrite !alphaChannel_pair by assumption.
  unfold adjustTransparency, JS.Math_pow2.
  apply square_mono.
  - apply baseAlpha_unit.
  - now apply baseAlpha_monotone.
  - apply baseAlpha_unit.
Qed.

Lemma alpha_monotone_witness :
  (alphaChannel (evaluatePixel [preFireExample; preFireExample])
   <=? alphaChannel (evaluatePixel [preFireExample; postFireExample])) = true.
Proof.
  apply alpha_monotone; reflexivity.
Defined.

(** X2: the alpha of every pixel is one of five levels, and a pixel is
    visible exactly when it is unmasked and its ratio exceeds 0.1. *)
Theorem alpha_levels (samples : list Sample) :
  In (alphaChannel (evaluatePixel samples)) alphaLevels /\
  ((0 <? alphaChannel (evaluatePixel samples)) = true <->
   exists a b, samples = [a; b] /\ unmasked a b /\ (0.1 <? pixelRBR a b) = true).
Proof.
  assert (Hz : In 0 alphaLevels) by (left; reflexivity).
  assert (Hnot : forall l, evaluatePixel l = [0; 0; 0; 0] ->
            ~ (0 <? alphaChannel (evaluatePixel l)) = true)
    by (intros l ->; vm_compute; discriminate).
  destruct samples as [| a [| b [| c rest]]];
    try (split; [exact Hz | split; [intros H; now apply Hnot in H |
                                    intros (a' & b' & E & _); discriminate]]).
  destruct (JS.includes excludedClasses (SCL a) || JS.includes excludedClasses (SCL b)) eqn:M.
  - assert (E : evaluatePixel [a; b] = [0; 0; 0; 0]) by (rewrite evaluatePixel_pair, M; reflexivity).
    split; [rewrite E; exact Hz |].
    split; [intros H; now apply Hnot in H |].
    intros (a' & b' & E' & U & _). injection E' as <- <-. unfold unmasked in U. congruence.
  - rewrite alphaChannel_pair by exact M. unfold baseAlpha.
    split.
    + pose proof (scan_thresholds_values (pixelRBR a b)) as H. cbn [In] in H.
      destruct H as [<- | [<- | [<- | [<- | [<- | []]]]]]; vm_compute; tauto.
    + split.
      * intros H. exists a, b. split; [reflexivity | split; [exact M |]].
        destruct (is_nan (pixelRBR a b)) eqn:N.
        { apply is_nan_eq in N. rewrite N in H. vm_compute in H. discriminate. }
        apply not_leb_ltb; [exact N | reflexivity |].
        destruct (pixelRBR a b <=? 0.1) eqn:L; [| reflexivity].
        unfold thresholds in H. cbn [scan_thresholds max alpha] in H.
        rewrite L in H. vm_compute in H. discriminate.
      * intros (a' & b' & E & _ & H). injection E as <- <-.
        assert (Hinf : (pixelRBR a b <=? infinity) = true).
        { apply leb_infinity. destruct (is_nan (pixelRBR a b)) eqn:N; [| reflexivity].
          apply is_nan_eq in N. rewrite N in H. vm_compute in H. discriminate. }
        apply ltb_not_leb in H.
        unfold thresholds. cbn [scan_thresholds max alpha]. rewrite H, Hinf.
        repeat match goal with |- context [if ?c then _ else _] => destruct c end;
          vm_compute; try reflexivity.
Qed.

Lemma calculateNBR_equal_bands_cases (x : float) :
  (is_finite x && negb (is_zero x) = true -> (calculateNBR x x =? 0) = true) /\
  (is_finite x && negb (is_zero x) = false -> calculateNBR x x = nan).
Proof.
  unfold calculateNBR, is_finite, is_zero, is_infinity.
  rewrite is_nan_SF, !eqb_spec, abs_spec, SF_0, SF_infinity.
  pose proof (Prim2SF_valid x) as Hv.
  destruct (Prim2SF x) as [s | s | | s m e] eqn:E.
  - split; [destruct s; discriminate | intros _].
    apply Prim2SF_inj. rewrite div_spec, sub_spec, add_spec, E, SF_nan.
    destruct s; reflexivity.
  - split; [destruct s; discriminate | intros _].
    apply Prim2SF_inj. rewrite div_spec, sub_spec, add_spec, E, SF_nan.
    destruct s; reflexivity.
  - split; [discriminate | intros _].
    apply Prim2SF_inj. rewrite div_spec, sub_spec, add_spec, E, SF_nan. reflexivity.
  - split; [intros _ | destruct s; discriminate].
    rewrite div_spec, sub_spec, add_spec, E, SFsub_self.
    destruct (SFadd_self s m e Hv) as (y & -> & [-> | (m' & e' & ->)]);
      destruct s; reflexivity.
Qed.

(** X3: the index of a sample whose two bands are equal is zero for a
    finite non-zero reflectance and NaN otherwise (0/0 for zero bands,
    infinity - infinity for infinite ones). *)
Theorem calculateNBR_equal_bands (x : float) :
  if is_finite x && negb (is_zero x)
  then (calculateNBR x x =? 0) = true
  else calculateNBR x x = nan.
Proof.
  destruct (is_finite x && negb (is_zero x)) eqn:C;
    now apply calculateNBR_equal_bands_cases.
Qed.

(** X4: a pixel whose pre-fire index is zero: the division by zero shows as
    opaque pure red when the post-fire index is negative, transparent pure
    green when it is positive, and NaN colours otherwise. *)
Theorem evaluatePixel_zero_baseline (a b : Sample) :
  unmasked a b ->
  (calculateNBR (B08 a) (B12 a) =? 0) = true ->
  evaluatePixel [a; b] =
  if calculateNBR (B08 b) (B12 b) <? 0 then [255; 0; 0; 1]
  else if 0 <? calculateNBR (B08 b) (B12 b) then [0; 255; 0; 0]
  else [nan; nan; 0; 0].
Proof.
  intros Hmask Hpre. rewrite evaluatePixel_paint by exact Hmask.
  rewrite pixelRBR_indices, calculateRBR_zero_baseline by exact Hpre.
  destruct (zero_sub_sign _ (calculateNBR (B08 b) (B12 b)) Hpre) as [-> ->].
  destruct (calculateNBR (B08 b) (B12 b) <? 0);
    [apply paint_infinity |].
  destruct (0 <? calculateNBR (B08 b) (B12 b));
    [apply paint_neg_infinity | apply paint_nan].
Qed.

Lemma evaluatePixel_zero_baseline_witness :
  evaluatePixel
    [ {| B08 := 0.3; B12 := 0.3; SCL := 4; dataMask := 1 |};
      {| B08 := 0.2; B12 := 0.3; SCL := 4; dataMask := 1 |} ] = [255; 0; 0; 1].
Proof.
  apply (evaluatePixel_zero_baseline
           {| B08 := 0.3; B12 := 0.3; SCL := 4; dataMask := 1 |}
           {| B08 := 0.2; B12 := 0.3; SCL := 4; dataMask := 1 |}); reflexivity.
Defined.

(** X5: saturation at the top: a ratio of 1 or more (also +infinity) is
    painted opaque pure red. *)
Theorem evaluatePixel_saturates_red (a b : Sample) :
  unmasked a b -> (1 <=? pixelRBR a b) = true ->
  evaluatePixel [a; b] = [255; 0; 0; 1].
Proof.
  intros U H.
  rewrite evaluatePixel_paint by exact U.
  now apply paint_high.
Qed.

Lemma evaluatePixel_saturates_red_witness :
  evaluatePixel
    [ {| B08 := 0.3; B12 := 0.29; SCL := 4; dataMask := 1 |};
      {| B08 := 0.1; B12 := 0.4; SCL := 4; dataMask := 1 |} ] = [255; 0; 0; 1].
Proof.
  apply (evaluatePixel_saturates_red
           {| B08 := 0.3; B12 := 0.29; SCL := 4; dataMask := 1 |}
           {| B08 := 0.1; B12 := 0.4; SCL := 4; dataMask := 1 |}); reflexivity.
Defined.

(** X6: saturation at the bottom: a ratio of 0 or less (also -0 and
    -infinity) is painted fully transparent pure green. *)
Theorem evaluatePixel_saturates_green (a b : Sample) :
  unmasked a b -> (pixelRBR a b <=? 0) = true ->
  evaluatePixel [a; b] = [0; 255; 0; 0].
Proof.
  intros U H.
  rewrite evaluatePixel_paint by exact U.
  now apply paint_low.
Qed.

Lemma evaluatePixel_saturates_green_witness :
  evaluatePixel [postFireExample; preFireExample] = [0; 255; 0; 0].
Proof.
  apply (evaluatePixel_saturates_green postFireExample preFireExample); reflexivity.
Defined.

(** X7: a pixel whose index did not fall is never shown: it is fully
    transparent, pure green or, when the ratio is undefined, with NaN
    colours. *)
Theorem evaluatePixel_no_decline (a b : Sample) :
  unmasked a b ->
  (calculateNBR (B08 a) (B12 a) <=? calculateNBR (B08 b) (B12 b)) = true ->
  evaluatePixel [a; b] = [0; 255; 0; 0] \/ evaluatePixel [a; b] = [nan; nan; 0; 0].
Proof.
  intros U H. rewrite evaluatePixel_paint by exact U. rewrite pixelRBR_indices.
  apply calculateRBR_not_positive in H. rewrite ltb_spec, SF_0 in H.
  apply not_positive_cases in H. destruct H as [H | H].
  - right. replace (calculateRBR _ _) with nan; [apply paint_nan |].
    apply Prim2SF_inj. rewrite H. reflexivity.
  - left. apply paint_low. now apply nonpositive_leb_0.
Qed.

Lemma evaluatePixel_no_decline_witness :
  evaluatePixel [postFireExample; preFireExample] = [0; 255; 0; 0] \/
  evaluatePixel [postFireExample; preFireExample] = [nan; nan; 0; 0].
Proof.
  apply (evaluatePixel_no_decline postFireExample preFireExample); reflexivity.
Defined.

(** X8: a NaN reflectance in either sample of an unmasked pixel reaches
    the output: red and green are NaN and the pixel is transparent. *)
Theorem evaluatePixel_nan_band (a b : Sample) :
  unmasked a b -> nan_band a || nan_band b = true ->
  evaluatePixel [a; b] = [nan; nan; 0; 0].
Proof.
  intros U H. apply evaluatePixel_nan; [exact U |].
  rewrite pixelRBR_indices. unfold calculateRBR. apply div_nan_l, sub_nan.
  apply orb_true_iff in H. apply orb_true_iff.
  destruct H as [H | H]; [left | right]; now apply calculateNBR_nan.
Qed.

Lemma evaluatePixel_nan_band_witness :
  evaluatePixel [preFireExample; {| B08 := nan; B12 := 0.3; SCL := 4; dataMask := 1 |}]
  = [nan; nan; 0; 0].
Proof.
  apply (evaluatePixel_nan_band preFireExample
           {| B08 := nan; B12 := 0.3; SCL := 4; dataMask := 1 |}); reflexivity.
Defined.

(** ** The scene selector run twice, and on a reordered catalogue *)

Lemma orbits_ends (st : Store) :
  orbits (fst (preProcessScenes st)) = ends (retained_sorted st).
Proof. apply orbits_after. Qed.

Lemma returned_collections (st : Store) :
  snd (preProcessScenes st) = RetCollections <-> (2 <= length (retained_sorted st))%nat.
Proof.
  rewrite preProcessScenes_store.
  destruct (retained_sorted st) as [| first [| second rest]]; cbn; split;
    intros H; try discriminate; try lia; reflexivity.
Qed.

Lemma filter_all {A} (p : A -> bool) (l : list A) :
  Forall (fun x => p x = true) l -> filter p l = l.
Proof.
  induction 1 as [| x l Hx _ IH]; [reflexivity |]. cbn. now rewrite Hx, IH.
Qed.

Lemma date_order_sorts_after (a b : Orbit) : date_order a b -> sorts_after a b = false.
Proof.
  unfold date_order, date_le, sorts_after, compareFn, date_minus.
  destruct (dateFrom a), (dateFrom b); try discriminate.
  intros H. apply Z.leb_le in H. apply Z.ltb_ge. lia.
Qed.

(** Sorting a sorted array leaves it as it is. *)
Lemma array_sort_sorted_id (l : list Orbit) :
  StronglySorted date_order l -> array_sort l = l.
Proof.
  induction 1 as [| a l Hs IH Ha]; [reflexivity |].
  cbn [array_sort fold_right]. fold (array_sort l). rewrite IH.
  destruct Ha as [| b l Hab _]; [reflexivity |].
  cbn [sort_insert]. now rewrite date_order_sorts_after.
Qed.

Lemma ends_incl {A} (l : list A) (x : A) : In x (ends l) -> In x l.
Proof.
  destruct l as [| a [| b rest]]; cbn [ends]; try tauto.
  intros [<- | [<- | []]]; [now left |]. right. rewrite last_cons. apply last_In.
Qed.

Lemma ends_sorted (l : list Orbit) :
  StronglySorted date_order l -> StronglySorted date_order (ends l).
Proof.
  intros Hs. destruct l as [| a [| b rest]]; cbn [ends]; try exact Hs.
  inversion Hs as [| ? ? _ Ha]; subst.
  repeat constructor.
  rewrite Forall_forall in Ha. apply Ha. rewrite last_cons. apply last_In.
Qed.

Lemma ends_ends {A} (l : list A) : ends (ends l) = ends l.
Proof. destruct l as [| a [| b rest]]; reflexivity. Qed.

Lemma retained_sorted_in_period (st : Store) :
  Forall (fun o => in_period o = true) (retained_sorted st).
Proof.
  apply (Permutation_Forall (array_sort_perm (retained st))).
  apply Forall_forall. intros o Ho. apply filter_In in Ho. tauto.
Qed.

Lemma retained_sorted_sorted (st : Store) :
  StronglySorted date_order (retained_sorted st).
Proof. apply array_sort_sorted, retained_valid. Qed.

(** Running the selector on its own result keeps the scenes it selected. *)
Lemma retained_sorted_again (st : Store) :
  retained_sorted (fst (preProcessScenes st)) = ends (retained_sorted st).
Proof.
  unfold retained_sorted at 1, retained. rewrite orbits_ends.
  rewrite filter_all.
  - apply array_sort_sorted_id, ends_sorted, retained_sorted_sorted.
  - apply Forall_forall. intros o Ho. apply ends_incl in Ho.
    pose proof (retained_sorted_in_period st) as H. rewrite Forall_forall in H. auto.
Qed.

Lemma filter_perm {A} (p : A -> bool) (l l' : list A) :
  Permutation l l' -> Permutation (filter p l) (filter p l').
Proof.
  induction 1 as [| x l l' _ IH | x y l | l l' l'' _ IH1 _ IH2]; cbn.
  - constructor.
  - destruct (p x); [now constructor | exact IH].
  - destruct (p x), (p y); try reflexivity. apply perm_swap.
  - now transitivity (filter p l').
Qed.

(** Two ascending lists of integers with the same elements are equal. *)
Lemma sorted_perm_eq (l l' : list Z) :
  StronglySorted Z.le l -> StronglySorted Z.le l' -> Permutation l l' -> l = l'.
Proof.
  revert l'. induction l as [| a l IH]; intros l' Hs Hs' Hp.
  - now apply Permutation_nil in Hp.
  - destruct l' as [| b l'].
    + symmetry in Hp. now apply Permutation_nil in Hp.
    + inversion Hs as [| ? ? Hs1 Ha]; subst.
      inversion Hs' as [| ? ? Hs1' Hb]; subst.
      rewrite Forall_forall in Ha, Hb.
      assert (a = b) as ->.
      { assert (In b (a :: l)) as [-> | Hb1]
          by (apply (Permutation_in _ (Permutation_sym Hp)); now left);
          [reflexivity |].
        assert (In a (b :: l')) as [-> | Ha1]
          by (apply (Permutation_in _ Hp); now left); [reflexivity |].
        apply Ha in Hb1. apply Hb in Ha1. lia. }
      f_equal. apply IH; auto. now apply Permutation_cons_inv in Hp.
Qed.

Lemma valid_startTime (o : Orbit) : valid_from o -> dateFrom o = Some (startTime o).
Proof. intros [t H]. unfold startTime. now rewrite H. Qed.

Lemma startTime_sorted (l : list Orbit) :
  StronglySorted date_order l -> StronglySorted Z.le (map startTime l).
Proof.
  induction 1 as [| a l _ IH Ha]; cbn; constructor; [exact IH |].
  apply Forall_map. revert Ha. apply Forall_impl. intros b.
  unfold date_order, date_le, startTime.
  destruct (dateFrom a), (dateFrom b); try discriminate. apply Z.leb_le.
Qed.

Lemma map_ends {A B} (f : A -> B) (l : list A) : map f (ends l) = ends (map f l).
Proof.
  destruct l as [| a [| b rest]]; try reflexivity.
  cbn [ends map]. do 2 f_equal.
  change (f b :: map f rest) with (map f (b :: rest)).
  generalize (b :: rest) as t. intros t. revert b.
  induction t as [| c t IHt]; intros b; [reflexivity |].
  rewrite last_cons. cbn [map]. rewrite last_cons. apply IHt.
Qed.

Lemma retained_sorted_valid (st : Store) : Forall valid_from (retained_sorted st).
Proof. apply (Permutation_Forall (array_sort_perm _)), retained_valid. Qed.

(** The start times of the retained scenes depend only on the scenes the
    catalogue holds, not on their order. *)
Lemma retained_sorted_times (st st' : Store) :
  Permutation (orbits st) (orbits st') ->
  map startTime (retained_sorted st) = map startTime (retained_sorted st').
Proof.
  intros Hp. apply sorted_perm_eq; try apply startTime_sorted, retained_sorted_sorted.
  apply Permutation_map. unfold retained_sorted, retained.
  apply perm_trans with (filter in_period (orbits st));
    [symmetry; apply array_sort_perm |].
  apply perm_trans with (filter in_period (orbits st'));
    [now apply filter_perm | apply array_sort_perm].
Qed.

Lemma dateFrom_startTime (l : list Orbit) :
  Forall valid_from l -> map dateFrom l = map Some (map startTime l).
Proof.
  induction 1 as [| o l Ho _ IH]; [reflexivity |].
  cbn. now rewrite IH, (valid_startTime o Ho).
Qed.

Lemma ends_valid (st : Store) : Forall valid_from (ends (retained_sorted st)).
Proof.
  apply Forall_forall. intros o Ho. apply ends_incl in Ho.
  pose proof (retained_sorted_valid st) as H. rewrite Forall_forall in H. auto.
Qed.

(** X9: the selector is idempotent on the collection: a second run leaves
    the scenes the first run stored, and it returns the collection exactly
    when the first run did. *)
Theorem preProcessScenes_idempotent (st : Store) :
  orbits (fst (preProcessScenes (fst (preProcessScenes st))))
    = orbits (fst (preProcessScenes st)) /\
  (snd (preProcessScenes (fst (preProcessScenes st))) = RetCollections <->
   snd (preProcessScenes st) = RetCollections).
Proof.
  split.
  - rewrite !orbits_ends, retained_sorted_again. apply ends_ends.
  - rewrite !returned_collections, retained_sorted_again.
    destruct (retained_sorted st) as [| a [| b rest]]; cbn; lia.
Qed.

(** X10: the acquisition dates of the selected scenes, and whether the
    selector returns the collection, depend only on which scenes the
    catalogue holds, not on the order it lists them in. *)
Theorem preProcessScenes_order_independent (st st' : Store) :
  Permutation (orbits st) (orbits st') ->
  map dateFrom (orbits (fst (preProcessScenes st)))
    = map dateFrom (orbits (fst (preProcessScenes st'))) /\
  (snd (preProcessScenes st) = RetCollections <->
   snd (preProcessScenes st') = RetCollections).
Proof.
  intros Hp. pose proof (retained_sorted_times st st' Hp) as Ht. split.
  - rewrite !orbits_ends, !dateFrom_startTime by apply ends_valid.
    now rewrite !map_ends, Ht.
  - rewrite !returned_collections.
    apply (f_equal (@length Z)) in Ht. rewrite !length_map in Ht. now rewrite Ht.
Qed.

Lemma preProcessScenes_order_independent_witness :
  map dateFrom (orbits (fst (preProcessScenes
        (catalogue [januaryOrbit 20; januaryOrbit 5; januaryOrbit 12]))))
    = map dateFrom (orbits (fst (preProcessScenes
        (catalogue [januaryOrbit 12; januaryOrbit 20; januaryOrbit 5])))) /\
  (snd (preProcessScenes (catalogue [januaryOrbit 20; januaryOrbit 5; januaryOrbit 12]))
     = RetCollections <->
   snd (preProcessScenes (catalogue [januaryOrbit 12; januaryOrbit 20; januaryOrbit 5]))
     = RetCollections).
Proof.
  apply preProcessScenes_order_independent. cbn.
  apply perm_trans with (januaryOrbit 20 :: januaryOrbit 12 :: [januaryOrbit 5]).
  - apply perm_skip, perm_swap.
  - apply perm_swap.
Defined.

(** ** The moving average at its edges *)

Lemma fold_add_nan (l : list float) (acc : float) :
  is_nan acc = true -> is_nan (fold_left PrimFloat.add l acc) = true.
Proof.
  revert acc. induction l as [| x l IH]; intros acc H; [exact H |].
  cbn [fold_left]. apply IH. now apply add_nan_l.
Qed.

Lemma fold_add_In_nan (l : list float) (acc : float) :
  (exists x, In x l /\ is_nan x = true) -> is_nan (fold_left PrimFloat.add l acc) = true.
Proof.
  revert acc. induction l as [| y l IH]; intros acc [x [Hin Hx]]; [destruct Hin |].
  cbn [fold_left]. destruct Hin as [-> | Hin].
  - apply fold_add_nan. now apply add_nan_r.
  - apply IH. now exists x.
Qed.

(** A NaN among the values makes their mean NaN. *)
Lemma mean_nan (l : list float) :
  (exists x, In x l /\ is_nan x = true) -> is_nan (mean l) = true.
Proof. intros H. unfold mean. now apply div_nan_l, fold_add_In_nan. Qed.

Section Windows.

#[local] Open Scope Z_scope.

Variable dataset : list float.

Lemma In_slice (n : nat) :
  forall a b j : Z,
    Z.to_nat (j - a) = n ->
    0 <= a <= j -> j <= b -> j < Z.of_nat (length dataset) ->
    In (item dataset j) (slice dataset a b).
Proof.
  induction n as [| n IH]; intros a b j Hn Ha Hb Hj.
  - assert (a = j) as -> by lia. rewrite slice_cons by lia. now left.
  - rewrite slice_cons by lia. right. apply IH; lia.
Qed.

Lemma In_window (half i j : Z) :
  0 <= i < Z.of_nat (length dataset) -> 0 <= j < Z.of_nat (length dataset) ->
  i - half <= j <= i + half ->
  In (item dataset j) (window dataset half i).
Proof.
  intros Hi Hj Hw. unfold window. apply (In_slice _ _ _ _ eq_refl); lia.
Qed.

Lemma window_negative (half i : Z) : half < 0 -> 0 <= i -> window dataset half i = [].
Proof. intros Hh Hi. unfold window. apply slice_nil. lia. Qed.

Lemma window_zero (i : Z) :
  0 <= i < Z.of_nat (length dataset) -> window dataset 0 i = [item dataset i].
Proof.
  intros Hi. unfold window.
  replace (Z.max 0 (i - 0)) with i by lia.
  replace (Z.min (Z.of_nat (length dataset) - 1) (i + 0)) with i by lia.
  rewrite slice_cons by lia. now rewrite slice_nil by lia.
Qed.

End Windows.

(** Two lists with the same length and the same items are equal. *)
Lemma item_ext (l l' : list float) :
  length l = length l' ->
  (forall i, (0 <= i < Z.of_nat (length l))%Z -> item l i = item l' i) ->
  l = l'.
Proof.
  intros Hlen H. apply (nth_ext _ _ nan nan Hlen).
  intros n Hn. specialize (H (Z.of_nat n)). unfold item in H.
  rewrite Nat2Z.id in H. apply H. lia.
Qed.

Lemma item_repeat (x : float) (n : nat) (i : Z) :
  (0 <= i < Z.of_nat n)%Z -> item (repeat x n) i = x.
Proof. intros H. unfold item. apply nth_repeat_lt. lia. Qed.

Lemma item_map (f : float -> float) (l : list float) (i : Z) :
  (0 <= i < Z.of_nat (length l))%Z -> item (map f l) i = f (item l i).
Proof.
  intros H. unfold item.
  rewrite nth_indep with (d' := f nan) by (rewrite length_map; lia).
  apply map_nth.
Qed.

(** X11: a NaN in the sequence makes every output whose window reaches it
    NaN. *)
Theorem smoothData_nan_spreads (dataset : list float) (windowSize i j : Z) :
  (0 <= i < Z.of_nat (length dataset))%Z ->
  (0 <= j < Z.of_nat (length dataset))%Z ->
  (i - windowSize / 2 <= j <= i + windowSize / 2)%Z ->
  is_nan (item dataset j) = true ->
  is_nan (item (smoothData dataset windowSize) i) = true.
Proof.
  intros Hi Hj Hw Hnan. rewrite item_smoothData by exact Hi.
  apply mean_nan. exists (item dataset j). split; [| exact Hnan].
  now apply In_window.
Qed.

Lemma smoothData_nan_spreads_witness :
  is_nan (item (smoothData [0.5; nan; 0.25] 3) 0) = true.
Proof.
  apply (smoothData_nan_spreads [0.5; nan; 0.25] 3 0 1); cbn; try lia; reflexivity.
Defined.

(** X12: with a negative window size no index falls in any window: all
    outputs are 0/0, NaN, and the length is kept. *)
Theorem smoothData_negative_window (dataset : list float) (windowSize : Z) :
  (windowSize < 0)%Z ->
  smoothData dataset windowSize = repeat nan (length dataset).
Proof.
  intros Hw. apply item_ext.
  - now rewrite length_smoothData, repeat_length.
  - rewrite length_smoothData. intros i Hi.
    rewrite item_smoothData, item_repeat by exact Hi.
    rewrite window_negative; [reflexivity | | lia].
    apply Z.div_lt_upper_bound; lia.
Qed.

Lemma smoothData_negative_window_witness :
  smoothData [0.5; 0.25] (-3) = repeat nan (length [0.5; 0.25]).
Proof. apply smoothData_negative_window. lia. Defined.

(** X13: a window of size 0 or 1 holds the element alone: the output is
    the input with 0 added to each element (which only turns -0 into +0). *)
Theorem smoothData_unit_window (dataset : list float) (windowSize : Z) :
  (0 <= windowSize <= 1)%Z ->
  smoothData dataset windowSize = map (fun x => 0 + x) dataset.
Proof.
  intros Hw. apply item_ext.
  - now rewrite length_smoothData, length_map.
  - rewrite length_smoothData. intros i Hi.
    rewrite item_smoothData, item_map by exact Hi.
    replace (windowSize / 2)%Z with 0%Z
      by (symmetry; apply Z.div_small; lia).
    rewrite window_zero by exact Hi.
    unfold mean. cbn [fold_left length].
    apply div_one.
Qed.

Lemma smoothData_unit_window_witness :
  smoothData [0.5; 0.25] 1 = map (fun x => 0 + x) [0.5; 0.25].
Proof. apply smoothData_unit_window. lia. Defined.

(** X14: only the half width floor(windowSize / 2) matters: an even window
    size behaves as the next odd one. *)
Theorem smoothData_even_window (dataset : list float) (k : Z) :
  smoothData dataset (2 * k) = smoothData dataset (2 * k + 1).
Proof.
  unfold smoothData, window_sum.
  replace ((2 * k + 1) / 2)%Z with k by (apply Z.div_unique with 1%Z; lia).
  replace (2 * k / 2)%Z with k by (apply Z.div_unique with 0%Z; lia).
  reflexivity.
Qed.

(** ** The colour ramp is monotone *)

(** *** Rounding a positive number is monotone *)

Module Monotone.
#[local] Open Scope Z_scope.

(** A mantissa already at its rounding exponent passes through, up to
    overflow. *)
Lemma round_at_exponent (m : positive) (e : Z) :
  round_exponent m e = e ->
  binary_round_aux prec emax false (Zpos m) e loc_Exact
  = overflow (S754_finite false m e).
Proof.
  unfold round_exponent. intros Hr.
  unfold binary_round_aux, shr_fexp, Zdigits2, shr_record_of_loc, fexp, SpecFloat.emin.
  unfold prec, emax.
  replace (Z.max (Zpos (digits2_pos m) + e - 53) (3 - 1024 - 53) - e) with 0 by lia.
  cbn [shr loc_of_shr_record shr_m round_nearest_even Zdigits2].
  replace (Z.max (Zpos (digits2_pos m) + e - 53) (3 - 1024 - 53) - e) with 0 by lia.
  cbn [shr shr_m overflow]. reflexivity.
Qed.

Lemma nearest_even_doubled (m : positive) : nearest_even (Zpos m~0) 1 = Zpos m.
Proof.
  unfold nearest_even. change (2 ^ 1) with 2.
  replace (Zpos m~0) with (Zpos m * 2) by lia.
  rewrite Z.mod_mul, Z.div_mul by lia. reflexivity.
Qed.

(** Every rounded positive number is the encoding of a rounding that loses
    at least one bit: an exact one is read with one more bit at the end. *)
Lemma binary_round_encode (P : positive) (E : Z) :
  exists (M : positive) (E' : Z),
    E' <= E /\ Zpos M = Zpos P * 2 ^ (E - E') /\
    E' < round_exponent M E' /\
    binary_round prec emax false P E
    = overflow (encode (nearest_even (Zpos M) (round_exponent M E' - E'))
                       (round_exponent M E')).
Proof.
  unfold binary_round, fexp, SpecFloat.emin, prec, emax.
  replace (3 - 1024 - 53) with (-1074) by reflexivity.
  set (r := Z.max (Zpos (digits2_pos P) + E - 53) (-1074)).
  destruct (Z.lt_ge_cases E r) as [Hlt | Hge].
  - exists P, E. unfold shl_align.
    destruct (r - E) as [| d | d] eqn:Hd; try lia.
    split; [lia |]. split; [rewrite Z.sub_diag; cbn; lia |].
    split; [exact Hlt |]. now apply round_aux_overflow_spec.
  - pose proof (shl_align_value P E r Hge) as Hv.
    assert (Hs : snd (shl_align P E r) = r).
    { unfold shl_align. destruct (r - E) as [| d | d] eqn:Hd; cbn [snd]; lia. }
    assert (Hdig : Zpos (digits2_pos (fst (shl_align P E r)))
                   = Zpos (digits2_pos P) + (E - r)).
    { unfold shl_align. destruct (r - E) as [| d | d] eqn:Hd; cbn [fst]; try lia.
      rewrite iter_xO_digits. lia. }
    destruct (shl_align P E r) as [P0 r0]. cbn [fst snd] in *. subst r0.
    exists (P0~0)%positive, (r - 1).
    assert (Hr : round_exponent (P0~0) (r - 1) = r).
    { unfold round_exponent. cbn [digits2_pos]. rewrite Pos2Z.inj_succ, Hdig.
      unfold r. lia. }
    rewrite Hr. replace (r - (r - 1)) with 1 by lia.
    rewrite nearest_even_doubled.
    split; [lia |]. split.
    + rewrite Pos2Z.inj_xO, Hv.
      replace (E - (r - 1)) with (Z.succ (E - r)) by lia.
      rewrite Z.pow_succ_r by lia. lia.
    + split; [lia |].
      rewrite round_at_exponent by (unfold round_exponent; rewrite Hdig; unfold r; lia).
      f_equal. unfold encode.
      destruct (Z.eqb_spec (Zpos P0) (2 ^ 53)) as [H53 | H53]; [| reflexivity].
      exfalso.
      assert (Hd : Zpos (digits2_pos P0) = 54)
        by (apply digits2_pos_unique; rewrite H53; split; reflexivity).
      unfold r in *. lia.
Qed.

(** Overflow keeps the order of encoded numbers. *)
Lemma overflow_encode_mono (N1 N2 e1 e2 : Z) :
  SFleb (encode N1 e1) (encode N2 e2) = true ->
  SFleb (overflow (encode N1 e1)) (overflow (encode N2 e2)) = true.
Proof.
  assert (G : forall m1 m2 a b,
             SFleb (S754_finite false m1 a) (S754_finite false m2 b) = true ->
             SFleb (overflow (S754_finite false m1 a)) (overflow (S754_finite false m2 b)) = true).
  { intros m1 m2 a b H. cbn [overflow].
    assert (Hab : a <= b).
    { rewrite SFleb_finite_pos in H.
      destruct (Z.compare_spec a b); try discriminate; lia. }
    destruct (Z.leb_spec a 971), (Z.leb_spec b 971); try reflexivity; try exact H. lia. }
  unfold encode.
  destruct N1 as [| p1 | p1], N2 as [| p2 | p2]; try discriminate;
    repeat match goal with |- context [if ?c then _ else _] => destruct c end;
    try (apply G); cbn [overflow];
    repeat match goal with |- context [if ?c then _ else _] => destruct c end;
    try reflexivity; try discriminate.
Qed.

(** Rounding a positive number is monotone. *)
Lemma binary_round_mono (P1 P2 : positive) (E1 E2 E0 : Z) :
  E0 <= E1 -> E0 <= E2 ->
  Zpos P1 * 2 ^ (E1 - E0) <= Zpos P2 * 2 ^ (E2 - E0) ->
  SFleb (binary_round prec emax false P1 E1) (binary_round prec emax false P2 E2) = true.
Proof.
  intros H1 H2 Hle.
  destruct (binary_round_encode P1 E1) as (M1 & F1 & HF1 & HM1 & Hn1 & ->).
  destruct (binary_round_encode P2 E2) as (M2 & F2 & HF2 & HM2 & Hn2 & ->).
  apply overflow_encode_mono.
  apply round_mono with (E0 := Z.min (Z.min F1 F2) E0); try lia.
  rewrite HM1, HM2, <- !Z.mul_assoc, <- !Z.pow_add_r by lia.
  set (G := Z.min (Z.min F1 F2) E0).
  replace (E1 - F1 + (F1 - G)) with ((E1 - E0) + (E0 - G)) by lia.
  replace (E2 - F2 + (F2 - G)) with ((E2 - E0) + (E0 - G)) by lia.
  rewrite !Z.pow_add_r, !Z.mul_assoc by lia.
  apply Z.mul_le_mono_nonneg_r; [apply Z.pow_nonneg; lia | exact Hle].
Qed.


(** *** Products with 255 and differences from 1 keep the order *)

Lemma mul_255_exponent (m : positive) (e : Z) :
  valid_binary (S754_finite false m e) = true ->
  e + -45 < round_exponent (m * 8972014882652160) (e + -45).
Proof.
  intros Hv. apply valid_cases in Hv. destruct Hv as [_ Hd].
  unfold round_exponent.
  destruct Hd as [[Hd He] | [Hd He]]; [| lia].
  set (c := 8972014882652160%positive).
  assert (Hc : 2 ^ 52 <= Zpos c) by (unfold c; vm_compute; discriminate).
  pose proof (digits2_pos_bounds m) as [Hlo _].
  rewrite Hd in Hlo. change (53 - 1) with 52 in Hlo.
  pose proof (digits2_pos_bounds (m * c)) as [_ Hhi].
  rewrite Pos2Z.inj_mul in Hhi.
  assert (H : 2 ^ 104 < 2 ^ Zpos (digits2_pos (m * c))).
  { assert (H104 : 2 ^ 104 = 2 ^ 52 * 2 ^ 52) by reflexivity.
    assert (0 < 2 ^ 52) by reflexivity.
    set (B := 2 ^ 52) in *. clearbody B c. nia. }
  apply Z.pow_lt_mono_r_iff in H; lia.
Qed.

Lemma mul_255_mono (x y : spec_float) :
  valid_binary x = true -> valid_binary y = true ->
  signed false x -> SFleb x y = true ->
  SFleb (SF64mul x (Prim2SF 255)) (SF64mul y (Prim2SF 255)) = true.
Proof.
  intros Hvx Hvy Hx Hle. rewrite SF_255.
  destruct x as [sx | sx | | sx mx ex]; cbn in Hx; try contradiction; subst sx;
    destruct y as [sy | sy | | sy my ey]; try destruct sy; try discriminate;
    try reflexivity.
  - (* 0 and a positive number *)
    unfold SF64mul, SFmul. cbn [xorb].
    pose proof (round_aux_signed false (Zpos (my * 8972014882652160)) (ey + -45)
                  loc_Exact ltac:(lia)) as H.
    destruct (binary_round_aux _ _ _ _ _ _) as [s | s | | s m e]; cbn in H; subst;
      try reflexivity; contradiction.
  - (* a positive number and +infinity *)
    unfold SF64mul, SFmul. cbn [xorb].
    pose proof (round_aux_signed false (Zpos (mx * 8972014882652160)) (ex + -45)
                  loc_Exact ltac:(lia)) as H.
    destruct (binary_round_aux _ _ _ _ _ _) as [s | s | | s m e]; cbn in H; subst;
      try reflexivity; contradiction.
  - (* two positive numbers *)
    destruct (SFleb_finite_order _ _ _ _ Hvx Hvy Hle) as [He Hm].
    unfold SF64mul, SFmul. cbn [xorb].
    pose proof (mul_255_exponent mx ex Hvx) as Hn1.
    pose proof (mul_255_exponent my ey Hvy) as Hn2.
    rewrite !round_aux_overflow_spec by assumption.
    apply overflow_encode_mono.
    apply round_mono with (E0 := ex + -45); try lia.
    rewrite Z.sub_diag, Z.pow_0_r, Z.mul_1_r, !Pos2Z.inj_mul.
    replace (ey + -45 - (ex + -45)) with (ey - ex) by lia.
    assert (0 < 2 ^ (ey - ex)) by (apply Z.pow_pos_nonneg; lia).
    set (K := 2 ^ (ey - ex)) in *.
    set (c := Z.pos 8972014882652160). assert (0 < c) by (unfold c; lia).
    clearbody K c. nia.
Qed.

(** A positive number below 1 has an exponent below -52. *)
Lemma below_one_exponent (m : positive) (e : Z) :
  valid_binary (S754_finite false m e) = true ->
  SFltb (S754_finite false m e) (Prim2SF 1) = true -> e <= -53.
Proof.
  intros Hv. rewrite SF_1, SFltb_finite_pos.
  apply valid_cases in Hv. destruct Hv as [_ Hd].
  destruct (Z.compare_spec e (-52)) as [Heq | Hlt | Hgt]; try discriminate; [| lia].
  rewrite Pos2Z.inj_ltb. intros H. apply Z.ltb_lt in H. exfalso.
  destruct Hd as [[Hd _] | [_ Hd]]; [| lia].
  pose proof (digits2_pos_bounds m) as [Hlo _].
  rewrite Hd in Hlo. change (53 - 1) with 52 in Hlo.
  assert (H52 : 2 ^ 52 = Z.pos 4503599627370496) by reflexivity.
  rewrite H52 in Hlo. lia.
Qed.

(** 1 - x for a positive x below 1: the rounded difference of the
    mantissas at the exponent of x. *)
Lemma one_sub_below_one (m : positive) (e : Z) :
  valid_binary (S754_finite false m e) = true -> e <= -53 ->
  exists P, Zpos P = 2 ^ (- e) - Zpos m /\
            SF64sub (Prim2SF 1) (S754_finite false m e) = binary_round prec emax false P e.
Proof.
  intros Hv He. pose proof (valid_digits _ _ _ Hv) as Hm.
  rewrite SF_1. unfold SF64sub, SFsub.
  change (IntDef.Z.min (-52) e) with (Z.min (-52) e).
  replace (Z.min (-52) e) with e by lia.
  rewrite !shl_align_value by lia. cbn [cond_Zopp].
  rewrite Z.sub_diag, Z.pow_0_r, Z.mul_1_r.
  change (Z.pos 4503599627370496) with (2 ^ 52).
  rewrite <- Z.pow_add_r by lia. replace (52 + (-52 - e)) with (- e) by lia.
  assert (H53 : 2 ^ 53 <= 2 ^ (- e)) by (apply Z.pow_le_mono_r; lia).
  destruct (2 ^ (- e) - Zpos m) as [| P | P] eqn:HD; try lia.
  exists P. split; reflexivity.
Qed.

Lemma one_sub_antitone (mx my : positive) (ex ey : Z) :
  valid_binary (S754_finite false mx ex) = true ->
  valid_binary (S754_finite false my ey) = true ->
  SFleb (S754_finite false mx ex) (S754_finite false my ey) = true ->
  ey <= -53 ->
  SFleb (SF64sub (Prim2SF 1) (S754_finite false my ey))
        (SF64sub (Prim2SF 1) (S754_finite false mx ex)) = true.
Proof.
  intros Hvx Hvy Hle Hey.
  destruct (SFleb_finite_order _ _ _ _ Hvx Hvy Hle) as [He Hm].
  destruct (one_sub_below_one mx ex Hvx ltac:(lia)) as (Px & HPx & ->).
  destruct (one_sub_below_one my ey Hvy Hey) as (Py & HPy & ->).
  apply binary_round_mono with (E0 := ex); try lia.
  rewrite Z.sub_diag, Z.pow_0_r, Z.mul_1_r, HPx, HPy.
  rewrite Z.mul_sub_distr_r, <- Z.pow_add_r by lia.
  replace (- ey + (ey - ex)) with (- ex) by lia. lia.
Qed.

(** *** The clamped, rounded channel *)

Lemma roundedChannel_range (p : spec_float) : 0 <= roundedChannel p <= 255.
Proof.
  destruct p as [s | [] | | [] m e]; cbn [roundedChannel]; try lia.
  destruct (0 <=? e) eqn:He; [lia |]. apply Z.leb_gt in He.
  assert (0 <= (2 * Zpos m + 2 ^ (- e)) / 2 ^ (1 - e)); [| lia].
  apply Z.div_pos; [| apply Z.pow_pos_nonneg; lia].
  assert (0 < 2 ^ (- e)) by (apply Z.pow_pos_nonneg; lia). lia.
Qed.

Lemma roundedChannel_nonpositive (p : spec_float) :
  nonpositive p = true -> roundedChannel p = 0.
Proof. destruct p as [s | [] | | [] m e]; cbn; congruence. Qed.

Lemma roundedChannel_mono (p q : spec_float) :
  valid_binary p = true -> valid_binary q = true ->
  SFleb p q = true -> roundedChannel p <= roundedChannel q.
Proof.
  intros Hvp Hvq Hle.
  pose proof (roundedChannel_range p) as Rp. pose proof (roundedChannel_range q) as Rq.
  destruct p as [sp | [] | | [] mp ep]; cbn [roundedChannel] in *; try lia;
    destruct q as [sq | [] | | [] mq eq]; try discriminate; cbn [roundedChannel] in *;
    try lia.
  destruct (SFleb_finite_order _ _ _ _ Hvp Hvq Hle) as [He Hm].
  destruct (Z.leb_spec 0 ep), (Z.leb_spec 0 eq); try lia.
  apply Z.min_le_compat_l.
  assert (Hq : (2 * Zpos mq + 2 ^ (- eq)) / 2 ^ (1 - eq)
               = ((2 * Zpos mq + 2 ^ (- eq)) * 2 ^ (eq - ep)) / (2 ^ (1 - eq) * 2 ^ (eq - ep))).
  { rewrite Z.div_mul_cancel_r; [reflexivity | |];
      apply Z.pow_nonzero; lia. }
  rewrite Hq, <- Z.pow_add_r by lia.
  replace (1 - eq + (eq - ep)) with (1 - ep) by lia.
  apply Z.div_le_mono; [apply Z.pow_pos_nonneg; lia |].
  rewrite Z.mul_add_distr_r, <- Z.pow_add_r by lia.
  replace (- eq + (eq - ep)) with (- ep) by lia. lia.
Qed.


Lemma roundedChannel_high (q : spec_float) :
  valid_binary q = true -> SFleb (Prim2SF 255) q = true -> roundedChannel q = 255.
Proof.
  intros Hv Hle.
  pose proof (roundedChannel_mono _ _ (Prim2SF_valid 255) Hv Hle) as H.
  pose proof (roundedChannel_range q) as R.
  assert (H255 : roundedChannel (Prim2SF 255) = 255) by (vm_compute; reflexivity).
  lia.
Qed.

Lemma levels_In (n : Z) : 0 <= n <= 255 -> In n levels.
Proof.
  intros H. unfold levels. replace n with (Z.of_nat (Z.to_nat n)) by lia.
  apply in_map, in_seq. lia.
Qed.

Lemma levels_table :
  forallb (fun k => (JS.of_Z k <=? JS.of_Z k)%float
                    && implb (k <? 255)
                         ((JS.of_Z k <=? JS.of_Z (k + 1))%float
                          && (JS.of_Z k <? 255)%float)) levels = true.
Proof. vm_compute. reflexivity. Qed.

Lemma levels_facts (k : Z) :
  0 <= k <= 255 ->
  (JS.of_Z k <=? JS.of_Z k)%float = true /\
  (k < 255 -> (JS.of_Z k <=? JS.of_Z (k + 1))%float = true /\
              (JS.of_Z k <? 255)%float = true).
Proof.
  intros H. pose proof levels_table as T. rewrite forallb_forall in T.
  specialize (T k (levels_In k H)). apply andb_true_iff in T. destruct T as [T1 T2].
  split; [exact T1 |]. intros Hk.
  replace (k <? 255) with true in T2 by (symmetry; apply Z.ltb_lt; lia).
  cbn [implb] in T2. now apply andb_true_iff in T2.
Qed.

(** The numbers 0, ..., 255 keep their order as floats. *)
Lemma of_Z_mono (a b : Z) :
  0 <= a <= b -> b <= 255 -> (JS.of_Z a <=? JS.of_Z b)%float = true.
Proof.
  intros Ha Hb. remember (Z.to_nat (b - a)) as d eqn:Hd.
  revert b Ha Hb Hd. induction d as [| d IH]; intros b Ha Hb Hd.
  - assert (b = a) by lia. subst b. apply levels_facts. lia.
  - apply leb_trans with (JS.of_Z (b - 1)).
    + apply IH; lia.
    + replace b with (b - 1 + 1) at 2 by lia. apply levels_facts; lia.
Qed.

Lemma of_Z_255 : JS.of_Z 255 = 255%float.
Proof. vm_compute. reflexivity. Qed.

(** The channel in floats is the integer channel. *)
Lemma clamp_round_value (p : float) :
  is_nan p = false ->
  JS.Math_min 255 (JS.Math_max 0 (JS.Math_round p)) = JS.of_Z (roundedChannel (Prim2SF p)).
Proof.
  intros Hnan.
  destruct (nonpositive (Prim2SF p)) eqn:Hnp.
  { rewrite clamp_low by exact Hnp. now rewrite roundedChannel_nonpositive. }
  pose proof (Prim2SF_valid p) as Hv.
  rewrite is_nan_SF in Hnan.
  destruct (Prim2SF p) as [s | s | | s m e] eqn:E; try discriminate;
    cbn [nonpositive] in Hnp; subst s.
  - rewrite clamp_high by (rewrite E, SF_255; reflexivity).
    cbn [roundedChannel]. now rewrite of_Z_255.
  - cbn [roundedChannel]. destruct (Z.leb_spec 0 e) as [He | He].
    + rewrite clamp_high; [now rewrite of_Z_255 |].
      rewrite E, SF_255, SFleb_finite_pos.
      destruct (Z.compare_spec (-45) e); [lia | reflexivity | lia].
    + assert (Hr : is_nan (JS.Math_round p) = false).
      { apply Math_round_not_nan. rewrite is_nan_SF, E. reflexivity. }
      rewrite clamp_cases by exact Hr. clear Hr.
      unfold JS.Math_round. rewrite E.
      replace (0 <=? e) with false by (symmetry; apply Z.leb_gt; lia).
      apply valid_digits in Hv.
      set (n := (2 * Zpos m + 2 ^ (- e)) / 2 ^ (1 - e)).
      assert (Hn : - 2 ^ 53 < n < 2 ^ 53)
        by (apply round_integer_bound; [lia | exact He]).
      destruct (Z.eqb_spec n 0) as [H0 | H0].
      * rewrite H0. vm_compute. reflexivity.
      * destruct n as [| q | q] eqn:En; [lia | |].
        -- assert (Hpos : (0 <? JS.of_Z (Zpos q))%float = true).
           { rewrite ltb_spec, SF_0, of_Z_pos by lia. unfold normal_form.
             destruct (53 - Zpos (digits2_pos q)); reflexivity. }
           rewrite Hpos.
           destruct (Z.lt_ge_cases (Zpos q) 255) as [Hlt | Hge].
           ++ destruct (levels_facts (Zpos q) ltac:(lia)) as [_ Hf].
              destruct (Hf Hlt) as [_ ->].
              now replace (Z.min 255 (Zpos q)) with (Zpos q) by lia.
           ++ rewrite ltb_spec, of_Z_pos, normal_form_ge_255 by lia.
              replace (Z.min 255 (Zpos q)) with 255 by lia. now rewrite of_Z_255.
        -- exfalso.
           assert (0 <= Zneg q); [| lia]. rewrite <- En. unfold n.
           apply Z.div_pos; [| apply Z.pow_pos_nonneg; lia].
           assert (0 < 2 ^ (- e)) by (apply Z.pow_pos_nonneg; lia). lia.
Qed.

Lemma one_sub_nonpositive (x : spec_float) :
  valid_binary x = true -> SFleb (Prim2SF 1) x = true ->
  nonpositive (SF64sub (Prim2SF 1) x) = true.
Proof.
  intros Hv H.
  pose proof (SFsub_le _ _ (Prim2SF_valid 1) Hv H) as Hs.
  apply not_positive_cases in Hs. destruct Hs as [Hs | Hs]; [| exact Hs].
  exfalso. rewrite SF_1 in *.
  destruct x as [s | s | | s m e]; try discriminate.
  now apply binary_normalize_not_nan in Hs.
Qed.

Lemma binary_round_signed (P : positive) (E : Z) :
  signed false (binary_round prec emax false P E).
Proof.
  unfold binary_round. destruct (shl_align _ _ _). apply round_aux_signed. lia.
Qed.

Lemma not_nonpositive_signed (x : spec_float) :
  x <> S754_nan -> nonpositive x = false -> signed false x.
Proof.
  destruct x as [s | [] | | [] m e]; cbn; try congruence; reflexivity.
Qed.

End Monotone.
Import Monotone.
Lemma red_monotone (r1 r2 : float) :
  (r1 <=? r2) = true ->
  (roundedChannel (Prim2SF (r1 * 255)) <= roundedChannel (Prim2SF (r2 * 255)))%Z.
Proof.
  intros H. rewrite leb_spec in H.
  destruct (nonpositive (Prim2SF r1)) eqn:Hnp.
  - rewrite (roundedChannel_nonpositive (Prim2SF (r1 * 255)))
      by (rewrite mul_spec; now apply mul_255_nonpositive).
    apply roundedChannel_range.
  - apply roundedChannel_mono; try apply Prim2SF_valid.
    rewrite !mul_spec. apply mul_255_mono; try apply Prim2SF_valid; [| exact H].
    apply not_nonpositive_signed; [| exact Hnp].
    intros E. rewrite E in H. discriminate.
Qed.

Lemma green_antitone (r1 r2 : float) :
  (r1 <=? r2) = true ->
  (roundedChannel (Prim2SF ((1 - r2) * 255)) <= roundedChannel (Prim2SF ((1 - r1) * 255)))%Z.
Proof.
  intros H.
  assert (N1 : is_nan r1 = false) by (eapply leb_not_nan; exact H).
  assert (N2 : is_nan r2 = false).
  { destruct (is_nan r2) eqn:N; [| reflexivity].
    apply is_nan_eq in N. subst r2. rewrite leb_spec in H.
    destruct (Prim2SF r1); discriminate. }
  rewrite leb_spec in H.
  destruct (nonpositive (Prim2SF r1)) eqn:Hnp.
  { rewrite (roundedChannel_high (Prim2SF ((1 - r1) * 255))).
    - apply roundedChannel_range.
    - apply Prim2SF_valid.
    - rewrite mul_spec, sub_spec. apply mul_255_ge; [| now apply one_sub_ge].
      rewrite <- sub_spec. apply Prim2SF_valid. }
  destruct (1 <=? r2) eqn:H1.
  { rewrite (roundedChannel_nonpositive (Prim2SF ((1 - r2) * 255))).
    - apply roundedChannel_range.
    - rewrite mul_spec, sub_spec. apply mul_255_nonpositive, one_sub_nonpositive.
      + apply Prim2SF_valid.
      + now rewrite <- leb_spec. }
  apply not_leb_ltb in H1; [| reflexivity | exact N2].
  rewrite ltb_spec in H1.
  pose proof (Prim2SF_valid r1) as Hv1. pose proof (Prim2SF_valid r2) as Hv2.
  apply roundedChannel_mono; try apply Prim2SF_valid.
  rewrite !mul_spec, !sub_spec.
  pose proof (Prim2SF_valid (1 - r1)) as Hs1.
  pose proof (Prim2SF_valid (1 - r2)) as Hs2.
  rewrite sub_spec in Hs1, Hs2.
  rewrite is_nan_SF in N1, N2.
  destruct (Prim2SF r1) as [s1 | s1 | | s1 m1 e1]; try discriminate;
    cbn [nonpositive] in Hnp; subst s1;
    destruct (Prim2SF r2) as [s2 | s2 | | s2 m2 e2]; try destruct s2; try discriminate.
  pose proof (below_one_exponent m2 e2 Hv2 H1) as He2.
  apply mul_255_mono.
  - exact Hs2.
  - exact Hs1.
  - destruct (one_sub_below_one m2 e2 Hv2 He2) as (P & _ & ->). apply binary_round_signed.
  - now apply one_sub_antitone.
Qed.

(** X15: the colour ramp is monotone: as the ratio grows, the red channel
    never decreases and the green channel never increases. *)
Theorem getHeatmapColor_monotone (r1 r2 : float) :
  (r1 <=? r2) = true ->
  (redChannel (getHeatmapColor r1) <=? redChannel (getHeatmapColor r2)) = true /\
  (greenChannel (getHeatmapColor r2) <=? greenChannel (getHeatmapColor r1)) = true.
Proof.
  intros H.
  assert (N1 : is_nan r1 = false) by (eapply leb_not_nan; exact H).
  assert (N2 : is_nan r2 = false).
  { destruct (is_nan r2) eqn:N; [| reflexivity].
    apply is_nan_eq in N. subst r2. rewrite leb_spec in H.
    destruct (Prim2SF r1); discriminate. }
  assert (M : forall r, is_nan r = false -> is_nan (r * 255) = false)
    by (intros r Hr; eapply mul_finite_not_nan; [apply SF_255 | exact Hr]).
  assert (D : forall r, is_nan r = false -> is_nan (1 - r) = false)
    by (intros r Hr; eapply finite_sub_not_nan; [apply SF_1 | exact Hr]).
  unfold redChannel, greenChannel, getHeatmapColor. cbn [nth].
  rewrite !clamp_round_value by auto.
  split; apply of_Z_mono; try apply roundedChannel_range.
  - split; [apply roundedChannel_range | now apply red_monotone].
  - split; [apply roundedChannel_range | now apply green_antitone].
Qed.

Lemma getHeatmapColor_monotone_witness :
  (redChannel (getHeatmapColor 0.2) <=? redChannel (getHeatmapColor 0.6)) = true /\
  (greenChannel (getHeatmapColor 0.6) <=? greenChannel (getHeatmapColor 0.2)) = true.
Proof. apply getHeatmapColor_monotone. reflexivity. Defined.
